(** * RAMCloud replication: ReplicatedSegment and the backup write path

    A shallow embedding of [ReplicatedSegment.cc] (the master-side
    per-segment replication state machine) together with the write path
    of the backup as the specification and [BackupServiceTest.cc]
    describe it.

    Conventions.
    - [uint32_t] and [uint64_t] values are integers in [Z]; every
      arithmetic operation of the source is followed by its wrap-around
      ([wrap32], [wrap64]).
    - A [Tub<T>] is an [option T].
    - A [ReplicatedSegment*] is the segment id of the pointee, looked up in
      the map of segments owned by the ReplicaManager, so that two pointers
      to one segment alias.
    - A failed [assert], and a dereference of a pointer to a destroyed
      segment, end the run: [Abort]. *)

From Stdlib Require Import ZArith Bool List Lia.
From Stdlib.Strings Require Import Byte.
From stdpp Require Import base option list gmap.

Local Open Scope Z_scope.

(** ** Machine integers *)

Definition wrap32 (z : Z) : Z := z mod 2 ^ 32.
Definition wrap64 (z : Z) : Z := z mod 2 ^ 64.
Definition uint32 (z : Z) : Prop := 0 <= z < 2 ^ 32.
Definition uint64 (z : Z) : Prop := 0 <= z < 2 ^ 64.

(** [~0u], the default argument of [sync]. *)
Definition NO_OFFSET : Z := 2 ^ 32 - 1.

(** ** Server ids and certificates *)

(** A [ServerId] is an (index, generation) pair; the default-constructed
    one is the invalid id that a backup selector returns when it has no
    backup to offer. *)
Inductive ServerId : Type :=
| InvalidServerId
| MkServerId (index generation : Z).

#[global] Instance ServerId_eq_dec : EqDecision ServerId.
Proof. solve_decision. Defined.

#[global] Instance ServerId_countable : Countable ServerId.
Proof.
  refine (inj_countable'
            (fun s => match s with
                      | InvalidServerId => None
                      | MkServerId i g => Some (i, g)
                      end)
            (fun o => match o with
                      | None => InvalidServerId
                      | Some (i, g) => MkServerId i g
                      end) _).
  intros []; reflexivity.
Defined.

Definition isValid (s : ServerId) : bool :=
  match s with InvalidServerId => false | MkServerId _ _ => true end.

(** [Segment::Certificate] is opaque to the replication code: it is only
    copied around. *)
Record Certificate : Type := mkCertificate {
  segmentLength : Z;
  checksum : Z
}.

#[global] Instance Certificate_eq_dec : EqDecision Certificate.
Proof. solve_decision. Defined.

(** The source segment, as far as replication reads it:
    [segment->getAppendedLength(certificate)]. *)
Record Segment : Type := mkSegment {
  appendedLength : Z;
  appendedCertificate : Certificate
}.

(** ** Progress *)

Module Progress.

(** Field order is that of the constructor call
    [queued(true, 0, 0, false)]. *)
Record t : Type := mk {
  open : bool;
  bytes : Z;
  epoch : Z;
  close : bool
}.

(** [Progress()] *)
Definition zero : t := mk false 0 0 false.

(** Modelled from the spec: [Progress::operator==] is declared in
    ReplicatedSegment.h; two progress values are equal when all four
    fields agree. *)
Definition eqb (a b : t) : bool :=
  Bool.eqb (open a) (open b) && (bytes a =? bytes b)
  && (epoch a =? epoch b) && Bool.eqb (close a) (close b).

(** Modelled from the spec: [Progress::min] is declared in
    ReplicatedSegment.h; the committed progress of a segment is the
    componentwise minimum over its replicas. *)
Definition min (a b : t) : t :=
  mk (open a && open b) (Z.min (bytes a) (bytes b))
     (Z.min (epoch a) (epoch b)) (close a && close b).

(** The neutral element of [min] on 32-bit lengths and 64-bit epochs. *)
Definition top : t := mk true (2 ^ 32 - 1) (2 ^ 64 - 1) true.

(** The componentwise order of the invariant
    [committed <= acked <= sent <= queued]. *)
Definition le (a b : t) : Prop :=
  (open a = true -> open b = true) /\ bytes a <= bytes b
  /\ epoch a <= epoch b /\ (close a = true -> close b = true).

Definition set_open (v : bool) (p : t) : t :=
  mk v (bytes p) (epoch p) (close p).
Definition set_bytes (v : Z) (p : t) : t := mk (open p) v (epoch p) (close p).
Definition set_epoch (v : Z) (p : t) : t := mk (open p) (bytes p) v (close p).
Definition set_close (v : bool) (p : t) : t :=
  mk (open p) (bytes p) (epoch p) v.

End Progress.

Abbreviation Progress := Progress.t.

(** ** Outstanding RPCs *)

(** A [WriteSegmentRpc] is its constructor arguments (the segment pointer
    apart), plus whether [cancel()] was called on it. *)
Record WriteSegmentRpc : Type := mkWriteSegmentRpc {
  w_backupId : ServerId;
  w_masterId : ServerId;
  w_segmentId : Z;
  w_epoch : Z;
  w_offset : Z;
  w_length : Z;
  w_certificate : option Certificate;
  w_open : bool;
  w_close : bool;
  w_primary : bool;
  w_cancelled : bool
}.

Definition cancel (w : WriteSegmentRpc) : WriteSegmentRpc :=
  mkWriteSegmentRpc (w_backupId w) (w_masterId w) (w_segmentId w) (w_epoch w)
    (w_offset w) (w_length w) (w_certificate w) (w_open w) (w_close w)
    (w_primary w) true.

Record FreeSegmentRpc : Type := mkFreeSegmentRpc {
  f_backupId : ServerId;
  f_masterId : ServerId;
  f_segmentId : Z
}.

(** ** Replica *)

Module Replica.

Record t : Type := mk {
  isActive : bool;
  backupId : ServerId;
  committed : Progress;
  acked : Progress;
  sent : Progress;
  freeRpc : option FreeSegmentRpc;
  writeRpc : option WriteSegmentRpc;
  replicateAtomically : bool
}.

(** Modelled from the spec: the [Replica] class is declared in
    ReplicatedSegment.h.  A replica is created inactive, with no progress
    and no outstanding call. *)
Definition fresh : t :=
  mk false InvalidServerId Progress.zero Progress.zero Progress.zero
     None None false.

(** Modelled from the spec: [Replica::start] is declared in
    ReplicatedSegment.h; a replica is activated by [start(backupId)]. *)
Definition start (b : ServerId) (r : t) : t :=
  mk true b (committed r) (acked r) (sent r) (freeRpc r) (writeRpc r)
     (replicateAtomically r).

(** Modelled from the spec: [Replica::reset] is declared in
    ReplicatedSegment.h; it returns the slot to its initial state so
    that a different backup is tried. *)
Definition reset (r : t) : t := fresh.

(** Modelled from the spec: [Replica::failed] is declared in
    ReplicatedSegment.h; on a backup failure the replica is reset and
    marked inactive, and its replacement is re-replicated atomically. *)
Definition failed (r : t) : t :=
  mk false InvalidServerId Progress.zero Progress.zero Progress.zero
     None None true.

Definition set_committed (p : Progress) (r : t) : t :=
  mk (isActive r) (backupId r) p (acked r) (sent r) (freeRpc r) (writeRpc r)
     (replicateAtomically r).
Definition set_acked (p : Progress) (r : t) : t :=
  mk (isActive r) (backupId r) (committed r) p (sent r) (freeRpc r)
     (writeRpc r) (replicateAtomically r).
Definition set_sent (p : Progress) (r : t) : t :=
  mk (isActive r) (backupId r) (committed r) (acked r) p (freeRpc r)
     (writeRpc r) (replicateAtomically r).
Definition set_freeRpc (f : option FreeSegmentRpc) (r : t) : t :=
  mk (isActive r) (backupId r) (committed r) (acked r) (sent r) f
     (writeRpc r) (replicateAtomically r).
Definition set_writeRpc (w : option WriteSegmentRpc) (r : t) : t :=
  mk (isActive r) (backupId r) (committed r) (acked r) (sent r) (freeRpc r)
     w (replicateAtomically r).

End Replica.

Abbreviation Replica := Replica.t.

(** ** ReplicatedSegment and the state shared through the ReplicaManager *)

Record ReplicatedSegment : Type := mkReplicatedSegment {
  segment : Segment;
  normalLogSegment : bool;
  masterId : ServerId;
  segmentId : Z;
  maxBytesPerWriteRpc : Z;
  queued : Progress;
  queuedCertificate : Certificate;
  openLen : Z;
  openingWriteCertificate : Certificate;
  freeQueued : bool;
  followingSegment : option Z;
  precedingSegmentCloseCommitted : bool;
  precedingSegmentOpenCommitted : bool;
  recoveringFromLostOpenReplicas : bool;
  replicas : list Replica;
  (** [Task::isScheduled()] *)
  scheduled : bool
}.

Definition set_segment (v : Segment) (s : ReplicatedSegment) :=
  mkReplicatedSegment v (normalLogSegment s) (masterId s) (segmentId s)
    (maxBytesPerWriteRpc s) (queued s) (queuedCertificate s) (openLen s)
    (openingWriteCertificate s) (freeQueued s) (followingSegment s)
    (precedingSegmentCloseCommitted s) (precedingSegmentOpenCommitted s)
    (recoveringFromLostOpenReplicas s) (replicas s) (scheduled s).
Definition set_queued (v : Progress) (s : ReplicatedSegment) :=
  mkReplicatedSegment (segment s) (normalLogSegment s) (masterId s)
    (segmentId s) (maxBytesPerWriteRpc s) v (queuedCertificate s) (openLen s)
    (openingWriteCertificate s) (freeQueued s) (followingSegment s)
    (precedingSegmentCloseCommitted s) (precedingSegmentOpenCommitted s)
    (recoveringFromLostOpenReplicas s) (replicas s) (scheduled s).
Definition set_queuedCertificate (v : Certificate) (s : ReplicatedSegment) :=
  mkReplicatedSegment (segment s) (normalLogSegment s) (masterId s)
    (segmentId s) (maxBytesPerWriteRpc s) (queued s) v (openLen s)
    (openingWriteCertificate s) (freeQueued s) (followingSegment s)
    (precedingSegmentCloseCommitted s) (precedingSegmentOpenCommitted s)
    (recoveringFromLostOpenReplicas s) (replicas s) (scheduled s).
Definition set_freeQueued (v : bool) (s : ReplicatedSegment) :=
  mkReplicatedSegment (segment s) (normalLogSegment s) (masterId s)
    (segmentId s) (maxBytesPerWriteRpc s) (queued s) (queuedCertificate s)
    (openLen s) (openingWriteCertificate s) v (followingSegment s)
    (precedingSegmentCloseCommitted s) (precedingSegmentOpenCommitted s)
    (recoveringFromLostOpenReplicas s) (replicas s) (scheduled s).
Definition set_followingSegment (v : option Z) (s : ReplicatedSegment) :=
  mkReplicatedSegment (segment s) (normalLogSegment s) (masterId s)
    (segmentId s) (maxBytesPerWriteRpc s) (queued s) (queuedCertificate s)
    (openLen s) (openingWriteCertificate s) (freeQueued s) v
    (precedingSegmentCloseCommitted s) (precedingSegmentOpenCommitted s)
    (recoveringFromLostOpenReplicas s) (replicas s) (scheduled s).
Definition set_precedingSegmentCloseCommitted (v : bool)
    (s : ReplicatedSegment) :=
  mkReplicatedSegment (segment s) (normalLogSegment s) (masterId s)
    (segmentId s) (maxBytesPerWriteRpc s) (queued s) (queuedCertificate s)
    (openLen s) (openingWriteCertificate s) (freeQueued s)
    (followingSegment s) v (precedingSegmentOpenCommitted s)
    (recoveringFromLostOpenReplicas s) (replicas s) (scheduled s).
Definition set_precedingSegmentOpenCommitted (v : bool)
    (s : ReplicatedSegment) :=
  mkReplicatedSegment (segment s) (normalLogSegment s) (masterId s)
    (segmentId s) (maxBytesPerWriteRpc s) (queued s) (queuedCertificate s)
    (openLen s) (openingWriteCertificate s) (freeQueued s)
    (followingSegment s) (precedingSegmentCloseCommitted s) v
    (recoveringFromLostOpenReplicas s) (replicas s) (scheduled s).
Definition set_recoveringFromLostOpenReplicas (v : bool)
    (s : ReplicatedSegment) :=
  mkReplicatedSegment (segment s) (normalLogSegment s) (masterId s)
    (segmentId s) (maxBytesPerWriteRpc s) (queued s) (queuedCertificate s)
    (openLen s) (openingWriteCertificate s) (freeQueued s)
    (followingSegment s) (precedingSegmentCloseCommitted s)
    (precedingSegmentOpenCommitted s) v (replicas s) (scheduled s).
Definition set_replicas (v : list Replica) (s : ReplicatedSegment) :=
  mkReplicatedSegment (segment s) (normalLogSegment s) (masterId s)
    (segmentId s) (maxBytesPerWriteRpc s) (queued s) (queuedCertificate s)
    (openLen s) (openingWriteCertificate s) (freeQueued s)
    (followingSegment s) (precedingSegmentCloseCommitted s)
    (precedingSegmentOpenCommitted s) (recoveringFromLostOpenReplicas s) v
    (scheduled s).
Definition set_scheduled (v : bool) (s : ReplicatedSegment) :=
  mkReplicatedSegment (segment s) (normalLogSegment s) (masterId s)
    (segmentId s) (maxBytesPerWriteRpc s) (queued s) (queuedCertificate s)
    (openLen s) (openingWriteCertificate s) (freeQueued s)
    (followingSegment s) (precedingSegmentCloseCommitted s)
    (precedingSegmentOpenCommitted s) (recoveringFromLostOpenReplicas s)
    (replicas s) v.

(** Modelled from the spec: [UpdateReplicationEpochTask] lives outside
    ReplicatedSegment.cc.  It keeps, per segment id, the desired minimum
    epoch and the epoch confirmed durable at the coordinator;
    [isAtLeast] compares with the confirmed one and [updateToAtLeast]
    raises the desired one, the highest epoch winning. *)
Record UpdateReplicationEpochTask : Type := mkUpdateReplicationEpochTask {
  desired : gmap Z Z;
  confirmed : gmap Z Z
}.

Definition isAtLeast (t : UpdateReplicationEpochTask) (id e : Z) : bool :=
  e <=? default 0 (confirmed t !! id).

Definition updateToAtLeast (id e : Z) (t : UpdateReplicationEpochTask)
    : UpdateReplicationEpochTask :=
  mkUpdateReplicationEpochTask
    (<[id := Z.max (default 0 (desired t !! id)) e]> (desired t))
    (confirmed t).

(** What leaves the master: the RPCs it constructs and the segments it
    hands to the deleter. *)
Inductive Event : Type :=
| WriteIssued (w : WriteSegmentRpc)
| FreeIssued (f : FreeSegmentRpc)
| Destroyed (id : Z).

Record ReplicaManager : Type := mkReplicaManager {
  segments : gmap Z ReplicatedSegment;
  writeRpcsInFlight : Z;
  replicationEpoch : UpdateReplicationEpochTask;
  (** oldest first *)
  trace : list Event
}.

Definition set_segments (v : gmap Z ReplicatedSegment) (M : ReplicaManager) :=
  mkReplicaManager v (writeRpcsInFlight M) (replicationEpoch M) (trace M).
Definition set_writeRpcsInFlight (v : Z) (M : ReplicaManager) :=
  mkReplicaManager (segments M) v (replicationEpoch M) (trace M).
Definition set_replicationEpoch (v : UpdateReplicationEpochTask)
    (M : ReplicaManager) :=
  mkReplicaManager (segments M) (writeRpcsInFlight M) v (trace M).
Definition emit (e : Event) (M : ReplicaManager) :=
  mkReplicaManager (segments M) (writeRpcsInFlight M) (replicationEpoch M)
    (trace M ++ [e]).

Definition modifySegment (id : Z) (f : ReplicatedSegment -> ReplicatedSegment)
    (M : ReplicaManager) : ReplicaManager :=
  set_segments (alter f id (segments M)) M.

Definition modifyReplica (id : Z) (i : nat) (f : Replica -> Replica)
    (M : ReplicaManager) : ReplicaManager :=
  modifySegment id (fun s => set_replicas (alter f i (replicas s)) s) M.

(** ** Outcomes *)

Inductive Result (A : Type) : Type :=
| Ok (a : A)
| Abort.
Arguments Ok {A} a.
Arguments Abort {A}.

Definition bind {A B : Type} (m : Result A) (k : A -> Result B) : Result B :=
  match m with Ok a => k a | Abort => Abort end.

(** What the transport reports for an RPC that is ready: success, or one
    of the two exceptions the code catches. *)
Inductive RpcOutcome : Type :=
| RpcOk
| ServerNotUpException
| BackupOpenRejectedException.

(** What one [performWrite] or [performFree] call on one replica sees of
    the world outside the ReplicaManager: the backup selector's answers
    and the state of the outstanding RPC. *)
Record ReplicaEnv : Type := mkReplicaEnv {
  selectPrimary : list ServerId -> ServerId;
  selectSecondary : list ServerId -> ServerId;
  isReady : bool;
  outcome : RpcOutcome
}.


(** ** The backup's write path *)

Module BackupService.

Inductive Status : Type :=
| STATUS_OK
| BackupBadSegmentId
| BackupSegmentOverflow
| BackupOpenRejected.

(** A storage frame with its metadata.  [fromStorage] marks a replica
    found on storage at start-up, left behind by an earlier incarnation
    of the backup. *)
Record Frame : Type := mkFrame {
  data : list Byte.byte;
  certificate : option Certificate;
  closed : bool;
  primary : bool;
  epoch : Z;
  fromStorage : bool
}.

Record t : Type := mk {
  frames : gmap (ServerId * Z) Frame;
  segmentSize : nat;
  numSegmentFrames : nat;
  replicationGroup : list ServerId
}.

(** The arguments of a [writeSegment] RPC; [payload] holds the [length]
    bytes of the source segment starting at [offset]. *)
Record WriteRequest : Type := mkWriteRequest {
  req_masterId : ServerId;
  req_segmentId : Z;
  req_epoch : Z;
  req_offset : nat;
  req_payload : list Byte.byte;
  req_certificate : option Certificate;
  req_open : bool;
  req_close : bool;
  req_primary : bool
}.

Definition set_frames (v : gmap (ServerId * Z) Frame) (b : t) : t :=
  mk v (segmentSize b) (numSegmentFrames b) (replicationGroup b).

(** A freshly allocated frame: zeroed, open, written by this process. *)
Definition newFrame (b : t) (isPrimary : bool) (e : Z) : Frame :=
  mkFrame (replicate (segmentSize b) Byte.x00) None false isPrimary e false.

(** The frame after a write that passed validation: the payload copied
    at its offset, the metadata updated when a certificate came along,
    the frame sealed by a closing write. *)
Definition applyWrite (req : WriteRequest) (f : Frame) : Frame :=
  mkFrame (list_inserts (req_offset req) (req_payload req) (data f))
    (match req_certificate req with
     | Some c => Some c
     | None => certificate f
     end)
    (req_close req)
    (primary f)
    (match req_certificate req with
     | Some _ => req_epoch req
     | None => epoch f
     end)
    (fromStorage f).

(** Modelled from the spec: [BackupService::writeSegment] is not among
    the sources at hand, only its tests are.  An opening write
    allocates a frame or re-uses the one there is; any other write needs
    an existing frame.  A replica left by an earlier incarnation rejects
    the write ([OpenRejected]), as does an opening write when no frame
    is left.  The frame must be open ([BadSegmentId] otherwise, also when
    it does not exist), and offset plus length must not exceed the
    capacity ([SegmentOverflow]).  What certificates attest is outside
    this model.  A failed write leaves the store as it was. *)
Definition writeSegment (req : WriteRequest) (b : t) : Status * t :=
  let key := (req_masterId req, req_segmentId req) in
  let store (f : Frame) : Status * t :=
    if closed f then (BackupBadSegmentId, b)
    else if negb (req_offset req + length (req_payload req)
                  <=? segmentSize b)%nat
    then (BackupSegmentOverflow, b)
    else (STATUS_OK, set_frames (<[key := applyWrite req f]> (frames b)) b) in
  match frames b !! key with
  | Some f =>
      if fromStorage f then (BackupOpenRejected, b) else store f
  | None =>
      if req_open req then
        if (numSegmentFrames b <=? size (frames b))%nat
        then (BackupOpenRejected, b)
        else store (newFrame b (req_primary req) (req_epoch req))
      else (BackupBadSegmentId, b)
  end.

(** [n] more identical calls, each on the store the previous one left,
    with the status of each. *)
Fixpoint retry (n : nat) (req : WriteRequest) (b : t) : list Status * t :=
  match n with
  | O => ([], b)
  | S n' =>
      let '(st, b1) := writeSegment req b in
      let '(sts, b2) := retry n' req b1 in
      (st :: sts, b2)
  end.

(** A run of write calls, whatever their status. *)
Fixpoint writes (reqs : list WriteRequest) (b : t) : t :=
  match reqs with
  | [] => b
  | req :: rest => writes rest (snd (writeSegment req b))
  end.

(** The frame of segment [key] was sealed by a close in this process. *)
Definition sealed (key : ServerId * Z) (b : t) : Prop :=
  exists f, frames b !! key = Some f
            /\ closed f = true /\ fromStorage f = false.

End BackupService.
(** ** The operations of ReplicatedSegment.cc *)

Section ReplicatedSegment.

(** Declared in headers that are not part of the sources at hand, and
    therefore parameters of the development: the cap on outstanding write
    RPCs, the order [operator<] on [Progress], and which replica slot holds
    the primary. *)
Variable MAX_WRITE_RPCS_IN_FLIGHT : Z.
Variable progress_lt : Progress -> Progress -> bool.
Variable replicaIsPrimary : nat -> bool.

(** The constructor: [queued(true, 0, 0, false)], then [openLen] and
    [queued.bytes] from the segment's appended length, then [schedule()]. *)
Definition ReplicatedSegment_new (seg : Segment) (normal : bool)
    (master : ServerId) (id : Z) (numReplicas : nat) (maxBytes : Z)
    : ReplicatedSegment :=
  mkReplicatedSegment seg normal master id maxBytes
    (Progress.mk true (appendedLength seg) 0 false)
    (appendedCertificate seg)
    (appendedLength seg)
    (appendedCertificate seg)
    false None true true false
    (replicate numReplicas Replica.fresh)
    (negb (Nat.eqb numReplicas 0)).

(** [schedule()]: nothing to do for a segment without replicas. *)
Definition schedule_seg (s : ReplicatedSegment) : ReplicatedSegment :=
  match replicas s with
  | [] => s
  | _ :: _ => set_scheduled true s
  end.

Definition schedule (id : Z) (M : ReplicaManager) : ReplicaManager :=
  modifySegment id schedule_seg M.

(** Modelled from the spec: [getCommitted] is declared in
    ReplicatedSegment.h; it is the componentwise minimum of [committed]
    across all replicas. *)
Definition getCommitted (s : ReplicatedSegment) : Progress :=
  foldr (fun r p => Progress.min (Replica.committed r) p) Progress.top
    (replicas s).

Definition isSynced (s : ReplicatedSegment) : bool :=
  if negb (Progress.bytes (queued s) =? appendedLength (segment s)) then false
  else negb (recoveringFromLostOpenReplicas s)
       && Progress.eqb (getCommitted s) (queued s).

(** [close()]: the assertion, then [queued.close], [queued.bytes] and the
    certificate from the segment, then [schedule()]. *)
Definition close (id : Z) (M : ReplicaManager) : Result ReplicaManager :=
  match segments M !! id with
  | None => Abort
  | Some s =>
      if Progress.close (queued s) then Abort
      else
        Ok (modifySegment id
              (fun s =>
                 schedule_seg
                   (set_queuedCertificate (appendedCertificate (segment s))
                      (set_queued
                         (Progress.set_bytes (appendedLength (segment s))
                            (Progress.set_close true (queued s))) s))) M)
  end.

(** The loop of [handleBackupFailure] over the replicas, threading
    [someOpenReplicaLost] and whether [schedule()] was called. *)
Fixpoint handleBackupFailure_loop (failedId : ServerId) (rs : list Replica)
    (someOpenReplicaLost scheduleCalled : bool) : list Replica * bool * bool :=
  match rs with
  | [] => ([], someOpenReplicaLost, scheduleCalled)
  | replica :: rest =>
      if negb (Replica.isActive replica) then
        let '(rest', lost, sched) :=
          handleBackupFailure_loop failedId rest someOpenReplicaLost
            scheduleCalled in
        (replica :: rest', lost, sched)
      else if negb (bool_decide (Replica.backupId replica = failedId)) then
        let '(rest', lost, sched) :=
          handleBackupFailure_loop failedId rest someOpenReplicaLost
            scheduleCalled in
        (replica :: rest', lost, sched)
      else
        let lost1 :=
          if negb (Progress.close (Replica.committed replica))
             && negb (Replica.replicateAtomically replica)
          then true else someOpenReplicaLost in
        let '(rest', lost, sched) :=
          handleBackupFailure_loop failedId rest lost1 true in
        (Replica.failed replica :: rest', lost, sched)
  end.

Definition handleBackupFailure_seg (failedId : ServerId)
    (s : ReplicatedSegment) : ReplicatedSegment :=
  let '(rs, someOpenReplicaLost, scheduleCalled) :=
    handleBackupFailure_loop failedId (replicas s) false false in
  let s1 := set_replicas rs s in
  let s2 := if scheduleCalled then schedule_seg s1 else s1 in
  if someOpenReplicaLost then
    set_recoveringFromLostOpenReplicas true
      (set_queued
         (Progress.set_epoch (wrap64 (Progress.epoch (queued s2) + 1))
            (queued s2)) s2)
  else s2.

Definition handleBackupFailure (failedId : ServerId) (id : Z)
    (M : ReplicaManager) : ReplicaManager :=
  modifySegment id (handleBackupFailure_seg failedId) M.

(** Modelled from the spec: [ReplicaManager::handleBackupFailure] lives
    outside ReplicatedSegment.cc; it iterates every ReplicatedSegment. *)
Definition ReplicaManager_handleBackupFailure (failedId : ServerId)
    (M : ReplicaManager) : ReplicaManager :=
  set_segments (handleBackupFailure_seg failedId <$> segments M) M.

(** *** performFree *)

Definition performFree (id : Z) (i : nat) (env : ReplicaEnv)
    (M : ReplicaManager) : Result ReplicaManager :=
  match segments M !! id with
  | None => Abort
  | Some s =>
      match replicas s !! i with
      | None => Abort
      | Some replica =>
          if negb (Replica.isActive replica) then Ok M
          else
            match Replica.freeRpc replica with
            | Some _ =>
                if isReady env then
                  (* [wait()], [ServerNotUpException] swallowed *)
                  Ok (modifyReplica id i Replica.reset M)
                else Ok (schedule id M)
            | None =>
                match Replica.writeRpc replica with
                | Some _ => Abort
                | None =>
                    let rpc :=
                      mkFreeSegmentRpc (Replica.backupId replica)
                        (masterId s) (segmentId s) in
                    Ok (schedule id
                          (emit (FreeIssued rpc)
                             (modifyReplica id i
                                (Replica.set_freeRpc (Some rpc)) M)))
                end
            end
      end
  end.

(** *** performWrite *)

(** The backups of the active replicas, handed to the selector. *)
Fixpoint constraints (rs : list Replica) : list ServerId :=
  match rs with
  | [] => []
  | r :: rest =>
      if Replica.isActive r then Replica.backupId r :: constraints rest
      else constraints rest
  end.

(** The body of the [try] block up to the use of [followingSegment]:
    [acked = sent], and [committed = acked] under the condition of the
    source. *)
Definition ackWrite (q : Progress) (ol : Z) (replica : Replica) : Replica :=
  let r1 := Replica.set_acked (Replica.sent replica) replica in
  if Progress.eqb (Replica.acked r1) q
     || (Progress.bytes (Replica.acked r1) =? ol)
  then Replica.set_committed (Replica.acked r1) r1
  else r1.

(** The rest of the [try] block: tell the following segment what this
    one has committed. *)
Definition propagateToFollowing (id : Z) (M : ReplicaManager)
    : Result ReplicaManager :=
  match segments M !! id with
  | None => Abort
  | Some s =>
      bind
        (if Progress.open (getCommitted s) then
           match followingSegment s with
           | Some f =>
               match segments M !! f with
               | None => Abort
               | Some _ =>
                   Ok (modifySegment f
                         (set_precedingSegmentOpenCommitted true) M)
               end
           | None => Ok M
           end
         else Ok M)
        (fun M1 =>
           match segments M1 !! id with
           | None => Abort
           | Some s1 =>
               if Progress.close (getCommitted s1) then
                 match followingSegment s1 with
                 | Some f =>
                     match segments M1 !! f with
                     | None => Abort
                     | Some _ =>
                         Ok (modifySegment id (set_followingSegment None)
                               (modifySegment f
                                  (set_precedingSegmentCloseCommitted true)
                                  M1))
                     end
                 | None => Ok M1
                 end
               else Ok M1
           end)
  end.

(** After the [try]/[catch]: destroy the RPC, decrement the counter,
    reschedule unless done.  [replica'] is the replica as the [try] or
    the [catch] left it. *)
Definition writeRpcDone (id : Z) (i : nat) (s : ReplicatedSegment)
    (replica' : Replica) (M : ReplicaManager) : ReplicaManager :=
  let M1 :=
    set_writeRpcsInFlight (wrap32 (writeRpcsInFlight M - 1))
      (modifyReplica id i (Replica.set_writeRpc None) M) in
  if negb (Progress.eqb (Replica.committed replica') (queued s))
     || recoveringFromLostOpenReplicas s
  then schedule id M1 else M1.

(** The outstanding write RPC is ready. *)
Definition writeRpcReady (id : Z) (i : nat) (env : ReplicaEnv)
    (s : ReplicatedSegment) (replica : Replica) (M : ReplicaManager)
    : Result ReplicaManager :=
  match outcome env with
  | RpcOk =>
      bind
        (propagateToFollowing id
           (modifyReplica id i (ackWrite (queued s) (openLen s)) M))
        (fun M1 =>
           Ok (writeRpcDone id i s (ackWrite (queued s) (openLen s) replica)
                 M1))
  | ServerNotUpException =>
      Ok (writeRpcDone id i s
            (Replica.set_sent (Replica.acked replica) replica)
            (modifyReplica id i
               (fun r => Replica.set_sent (Replica.acked r) r) M))
  | BackupOpenRejectedException =>
      Ok (writeRpcDone id i s (Replica.reset replica)
            (modifyReplica id i Replica.reset M))
  end.

(** The opening write: the first [openLen] bytes, without the opening
    certificate when the replica is re-replicated. *)
Definition openingWrite (i : nat) (s : ReplicatedSegment) (replica : Replica)
    : WriteSegmentRpc :=
  let certificateToSend :=
    if Replica.replicateAtomically replica then None
    else Some (openingWriteCertificate s) in
  mkWriteSegmentRpc (Replica.backupId replica) (masterId s) (segmentId s)
    (Progress.epoch (queued s)) 0 (openLen s) certificateToSend
    true false (replicaIsPrimary i) false.

(** [sent] once the opening write is out. *)
Definition sentAfterOpen (s : ReplicatedSegment) (p : Progress) : Progress :=
  Progress.set_epoch (Progress.epoch (queued s))
    (Progress.set_bytes (openLen s) (Progress.set_open true p)).

(** No outstanding write and not yet durably open: send the opening
    write. *)
Definition sendOpen (id : Z) (i : nat) (s : ReplicatedSegment)
    (replica : Replica) (M : ReplicaManager) : ReplicaManager :=
  if negb (precedingSegmentOpenCommitted s) then schedule id M
  else if writeRpcsInFlight M =? MAX_WRITE_RPCS_IN_FLIGHT then schedule id M
  else
    let rpc := openingWrite i s replica in
    schedule id
      (emit (WriteIssued rpc)
         (set_writeRpcsInFlight (wrap32 (writeRpcsInFlight M + 1))
            (modifyReplica id i
               (fun r =>
                  Replica.set_sent (sentAfterOpen s (Replica.sent r))
                    (Replica.set_writeRpc (Some rpc) r)) M))).

(** [length] and [certificateToSend] of the next data write: all that
    is queued, or [maxBytesPerWriteRpc] bytes of it without certificate. *)
Definition chunk (s : ReplicatedSegment) (replica : Replica)
    : Z * option Certificate :=
  let offset := Progress.bytes (Replica.sent replica) in
  let length := wrap32 (Progress.bytes (queued s) - offset) in
  if length >? maxBytesPerWriteRpc s
  then (maxBytesPerWriteRpc s, None)
  else (length, Some (queuedCertificate s)).

Definition sendClose (s : ReplicatedSegment) (replica : Replica) : bool :=
  Progress.close (queued s)
  && (wrap32 (Progress.bytes (Replica.sent replica) + fst (chunk s replica))
      =? Progress.bytes (queued s)).

Definition dataWrite (i : nat) (s : ReplicatedSegment) (replica : Replica)
    : WriteSegmentRpc :=
  mkWriteSegmentRpc (Replica.backupId replica) (masterId s) (segmentId s)
    (Progress.epoch (queued s)) (Progress.bytes (Replica.sent replica))
    (fst (chunk s replica)) (snd (chunk s replica))
    false (sendClose s replica) (replicaIsPrimary i) false.

(** [sent] once the data write is out. *)
Definition sentAfterWrite (s : ReplicatedSegment) (replica : Replica)
    (p : Progress) : Progress :=
  Progress.set_close (sendClose s replica)
    (Progress.set_epoch (Progress.epoch (queued s))
       (Progress.set_bytes
          (wrap32 (Progress.bytes p + fst (chunk s replica))) p)).

(** Durably open, some data not sent yet: send the next chunk, unless
    the preceding segment is not durably closed, or the chunk would close
    this segment before the following one is durably open, or too many
    writes are in flight. *)
Definition sendWrite (id : Z) (i : nat) (s : ReplicatedSegment)
    (replica : Replica) (M : ReplicaManager) : Result ReplicaManager :=
  if negb (precedingSegmentCloseCommitted s) then Ok (schedule id M)
  else
    let issue :=
      if writeRpcsInFlight M =? MAX_WRITE_RPCS_IN_FLIGHT
      then Ok (schedule id M)
      else
        let rpc := dataWrite i s replica in
        Ok (schedule id
              (emit (WriteIssued rpc)
                 (set_writeRpcsInFlight (wrap32 (writeRpcsInFlight M + 1))
                    (modifyReplica id i
                       (fun r =>
                          Replica.set_sent
                            (sentAfterWrite s replica (Replica.sent r))
                            (Replica.set_writeRpc (Some rpc) r)) M)))) in
    if sendClose s replica then
      match followingSegment s with
      | Some f =>
          match segments M !! f with
          | None => Abort
          | Some following =>
              if negb (Progress.open (getCommitted following))
              then Ok (schedule id M)
              else issue
          end
      | None => issue
      end
    else issue.

(** [performWrite] once the replica is known to be active. *)
Definition performWrite_active (id : Z) (i : nat) (env : ReplicaEnv)
    (s : ReplicatedSegment) (replica : Replica) (M : ReplicaManager)
    : Result ReplicaManager :=
  match Replica.writeRpc replica with
  | Some _ =>
      if isReady env then writeRpcReady id i env s replica M
      else Ok (schedule id M)
  | None =>
      if negb (Progress.open (Replica.committed replica))
      then Ok (sendOpen id i s replica M)
      else if progress_lt (Replica.sent replica) (queued s)
      then sendWrite id i s replica M
      else Abort
  end.

Definition performWrite (id : Z) (i : nat) (env : ReplicaEnv)
    (M : ReplicaManager) : Result ReplicaManager :=
  match segments M !! id with
  | None => Abort
  | Some s =>
      match replicas s !! i with
      | None => Abort
      | Some replica =>
          match Replica.freeRpc replica with
          | Some _ => Abort
          | None =>
              if Replica.isActive replica
                 && Progress.eqb (Replica.committed replica) (queued s)
              then Ok M
              else if negb (Replica.isActive replica) then
                let backupId :=
                  if replicaIsPrimary i
                  then selectPrimary env (constraints (replicas s))
                  else selectSecondary env (constraints (replicas s)) in
                if negb (isValid backupId) then Ok (schedule id M)
                else
                  performWrite_active id i env s
                    (Replica.start backupId replica)
                    (modifyReplica id i (Replica.start backupId) M)
              else performWrite_active id i env s replica M
          end
      end
  end.

(** *** performTask *)

(** [foreach (auto& replica, replicas) f(replica)], from slot [i] on. *)
Fixpoint foreachReplica
    (f : nat -> ReplicaManager -> Result ReplicaManager)
    (i n : nat) (M : ReplicaManager) : Result ReplicaManager :=
  match n with
  | O => Ok M
  | S n' => bind (f i M) (foreachReplica f (S i) n')
  end.

(** [deleter.destroyAndFreeReplicatedSegment(this)] *)
Definition destroy (id : Z) (M : ReplicaManager) : ReplicaManager :=
  emit (Destroyed id) (set_segments (delete id (segments M)) M).

(** The epoch part of [performTask], run whatever was done before it. *)
Definition recoverFromLostOpenReplicas (id : Z) (M : ReplicaManager)
    : ReplicaManager :=
  match segments M !! id with
  | None => M
  | Some s =>
      if recoveringFromLostOpenReplicas s then
        if Progress.eqb (getCommitted s) (queued s) then
          if isAtLeast (replicationEpoch M) (segmentId s)
               (Progress.epoch (queued s))
          then modifySegment id (set_recoveringFromLostOpenReplicas false) M
          else
            schedule id
              (set_replicationEpoch
                 (updateToAtLeast (segmentId s) (Progress.epoch (queued s))
                    (replicationEpoch M)) M)
        else schedule id M
      else M
  end.

Definition performTask (id : Z) (env : nat -> ReplicaEnv)
    (M : ReplicaManager) : Result ReplicaManager :=
  match segments M !! id with
  | None => Abort
  | Some s =>
      bind
        (if freeQueued s && negb (recoveringFromLostOpenReplicas s) then
           bind
             (foreachReplica (fun i => performFree id i (env i)) 0
                (length (replicas s)) M)
             (fun M1 =>
                match segments M1 !! id with
                | None => Abort
                | Some s1 =>
                    if negb (scheduled s1) then Ok (destroy id M1)
                    else Ok M1
                end)
         else if negb (freeQueued s) then
           foreachReplica (fun i => performWrite id i (env i)) 0
             (length (replicas s)) M
         else Ok M)
        (fun M1 => Ok (recoverFromLostOpenReplicas id M1))
  end.

(** [taskQueue.performTask()] on a scheduled segment: the queue takes the
    task off, then runs it. *)
Definition taskQueue_performTask (id : Z) (env : nat -> ReplicaEnv)
    (M : ReplicaManager) : Result ReplicaManager :=
  match segments M !! id with
  | None => Abort
  | Some s =>
      if scheduled s
      then performTask id env (modifySegment id (set_scheduled false) M)
      else Ok M
  end.

(** *** sync and free *)

(** The test that ends [sync], written twice in the source. *)
Definition syncReturns (s : ReplicatedSegment) (offset : Z) : bool :=
  if negb (recoveringFromLostOpenReplicas s) then
    if offset =? NO_OFFSET then Progress.close (getCommitted s)
    else Progress.bytes (getCommitted s) >=? offset
  else false.

(** Between the first test and the loop: pick up what was appended. *)
Definition syncRefresh (id : Z) (M : ReplicaManager) : ReplicaManager :=
  modifySegment id
    (fun s =>
       if appendedLength (segment s) >? Progress.bytes (queued s) then
         schedule_seg
           (set_queuedCertificate (appendedCertificate (segment s))
              (set_queued
                 (Progress.set_bytes (appendedLength (segment s)) (queued s))
                 s))
       else s) M.

Inductive SyncResult : Type :=
| Returned (M : ReplicaManager)
| StillWaiting (M : ReplicaManager)
| Aborted.

(** The [while (true)] loop.  [step k] is the k-th call of
    [taskQueue.performTask()], preceded by whatever other holders of
    [dataMutex] did while the lock was released; after [fuel] rounds the
    caller is still waiting. *)
Fixpoint sync_loop (step : nat -> ReplicaManager -> Result ReplicaManager)
    (id offset : Z) (k fuel : nat) (M : ReplicaManager) : SyncResult :=
  match fuel with
  | O => StillWaiting M
  | S fuel' =>
      match step k M with
      | Abort => Aborted
      | Ok M1 =>
          match segments M1 !! id with
          | None => Aborted
          | Some s1 =>
              if syncReturns s1 offset then Returned M1
              else sync_loop step id offset (S k) fuel' M1
          end
      end
  end.

Definition sync (step : nat -> ReplicaManager -> Result ReplicaManager)
    (id offset : Z) (fuel : nat) (M : ReplicaManager) : SyncResult :=
  match segments M !! id with
  | None => Aborted
  | Some s =>
      if syncReturns s offset then Returned M
      else sync_loop step id offset 0 fuel (syncRefresh id M)
  end.

Definition cancelWrite (replica : Replica) : Replica :=
  if negb (Replica.isActive replica) then replica
  else
    match Replica.writeRpc replica with
    | None => replica
    | Some w => Replica.set_writeRpc (Some (cancel w)) replica
    end.

(** [free()] after its [sync()] has returned and [dataMutex] is taken
    again. *)
Definition free_locked (id : Z) (M : ReplicaManager) : Result ReplicaManager :=
  match segments M !! id with
  | None => Abort
  | Some s =>
      if negb (Progress.close (queued s)) then Abort
      else if bool_decide (followingSegment s <> None) then Abort
      else if negb (Progress.close (getCommitted s)) then Abort
      else
        Ok (schedule id
              (modifySegment id
                 (fun s =>
                    set_freeQueued true
                      (set_replicas (map cancelWrite (replicas s)) s)) M))
  end.

(** [free()]: [gap] is what other holders of [dataMutex] did between the
    return of [sync()] and the lock. *)
Definition free (step : nat -> ReplicaManager -> Result ReplicaManager)
    (gap : ReplicaManager -> Result ReplicaManager)
    (id : Z) (fuel : nat) (M : ReplicaManager) : SyncResult :=
  match sync step id NO_OFFSET fuel M with
  | Returned M1 =>
      match bind (gap M1) (free_locked id) with
      | Ok M2 => Returned M2
      | Abort => Aborted
      end
  | r => r
  end.

(** *** The master as a transition system *)

(** Modelled from the spec: [ReplicaManager::openSegment] lives outside
    ReplicatedSegment.cc; it creates the ReplicatedSegment and links it as
    [followingSegment] of the previous one, whose committed open and
    close become the gating flags of the new segment. *)
Definition openSegment (prev : option Z) (seg : Segment) (normal : bool)
    (master : ServerId) (id : Z) (numReplicas : nat) (maxBytes : Z)
    (M : ReplicaManager) : Result ReplicaManager :=
  let new :=
    ReplicatedSegment_new seg normal master id numReplicas maxBytes in
  match prev with
  | None => Ok (set_segments (<[id := new]> (segments M)) M)
  | Some p =>
      match segments M !! p with
      | None => Abort
      | Some ps =>
          Ok (set_segments
                (<[id := set_precedingSegmentOpenCommitted
                           (Progress.open (getCommitted ps))
                           (set_precedingSegmentCloseCommitted
                              (Progress.close (getCommitted ps)) new)]>
                   (alter (set_followingSegment (Some id)) p (segments M)))
                M)
      end
  end.

(** The log appends to the source segment. *)
Definition append (id : Z) (seg : Segment) (M : ReplicaManager)
    : ReplicaManager :=
  modifySegment id (set_segment seg) M.

(** The coordinator acknowledges the desired epoch of a segment. *)
Definition epochConfirmed (id : Z) (t : UpdateReplicationEpochTask)
    : UpdateReplicationEpochTask :=
  mkUpdateReplicationEpochTask (desired t)
    (<[id := Z.max (default 0 (confirmed t !! id))
               (default 0 (desired t !! id))]> (confirmed t)).

Definition initial : ReplicaManager :=
  mkReplicaManager ∅ 0 (mkUpdateReplicationEpochTask ∅ ∅) [].

(** The segment an event is about. *)
Definition eventSegment (e : Event) : Z :=
  match e with
  | WriteIssued w => w_segmentId w
  | FreeIssued f => f_segmentId f
  | Destroyed id => id
  end.

(** One step of the master.  The log opens segments under ids it has not
    used before, appends to segments it has not closed, and closes, syncs
    and frees them; the failure monitor reports backup failures; the task
    queue runs scheduled segments; the coordinator confirms epochs.  A
    [sync()] is [syncRefresh] followed by task-queue steps, a [free()] is
    a [sync()] followed by [free_locked]. *)
Inductive step : ReplicaManager -> ReplicaManager -> Prop :=
| step_openSegment M M' prev seg normal master id numReplicas maxBytes :
    segments M !! id = None ->
    (forall e, e ∈ trace M -> eventSegment e <> id) ->
    uint32 (appendedLength seg) -> uint32 maxBytes ->
    openSegment prev seg normal master id numReplicas maxBytes M = Ok M' ->
    step M M'
| step_append M id s seg :
    segments M !! id = Some s ->
    Progress.close (queued s) = false ->
    appendedLength (segment s) <= appendedLength seg < 2 ^ 32 ->
    step M (append id seg M)
| step_close M M' id :
    close id M = Ok M' -> step M M'
| step_syncRefresh M id :
    step M (syncRefresh id M)
| step_free M M' id :
    free_locked id M = Ok M' -> step M M'
| step_handleBackupFailure M failedId id :
    step M (handleBackupFailure failedId id M)
| step_handleBackupFailure_all M failedId :
    step M (ReplicaManager_handleBackupFailure failedId M)
| step_performTask M M' id env :
    taskQueue_performTask id env M = Ok M' -> step M M'
| step_epochConfirmed M id :
    step M (set_replicationEpoch (epochConfirmed id (replicationEpoch M)) M).

(** [steps k M M']: [k] steps lead from [M] to [M']. *)
Inductive steps : nat -> ReplicaManager -> ReplicaManager -> Prop :=
| steps_refl M : steps O M M
| steps_step k M M1 M' : steps k M M1 -> step M1 M' -> steps (S k) M M'.

(** [reachable n M]: [M] is reached from the initial state in [n] steps. *)
Inductive reachable : nat -> ReplicaManager -> Prop :=
| reachable_initial : reachable O initial
| reachable_step n M M' : reachable n M -> step M M' -> reachable (S n) M'.

(** ** Facts *)

(** *** handleBackupFailure *)

(** The replica is active and on the failed backup. *)
Definition lostReplica (failedId : ServerId) (r : Replica) : bool :=
  Replica.isActive r && bool_decide (Replica.backupId r = failedId).

(** The lost replica was open (its close was not committed) and was not
    being replicated atomically. *)
Definition lostOpenReplica (failedId : ServerId) (r : Replica) : bool :=
  lostReplica failedId r
  && negb (Progress.close (Replica.committed r))
  && negb (Replica.replicateAtomically r).

Lemma handleBackupFailure_loop_spec failedId rs lost sched :
  handleBackupFailure_loop failedId rs lost sched
  = (map (fun r => if lostReplica failedId r then Replica.failed r else r) rs,
     lost || existsb (lostOpenReplica failedId) rs,
     sched || existsb (lostReplica failedId) rs).
Proof.
  revert lost sched.
  induction rs as [|r rs IH]; intros lost sched; simpl.
  - by destruct lost, sched.
  - unfold lostOpenReplica, lostReplica at 1 3 5.
    destruct (Replica.isActive r); simpl.
    + destruct (bool_decide (Replica.backupId r = failedId)); simpl.
      * rewrite IH.
        destruct (Progress.close (Replica.committed r)),
          (Replica.replicateAtomically r), lost, sched; reflexivity.
      * by rewrite IH.
    + by rewrite IH.
Qed.

Lemma schedule_seg_queued s : queued (schedule_seg s) = queued s.
Proof. unfold schedule_seg. by destruct (replicas s). Qed.

Lemma schedule_seg_replicas s : replicas (schedule_seg s) = replicas s.
Proof. unfold schedule_seg. by destruct (replicas s) eqn:E. Qed.

Lemma schedule_seg_recovering s :
  recoveringFromLostOpenReplicas (schedule_seg s)
  = recoveringFromLostOpenReplicas s.
Proof. unfold schedule_seg. by destruct (replicas s). Qed.

Lemma wrap64_succ (e : Z) : 0 <= e -> e + 1 < 2 ^ 64 -> wrap64 (e + 1) = e + 1.
Proof. intros. unfold wrap64. apply Z.mod_small. lia. Qed.

(** C2.  [handleBackupFailure(failedId)] replaces exactly the active
    replicas whose backup is [failedId] by reset, inactive ones and leaves
    every other replica as it was.  If one of the lost replicas was open
    and not replicating atomically, [queued.epoch] is incremented once
    (as a 64-bit counter: by exactly 1 unless it was at its maximum) and
    [recoveringFromLostOpenReplicas] is set; otherwise neither [queued]
    nor the flag changes. *)
Theorem C2_handleBackupFailure (failedId : ServerId) (s : ReplicatedSegment) :
  replicas (handleBackupFailure_seg failedId s)
  = map (fun r => if lostReplica failedId r then Replica.failed r else r)
      (replicas s)
  /\ (forall r, Replica.isActive (Replica.failed r) = false
                /\ Replica.sent (Replica.failed r) = Progress.zero
                /\ Replica.acked (Replica.failed r) = Progress.zero
                /\ Replica.committed (Replica.failed r) = Progress.zero
                /\ Replica.writeRpc (Replica.failed r) = None
                /\ Replica.freeRpc (Replica.failed r) = None)
  /\ (if existsb (lostOpenReplica failedId) (replicas s)
      then queued (handleBackupFailure_seg failedId s)
           = Progress.set_epoch (wrap64 (Progress.epoch (queued s) + 1))
               (queued s)
           /\ (0 <= Progress.epoch (queued s) < 2 ^ 64 - 1 ->
               Progress.epoch (queued (handleBackupFailure_seg failedId s))
               = Progress.epoch (queued s) + 1)
           /\ recoveringFromLostOpenReplicas
                (handleBackupFailure_seg failedId s) = true
      else queued (handleBackupFailure_seg failedId s) = queued s
           /\ recoveringFromLostOpenReplicas
                (handleBackupFailure_seg failedId s)
              = recoveringFromLostOpenReplicas s).
Proof.
  unfold handleBackupFailure_seg.
  rewrite handleBackupFailure_loop_spec. simpl.
  split; [|split].
  - destruct (existsb (lostOpenReplica failedId) (replicas s));
      destruct (existsb (lostReplica failedId) (replicas s)); simpl;
      rewrite ?schedule_seg_replicas; reflexivity.
  - intros r. by repeat split.
  - destruct (existsb (lostOpenReplica failedId) (replicas s));
      destruct (existsb (lostReplica failedId) (replicas s)); simpl;
      rewrite ?schedule_seg_queued, ?schedule_seg_recovering; simpl;
      repeat split; try reflexivity;
      intros; apply wrap64_succ; lia.
Qed.

(** *** What an operation leaves alone *)

(** Everything of a segment that only the log, [close], [sync], [free]
    and [handleBackupFailure] change. *)
Definition core (s : ReplicatedSegment) :=
  (segment s, normalLogSegment s, masterId s, segmentId s,
   maxBytesPerWriteRpc s, queued s, queuedCertificate s, openLen s,
   openingWriteCertificate s, freeQueued s,
   recoveringFromLostOpenReplicas s).

(** [upd id i f M M']: from [M] to [M'] no segment appeared or vanished,
    no segment changed its core, and the only replica that changed is
    replica [i] of segment [id], by [f]. *)
Definition upd (id : Z) (i : nat) (f : Replica -> Replica)
    (M M' : ReplicaManager) : Prop :=
  forall id',
    option_Forall2
      (fun s s' =>
         core s' = core s
         /\ replicas s' = if decide (id' = id) then alter f i (replicas s)
                          else replicas s)
      (segments M !! id') (segments M' !! id').

Lemma upd_refl id i M : upd id i (fun r => r) M M.
Proof.
  intros id'. destruct (segments M !! id') as [s|]; constructor.
  split; [done|]. case_decide; [|done].
  symmetry. by apply list_alter_id.
Qed.

Lemma upd_trans id i f g M M1 M2 :
  upd id i f M M1 -> upd id i g M1 M2 -> upd id i (g ∘ f) M M2.
Proof.
  intros H1 H2 id'. specialize (H1 id'). specialize (H2 id').
  destruct H1 as [s s1 [Hc1 Hr1]|]; inversion H2 as [? s2 [Hc2 Hr2]|];
    subst; constructor.
  split; [congruence|].
  rewrite Hr2, Hr1. case_decide; [|done].
  by rewrite list_alter_alter_eq.
Qed.

Lemma upd_ext id i f g M M' :
  (forall r, f r = g r) -> upd id i f M M' -> upd id i g M M'.
Proof.
  intros Hfg H id'. specialize (H id').
  destruct H as [s s' [Hc Hr]|]; constructor.
  split; [done|]. rewrite Hr. case_decide; [|done].
  apply list_alter_ext; auto.
Qed.

Lemma upd_modifySegment id i id0 h M :
  (forall s, core (h s) = core s /\ replicas (h s) = replicas s) ->
  upd id i (fun r => r) M (modifySegment id0 h M).
Proof.
  intros Hh id'. simpl. rewrite lookup_alter.
  destruct (decide (id0 = id')) as [->|Hne].
  - destruct (segments M !! id') as [s|]; constructor.
    destruct (Hh s) as [-> ->]. split; [done|].
    case_decide; [|done]. symmetry. by apply list_alter_id.
  - apply upd_refl.
Qed.

Lemma upd_modifyReplica id i f M : upd id i f M (modifyReplica id i f M).
Proof.
  intros id'. unfold modifyReplica. simpl. rewrite lookup_alter.
  destruct (decide (id = id')) as [<-|Hne].
  - destruct (segments M !! id) as [s|]; constructor.
    split; [done|]. by rewrite decide_True.
  - destruct (segments M !! id') as [s|]; constructor.
    split; [done|]. by rewrite decide_False.
Qed.

Lemma upd_same_segments id i f M M1 M2 :
  segments M2 = segments M1 -> upd id i f M M1 -> upd id i f M M2.
Proof. intros E H id'. rewrite E. apply H. Qed.

Lemma schedule_seg_core s : core (schedule_seg s) = core s.
Proof. unfold schedule_seg. by destruct (replicas s). Qed.

Lemma upd_schedule id i id0 M : upd id i (fun r => r) M (schedule id0 M).
Proof.
  apply upd_modifySegment. intros s.
  split; [apply schedule_seg_core | apply schedule_seg_replicas].
Qed.

(** Reading a segment and a replica after an update. *)
Lemma upd_lookup id i f M M' s r :
  upd id i f M M' ->
  segments M !! id = Some s -> replicas s !! i = Some r ->
  exists s', segments M' !! id = Some s' /\ core s' = core s
             /\ replicas s' = <[i := f r]> (replicas s)
             /\ replicas s' !! i = Some (f r).
Proof.
  intros H Hs Hr. specialize (H id). rewrite Hs in H.
  inversion H as [? s' [Hc Hrs] E1 E2|]; subst.
  exists s'. rewrite decide_True in Hrs by done.
  split; [done|]. split; [done|]. split.
  - rewrite Hrs. apply list_eq. intros j.
    rewrite list_lookup_alter, list_lookup_insert.
    apply lookup_lt_Some in Hr as Hlt.
    destruct (decide (i = j)); subst.
    + rewrite decide_True by (split; [done|lia]). by rewrite Hr.
    + rewrite decide_False; [done|]. intros [? _]. done.
  - rewrite Hrs, list_lookup_alter_eq, Hr. done.
Qed.

Lemma upd_lookup_other id i f M M' id' s :
  upd id i f M M' -> id' <> id ->
  segments M !! id' = Some s ->
  exists s', segments M' !! id' = Some s' /\ core s' = core s
             /\ replicas s' = replicas s.
Proof.
  intros H Hne Hs. specialize (H id'). rewrite Hs in H.
  inversion H as [? s' [Hc Hrs]|]; subst.
  exists s'. rewrite decide_False in Hrs by done. done.
Qed.

Lemma upd_lookup_inv id i f M M' id' s' :
  upd id i f M M' ->
  segments M' !! id' = Some s' ->
  exists s, segments M !! id' = Some s /\ core s' = core s
            /\ replicas s' = if decide (id' = id) then alter f i (replicas s)
                             else replicas s.
Proof.
  intros H Hs. specialize (H id'). rewrite Hs in H.
  inversion H as [s ? [Hc Hrs]|]; subst. eauto.
Qed.

Lemma upd_lookup_None id i f M M' id' :
  upd id i f M M' -> segments M !! id' = None -> segments M' !! id' = None.
Proof.
  intros H Hs. specialize (H id'). rewrite Hs in H. by inversion H.
Qed.

Lemma upd_const id i f M M' s r :
  segments M !! id = Some s -> replicas s !! i = Some r ->
  upd id i f M M' -> upd id i (fun _ => f r) M M'.
Proof.
  intros Hs Hr H id'. specialize (H id').
  destruct (decide (id' = id)) as [->|Hne]; simpl in *.
  - rewrite Hs in *. inversion H as [? s' [Hc Hrs]|]; subst.
    constructor. split; [done|]. rewrite Hrs.
    apply list_alter_ext; [|done]. intros x Hx. congruence.
  - destruct H as [s0 s' [Hc Hrs]|]; by constructor.
Qed.

Lemma upd_step_modifyReplica id i f g M M1 :
  upd id i f M M1 -> upd id i (g ∘ f) M (modifyReplica id i g M1).
Proof. intros H. eapply upd_trans; [exact H | apply upd_modifyReplica]. Qed.

Lemma upd_step_modifySegment id i f id0 h M M1 :
  (forall s, core (h s) = core s /\ replicas (h s) = replicas s) ->
  upd id i f M M1 -> upd id i f M (modifySegment id0 h M1).
Proof.
  intros Hh H.
  apply (upd_ext id i ((fun r => r) ∘ f)); [done|].
  eapply upd_trans; [exact H | by apply upd_modifySegment].
Qed.

Lemma upd_step_schedule id i f id0 M M1 :
  upd id i f M M1 -> upd id i f M (schedule id0 M1).
Proof.
  apply upd_step_modifySegment. intros s.
  split; [apply schedule_seg_core | apply schedule_seg_replicas].
Qed.

Lemma upd_step_emit id i f e M M1 :
  upd id i f M M1 -> upd id i f M (emit e M1).
Proof. by apply upd_same_segments. Qed.

Lemma upd_step_writeRpcsInFlight id i f n M M1 :
  upd id i f M M1 -> upd id i f M (set_writeRpcsInFlight n M1).
Proof. by apply upd_same_segments. Qed.

Lemma upd_step_replicationEpoch id i f t M M1 :
  upd id i f M M1 -> upd id i f M (set_replicationEpoch t M1).
Proof. by apply upd_same_segments. Qed.

Ltac upd_steps :=
  repeat first
    [ apply upd_step_schedule
    | apply upd_step_emit
    | apply upd_step_writeRpcsInFlight
    | apply upd_step_replicationEpoch
    | apply upd_step_modifyReplica
    | apply upd_step_modifySegment; [intros ?; split; reflexivity|]
    | apply upd_refl
    | eassumption ].

(** Scheduling and the counter leave trace and epoch task alone. *)
Lemma trace_schedule id M : trace (schedule id M) = trace M.
Proof. reflexivity. Qed.
Lemma trace_modifySegment id h M : trace (modifySegment id h M) = trace M.
Proof. reflexivity. Qed.
Lemma trace_modifyReplica id i g M : trace (modifyReplica id i g M) = trace M.
Proof. reflexivity. Qed.

(** *** performWrite, seen from the replica *)

(** Case analysis on every [match] that a hypothesis is stuck on. *)
Ltac case_hyps :=
  repeat match goal with
         | H : context [match ?x with _ => _ end] |- _ =>
             destruct x eqn:?; simplify_eq
         end.

Lemma propagateToFollowing_upd id i M M' :
  propagateToFollowing id M = Ok M' ->
  upd id i (fun r => r) M M' /\ trace M' = trace M
  /\ replicationEpoch M' = replicationEpoch M
  /\ writeRpcsInFlight M' = writeRpcsInFlight M.
Proof.
  unfold propagateToFollowing, bind. intros H.
  case_hyps; (split; [upd_steps | done]).
Qed.

(** The replica after the [try]/[catch] on a ready RPC. *)
Definition afterReady (env : ReplicaEnv) (s : ReplicatedSegment)
    (replica : Replica) : Replica :=
  Replica.set_writeRpc None
    (match outcome env with
     | RpcOk => ackWrite (queued s) (openLen s) replica
     | ServerNotUpException =>
         Replica.set_sent (Replica.acked replica) replica
     | BackupOpenRejectedException => Replica.reset replica
     end).

(** The following segment exists and is not durably open. *)
Definition followingNotOpen (M : ReplicaManager) (s : ReplicatedSegment)
    : bool :=
  match followingSegment s with
  | Some f =>
      match segments M !! f with
      | Some following => negb (Progress.open (getCommitted following))
      | None => false
      end
  | None => false
  end.

Definition afterSendOpen (i : nat) (s : ReplicatedSegment)
    (M : ReplicaManager) (replica : Replica) : Replica * list Event :=
  if negb (precedingSegmentOpenCommitted s) then (replica, [])
  else if writeRpcsInFlight M =? MAX_WRITE_RPCS_IN_FLIGHT then (replica, [])
  else
    (Replica.set_sent (sentAfterOpen s (Replica.sent replica))
       (Replica.set_writeRpc (Some (openingWrite i s replica)) replica),
     [WriteIssued (openingWrite i s replica)]).

Definition afterSendWrite (i : nat) (s : ReplicatedSegment)
    (M : ReplicaManager) (replica : Replica) : Replica * list Event :=
  if negb (precedingSegmentCloseCommitted s) then (replica, [])
  else if sendClose s replica && followingNotOpen M s then (replica, [])
  else if writeRpcsInFlight M =? MAX_WRITE_RPCS_IN_FLIGHT then (replica, [])
  else
    (Replica.set_sent (sentAfterWrite s replica (Replica.sent replica))
       (Replica.set_writeRpc (Some (dataWrite i s replica)) replica),
     [WriteIssued (dataWrite i s replica)]).

Definition afterActive (i : nat) (env : ReplicaEnv) (s : ReplicatedSegment)
    (M : ReplicaManager) (replica : Replica) : Replica * list Event :=
  match Replica.writeRpc replica with
  | Some _ =>
      if isReady env then (afterReady env s replica, []) else (replica, [])
  | None =>
      if negb (Progress.open (Replica.committed replica))
      then afterSendOpen i s M replica
      else afterSendWrite i s M replica
  end.

(** The backup the selector offers for slot [i]. *)
Definition selected (i : nat) (env : ReplicaEnv) (s : ReplicatedSegment)
    : ServerId :=
  if replicaIsPrimary i then selectPrimary env (constraints (replicas s))
  else selectSecondary env (constraints (replicas s)).

(** What a [performWrite] that returns has done to its replica, and the
    RPCs it has constructed. *)
Definition afterWrite (id : Z) (i : nat) (env : ReplicaEnv)
    (s : ReplicatedSegment) (M : ReplicaManager) (replica : Replica)
    : Replica * list Event :=
  if Replica.isActive replica
     && Progress.eqb (Replica.committed replica) (queued s)
  then (replica, [])
  else if negb (Replica.isActive replica) then
    if negb (isValid (selected i env s)) then (replica, [])
    else
      afterActive i env s
        (modifyReplica id i (Replica.start (selected i env s)) M)
        (Replica.start (selected i env s) replica)
  else afterActive i env s M replica.

Ltac ok_inv :=
  try match goal with
      | H : Ok _ = Ok _ |- _ => injection H as <-
      | H : Abort = Ok _ |- _ => discriminate H
      end.

Lemma performWrite_active_upd id i env s r0 r M0 M M' :
  segments M0 !! id = Some s -> replicas s !! i = Some r0 ->
  (exists F, upd id i F M0 M /\ F r0 = r) ->
  trace M = trace M0 -> replicationEpoch M = replicationEpoch M0 ->
  performWrite_active id i env s r M = Ok M' ->
  upd id i (fun _ => fst (afterActive i env s M r)) M0 M'
  /\ trace M' = trace M0 ++ snd (afterActive i env s M r)
  /\ replicationEpoch M' = replicationEpoch M0.
Proof.
  intros Hs Hr (F & HF & HFr) Htr Hep H.
  assert (forall G M1 r1 evs,
            upd id i G M0 M1 -> G r0 = r1 -> trace M1 = trace M0 ++ evs ->
            replicationEpoch M1 = replicationEpoch M0 ->
            upd id i (fun _ => r1) M0 M1
            /\ trace M1 = trace M0 ++ evs
            /\ replicationEpoch M1 = replicationEpoch M0) as close_case.
  { intros G M1 r1 evs HG <- ? ?. split; [|done].
    by apply (upd_const id i G M0 M1 s r0). }
  unfold performWrite_active in H. unfold afterActive.
  destruct (Replica.writeRpc r) as [w|] eqn:Hw.
  - destruct (isReady env); ok_inv.
    + unfold writeRpcReady, writeRpcDone, afterReady in *.
      destruct (outcome env); simpl in H.
      * destruct (propagateToFollowing id _) as [M1|] eqn:Hp;
          simpl in H; ok_inv.
        apply (propagateToFollowing_upd id i) in Hp
          as (Hu & Ht & He & _).
        match goal with
        | |- context [if ?c then _ else _] => destruct c
        end;
          (eapply (close_case
                     (Replica.set_writeRpc None
                      ∘ ((fun r => r)
                         ∘ (ackWrite (queued s) (openLen s) ∘ F))));
           [ upd_steps; eapply upd_trans; [|exact Hu]; upd_steps
           | simpl; by rewrite HFr
           | simpl; rewrite Ht; simpl; rewrite Htr; by rewrite app_nil_r
           | simpl; rewrite He; simpl; by rewrite ?Hep ]).
      * ok_inv.
        match goal with
        | |- context [if ?c then _ else _] => destruct c
        end;
          (eapply (close_case
                     (Replica.set_writeRpc None
                      ∘ ((fun r => Replica.set_sent (Replica.acked r) r)
                         ∘ F)));
           [ upd_steps
           | simpl; by rewrite HFr
           | simpl; rewrite Htr; by rewrite app_nil_r
           | simpl; by rewrite ?Hep ]).
      * ok_inv.
        match goal with
        | |- context [if ?c then _ else _] => destruct c
        end;
          (eapply (close_case
                     (Replica.set_writeRpc None ∘ (Replica.reset ∘ F)));
           [ upd_steps
           | simpl; done
           | simpl; rewrite Htr; by rewrite app_nil_r
           | simpl; by rewrite ?Hep ]).
    + cbn [fst snd]. eapply (close_case F);
      [upd_steps|done| |simpl; by rewrite ?Hep].
      simpl. rewrite Htr. by rewrite app_nil_r.
  - destruct (negb (Progress.open (Replica.committed r))) eqn:Hopen.
    + ok_inv. unfold sendOpen, afterSendOpen.
      destruct (negb (precedingSegmentOpenCommitted s)).
      { cbn [fst snd]. eapply (close_case F);
        [upd_steps|done| |simpl; by rewrite ?Hep].
        simpl. rewrite Htr. by rewrite app_nil_r. }
      destruct (writeRpcsInFlight M =? MAX_WRITE_RPCS_IN_FLIGHT).
      { cbn [fst snd]. eapply (close_case F);
        [upd_steps|done| |simpl; by rewrite ?Hep].
        simpl. rewrite Htr. by rewrite app_nil_r. }
      cbn [fst snd].
      eapply (close_case
                ((fun r1 => Replica.set_sent
                              (sentAfterOpen s (Replica.sent r1))
                              (Replica.set_writeRpc
                                 (Some (openingWrite i s r)) r1)) ∘ F));
        [upd_steps| simpl; by rewrite HFr | |simpl; by rewrite ?Hep].
      simpl. by rewrite Htr.
    + destruct (progress_lt (Replica.sent r) (queued s)); [|done].
      unfold sendWrite in H. unfold afterSendWrite, followingNotOpen.
      destruct (negb (precedingSegmentCloseCommitted s)).
      { ok_inv. cbn [fst snd]. eapply (close_case F);
        [upd_steps|done| |simpl; by rewrite ?Hep].
        simpl. rewrite Htr. by rewrite app_nil_r. }
      assert (forall M1,
                (if writeRpcsInFlight M =? MAX_WRITE_RPCS_IN_FLIGHT
                 then Ok (schedule id M)
                 else Ok (schedule id
                            (emit (WriteIssued (dataWrite i s r))
                               (set_writeRpcsInFlight
                                  (wrap32 (writeRpcsInFlight M + 1))
                                  (modifyReplica id i
                                     (fun r1 =>
                                        Replica.set_sent
                                          (sentAfterWrite s r
                                             (Replica.sent r1))
                                          (Replica.set_writeRpc
                                             (Some (dataWrite i s r)) r1))
                                     M))))) = Ok M1 ->
                upd id i
                  (fun _ =>
                     fst (if writeRpcsInFlight M =? MAX_WRITE_RPCS_IN_FLIGHT
                          then (r, [])
                          else (Replica.set_sent
                                  (sentAfterWrite s r (Replica.sent r))
                                  (Replica.set_writeRpc
                                     (Some (dataWrite i s r)) r),
                                [WriteIssued (dataWrite i s r)]))) M0 M1
                /\ trace M1
                   = trace M0
                     ++ snd (if writeRpcsInFlight M
                                =? MAX_WRITE_RPCS_IN_FLIGHT
                             then (r, [])
                             else (Replica.set_sent
                                     (sentAfterWrite s r (Replica.sent r))
                                     (Replica.set_writeRpc
                                        (Some (dataWrite i s r)) r),
                                   [WriteIssued (dataWrite i s r)]))
                /\ replicationEpoch M1 = replicationEpoch M0) as issue_case.
      { intros M1 HM1.
        destruct (writeRpcsInFlight M =? MAX_WRITE_RPCS_IN_FLIGHT);
          ok_inv.
        - cbn [fst snd]. eapply (close_case F);
          [upd_steps|done| |simpl; by rewrite ?Hep].
          simpl. rewrite Htr. by rewrite app_nil_r.
        - cbn [fst snd].
          eapply (close_case
                    ((fun r1 => Replica.set_sent
                                  (sentAfterWrite s r (Replica.sent r1))
                                  (Replica.set_writeRpc
                                     (Some (dataWrite i s r)) r1)) ∘ F));
            [upd_steps| simpl; by rewrite HFr | |simpl; by rewrite ?Hep].
          simpl. by rewrite Htr. }
      destruct (sendClose s r); simpl.
      * destruct (followingSegment s) as [f|]; [|by apply issue_case].
        destruct (segments M !! f) as [following|]; [|done].
        destruct (negb (Progress.open (getCommitted following)));
          [|by apply issue_case].
        ok_inv. cbn [fst snd].
        eapply (close_case F);
          [upd_steps|done| |simpl; by rewrite ?Hep].
        simpl. rewrite Htr. by rewrite app_nil_r.
      * by apply issue_case.
Qed.

Lemma performWrite_upd id i env M M' s r :
  segments M !! id = Some s -> replicas s !! i = Some r ->
  performWrite id i env M = Ok M' ->
  Replica.freeRpc r = None
  /\ upd id i (fun _ => fst (afterWrite id i env s M r)) M M'
  /\ trace M' = trace M ++ snd (afterWrite id i env s M r)
  /\ replicationEpoch M' = replicationEpoch M.
Proof.
  intros Hs Hr H. unfold performWrite in H. rewrite Hs, Hr in H.
  destruct (Replica.freeRpc r); [done|]. split; [done|].
  unfold afterWrite. fold (selected i env s) in H.
  destruct (Replica.isActive r
            && Progress.eqb (Replica.committed r) (queued s)).
  { ok_inv. cbn [fst snd]. rewrite app_nil_r. split; [|done].
    apply (upd_const id i (fun r => r) M M s r); auto using upd_refl. }
  destruct (negb (Replica.isActive r)).
  - destruct (negb (isValid (selected i env s))).
    + ok_inv. cbn [fst snd]. simpl. rewrite app_nil_r. split; [|done].
      apply (upd_const id i (fun r => r) M _ s r); auto using upd_schedule.
    + eapply performWrite_active_upd; eauto.
      exists (Replica.start (selected i env s)).
      split; [apply upd_modifyReplica | done].
  - eapply performWrite_active_upd; eauto.
    exists (fun r => r). split; [apply upd_refl | done].
Qed.

(** *** C1: the acknowledgement of a write *)

Lemma wrap32_small (z : Z) : 0 <= z < 2 ^ 32 -> wrap32 z = z.
Proof. intros. unfold wrap32. by apply Z.mod_small. Qed.

Lemma Progress_eqb_eq (a b : Progress) : Progress.eqb a b = true <-> a = b.
Proof.
  destruct a as [ao ab ae ac], b as [bo bb be bc]. unfold Progress.eqb.
  simpl. rewrite !andb_true_iff, !Z.eqb_eq, !Bool.eqb_true_iff.
  split; [intros [[[-> ->] ->] ->]; done | intros [= -> -> -> ->]; done].
Qed.

Lemma Progress_eqb_refl (a : Progress) : Progress.eqb a a = true.
Proof. by apply Progress_eqb_eq. Qed.

(** The following segment, if any, has not been destroyed. *)
Definition followingAlive (M : ReplicaManager) (s : ReplicatedSegment)
    : Prop :=
  match followingSegment s with
  | Some f => is_Some (segments M !! f)
  | None => True
  end.

Lemma propagateToFollowing_ok id M s :
  segments M !! id = Some s -> followingAlive M s ->
  exists M', propagateToFollowing id M = Ok M'.
Proof.
  intros Hs Ha. unfold propagateToFollowing, followingAlive in *.
  rewrite Hs.
  assert (forall M1 s1,
            segments M1 !! id = Some s1 ->
            followingSegment s1 = followingSegment s ->
            (forall f, is_Some (segments M !! f) ->
                       is_Some (segments M1 !! f)) ->
            exists M',
              (if Progress.close (getCommitted s1) then
                 match followingSegment s1 with
                 | Some f =>
                     match segments M1 !! f with
                     | None => Abort
                     | Some _ =>
                         Ok (modifySegment id (set_followingSegment None)
                               (modifySegment f
                                  (set_precedingSegmentCloseCommitted true)
                                  M1))
                     end
                 | None => Ok M1
                 end
               else Ok M1) = Ok M') as stage2.
  { intros M1 s1 Hs1 Hf Hdom.
    destruct (Progress.close (getCommitted s1)); [|eauto].
    rewrite Hf. destruct (followingSegment s) as [f|]; [|eauto].
    destruct (Hdom f Ha) as [x ->]. eauto. }
  assert (exists M1 s1,
            (if Progress.open (getCommitted s) then
               match followingSegment s with
               | Some f =>
                   match segments M !! f with
                   | None => Abort
                   | Some _ =>
                       Ok (modifySegment f
                             (set_precedingSegmentOpenCommitted true) M)
                   end
               | None => Ok M
               end
             else Ok M) = Ok M1
            /\ segments M1 !! id = Some s1
            /\ followingSegment s1 = followingSegment s
            /\ (forall f, is_Some (segments M !! f) ->
                          is_Some (segments M1 !! f)))
    as (M1 & s1 & -> & Hs1 & Hf1 & Hdom).
  { destruct (Progress.open (getCommitted s)); [|by eauto 10].
    destruct (followingSegment s) as [f|] eqn:Hf; [|by eauto 10].
    destruct Ha as [fs ->].
    exists (modifySegment f (set_precedingSegmentOpenCommitted true) M).
    destruct (decide (f = id)) as [->|Hne].
    - exists (set_precedingSegmentOpenCommitted true s).
      split; [done|]. simpl. rewrite lookup_alter_eq, Hs.
      split; [done|]. split; [done|].
      intros f' [x Hx]. rewrite lookup_alter.
      case_decide; subst; rewrite ?Hx; eauto.
    - exists s. split; [done|]. simpl. rewrite lookup_alter_ne by done.
      split; [done|]. split; [done|].
      intros f' [x Hx]. rewrite lookup_alter.
      case_decide; subst; rewrite ?Hx; eauto. }
  simpl. rewrite Hs1. by eapply stage2.
Qed.

(** The condition under which the acknowledgement advances
    [committed]. *)
Definition ackCommits (s : ReplicatedSegment) (p : Progress) : bool :=
  Progress.eqb p (queued s) || (Progress.bytes p =? openLen s).

Lemma followingAlive_modifyReplica id i g M s :
  segments M !! id = Some s -> followingAlive M s ->
  exists s', segments (modifyReplica id i g M) !! id = Some s'
             /\ followingAlive (modifyReplica id i g M) s'.
Proof.
  intros Hs Ha. unfold modifyReplica, modifySegment. simpl.
  rewrite lookup_alter_eq, Hs. simpl. eexists; split; [done|].
  unfold followingAlive in *. simpl.
  destruct (followingSegment s) as [f|]; [|done].
  rewrite lookup_alter. destruct Ha as [x Hx].
  case_decide; subst; rewrite ?Hs, ?Hx; simpl; eauto.
Qed.

(** A ready, successful write RPC of an active, unsynced replica is
    always taken to completion. *)
Lemma performWrite_ack_ok id i env M s r w :
  segments M !! id = Some s -> replicas s !! i = Some r ->
  followingAlive M s ->
  Replica.freeRpc r = None -> Replica.isActive r = true ->
  Progress.eqb (Replica.committed r) (queued s) = false ->
  Replica.writeRpc r = Some w ->
  isReady env = true -> outcome env = RpcOk ->
  exists M', performWrite id i env M = Ok M'
             /\ afterWrite id i env s M r
                = (Replica.set_writeRpc None
                     (ackWrite (queued s) (openLen s) r), []).
Proof.
  intros Hs Hr Ha Hf Hact Hne Hw Hready Hout.
  unfold performWrite, afterWrite, performWrite_active, afterActive,
    writeRpcReady, afterReady.
  rewrite Hs, Hr, Hf, Hact, Hne, Hw, Hready, Hout. simpl.
  destruct (followingAlive_modifyReplica id i
              (ackWrite (queued s) (openLen s)) M s Hs Ha)
    as (s' & Hs' & Ha').
  destruct (propagateToFollowing_ok id _ s' Hs' Ha') as [M1 ->].
  simpl. eauto.
Qed.

(** *** C3: when sync returns *)

(** The test of [sync] on segment [id] of the manager. *)
Definition syncDone (id offset : Z) (M : ReplicaManager) : bool :=
  match segments M !! id with
  | Some s => syncReturns s offset
  | None => false
  end.

(** [n] rounds of the loop of [sync], from round [k] on, tests apart. *)
Fixpoint run (step : nat -> ReplicaManager -> Result ReplicaManager)
    (k n : nat) (M : ReplicaManager) : Result ReplicaManager :=
  match n with
  | O => Ok M
  | S n' => bind (step k M) (run step (S k) n')
  end.

(** The condition as the specification words it: a certificate covering
    [min(offset, queued.bytes)] is durable and, when no offset is given,
    [queued.close] is durable and the recovery from lost open replicas
    is over. *)
Definition specifiedSyncCondition (s : ReplicatedSegment) (offset : Z)
    : bool :=
  (Z.min offset (Progress.bytes (queued s))
   <=? Progress.bytes (getCommitted s))
  && (if offset =? NO_OFFSET
      then Progress.close (getCommitted s)
           && negb (recoveringFromLostOpenReplicas s)
      else true).

Lemma syncReturns_spec s offset :
  syncReturns s offset = true
  <-> recoveringFromLostOpenReplicas s = false
      /\ (if offset =? NO_OFFSET
          then Progress.close (getCommitted s) = true
          else offset <= Progress.bytes (getCommitted s)).
Proof.
  unfold syncReturns.
  destruct (recoveringFromLostOpenReplicas s); simpl.
  { split; [done|]. by intros [? _]. }
  destruct (offset =? NO_OFFSET).
  { split; [done|]. by intros [_ ?]. }
  rewrite Z.geb_le. split; [done|]. by intros [_ ?].
Qed.

Lemma sync_loop_sound step id offset fuel : forall k M M',
  sync_loop step id offset k fuel M = Returned M' ->
  syncDone id offset M' = true.
Proof.
  induction fuel as [|fuel IH]; intros k M M' H; simpl in H; [done|].
  destruct (step k M) as [M1|]; [|done].
  unfold syncDone.
  destruct (segments M1 !! id) as [s1|] eqn:Hs1; [|done].
  destruct (syncReturns s1 offset) eqn:Hret.
  - injection H as <-. by rewrite Hs1.
  - by apply IH in H.
Qed.

Lemma sync_loop_prompt step id offset : forall n k fuel M M',
  (n < fuel)%nat ->
  run step k (S n) M = Ok M' ->
  syncDone id offset M' = true ->
  (forall j Mj, (j < n)%nat -> run step k (S j) M = Ok Mj ->
                is_Some (segments Mj !! id)
                /\ syncDone id offset Mj = false) ->
  sync_loop step id offset k fuel M = Returned M'.
Proof.
  induction n as [|n IH]; intros k fuel M M' Hlt Hrun Hdone Hbefore;
    (destruct fuel as [|fuel]; [lia|]); cbn [sync_loop].
  - cbn [run] in Hrun. destruct (step k M) as [M1|]; [|done].
    simpl in Hrun. injection Hrun as ->. unfold syncDone in Hdone.
    destruct (segments M' !! id); [|done]. by rewrite Hdone.
  - change (run step k (S (S n)) M)
      with (bind (step k M) (run step (S k) (S n))) in Hrun.
    destruct (step k M) as [M1|] eqn:Hstep; [|done]. cbn [bind] in Hrun.
    destruct (Hbefore O M1) as [[s1 Hs1] Hnot];
      [lia|cbn [run]; by rewrite Hstep|].
    unfold syncDone in Hnot. rewrite Hs1 in *. rewrite Hnot.
    apply (IH (S k) fuel M1 M'); [lia|done|done|].
    intros j Mj Hj Hrunj. apply (Hbefore (S j) Mj); [lia|].
    change (run step k (S (S j)) M)
      with (bind (step k M) (run step (S k) (S j))).
    by rewrite Hstep.
Qed.

Lemma sync_loop_first step id offset fuel : forall k M M',
  sync_loop step id offset k fuel M = Returned M' ->
  exists n,
    (n < fuel)%nat /\ run step k (S n) M = Ok M'
    /\ forall j Mj, (j < n)%nat -> run step k (S j) M = Ok Mj ->
                    syncDone id offset Mj = false.
Proof.
  induction fuel as [|fuel IH]; intros k M M' H; simpl in H; [done|].
  destruct (step k M) as [M1|] eqn:Hstep; [|done].
  destruct (segments M1 !! id) as [s1|] eqn:Hs1; [|done].
  destruct (syncReturns s1 offset) eqn:Hret.
  - injection H as <-. exists O. split; [lia|]. split.
    + cbn [run]. by rewrite Hstep.
    + intros j Mj Hj. lia.
  - destruct (IH _ _ _ H) as (n & Hn & Hrun & Hbefore).
    exists (S n). split; [lia|]. split.
    + change (run step k (S (S n)) M)
        with (bind (step k M) (run step (S k) (S n))).
      by rewrite Hstep.
    + intros [|j] Mj Hj Hrunj.
      * cbn [run] in Hrunj. rewrite Hstep in Hrunj. simpl in Hrunj.
        injection Hrunj as <-. unfold syncDone. by rewrite Hs1.
      * apply (Hbefore j); [lia|].
        change (run step k (S (S j)) M)
          with (bind (step k M) (run step (S k) (S j))) in Hrunj.
        by rewrite Hstep in Hrunj.
Qed.

(** The condition of C3 as amended, written out: the recovery from lost
    open replicas is over and, for an offset, the committed bytes have
    reached the offset itself or, without offset, the close is
    committed. *)
Definition amendedSyncCondition (s : ReplicatedSegment) (offset : Z)
    : Prop :=
  recoveringFromLostOpenReplicas s = false
  /\ (if offset =? NO_OFFSET
      then Progress.close (getCommitted s) = true
      else offset <= Progress.bytes (getCommitted s)).

(** The same of segment [id] of the manager. *)
Definition syncedTo (id offset : Z) (M : ReplicaManager) : Prop :=
  exists s, segments M !! id = Some s /\ amendedSyncCondition s offset.

Lemma syncDone_syncedTo id offset M :
  syncDone id offset M = true <-> syncedTo id offset M.
Proof.
  unfold syncDone, syncedTo, amendedSyncCondition.
  destruct (segments M !! id) as [s|].
  - rewrite syncReturns_spec. split; [eauto|].
    by intros (s' & [= <-] & ?).
  - split; [done|]. by intros (s' & [=] & _).
Qed.

Lemma syncDone_not_syncedTo id offset M :
  syncDone id offset M = false <-> ~ syncedTo id offset M.
Proof.
  rewrite <- syncDone_syncedTo. by destruct (syncDone id offset M).
Qed.

(** C3, as amended.  [sync(offset)] returns exactly when
    [recoveringFromLostOpenReplicas] is clear and, for an offset, the
    committed bytes have reached the offset itself or, without offset,
    the close is committed.  The condition is written out in
    [syncedTo], not taken from the test of the code.  A call that
    returns does so in a state where the condition holds, which is the
    state on entry or the state after the first round of the loop after
    which it holds; a call returns at once when the condition holds on
    entry, and otherwise after the first round after which it holds.  A
    sync with an offset waits for the recovery flag as well. *)
Theorem C3_sync_returns
    (step : nat -> ReplicaManager -> Result ReplicaManager)
    (id offset : Z) (fuel : nat) (M : ReplicaManager) :
  (forall M', sync step id offset fuel M = Returned M' ->
              syncedTo id offset M'
              /\ (M' = M
                  \/ (~ syncedTo id offset M
                      /\ exists n,
                           (n < fuel)%nat
                           /\ run step 0 (S n) (syncRefresh id M) = Ok M'
                           /\ forall j Mj,
                                (j < n)%nat ->
                                run step 0 (S j) (syncRefresh id M) = Ok Mj ->
                                ~ syncedTo id offset Mj)))
  /\ (syncedTo id offset M ->
      sync step id offset fuel M = Returned M)
  /\ (forall n M',
        is_Some (segments M !! id) ->
        ~ syncedTo id offset M ->
        (n < fuel)%nat ->
        run step 0 (S n) (syncRefresh id M) = Ok M' ->
        syncedTo id offset M' ->
        (forall j Mj, (j < n)%nat ->
                      run step 0 (S j) (syncRefresh id M) = Ok Mj ->
                      is_Some (segments Mj !! id)
                      /\ ~ syncedTo id offset Mj) ->
        sync step id offset fuel M = Returned M').
Proof.
  split; [|split].
  - intros M' H. unfold sync in H.
    destruct (segments M !! id) as [s|] eqn:Hs; [|done].
    destruct (syncReturns s offset) eqn:Hret.
    + injection H as <-. split; [|by left].
      apply syncDone_syncedTo. unfold syncDone. by rewrite Hs.
    + split.
      * apply syncDone_syncedTo. by apply sync_loop_sound in H.
      * right. split.
        { apply syncDone_not_syncedTo. unfold syncDone. by rewrite Hs. }
        destruct (sync_loop_first _ _ _ _ _ _ _ H)
          as (n & Hn & Hrun & Hbefore).
        exists n. split; [done|]. split; [done|].
        intros j Mj Hj Hrunj. apply syncDone_not_syncedTo. eauto.
  - intros Hdone%syncDone_syncedTo. unfold syncDone, sync in *.
    destruct (segments M !! id); [|done]. by rewrite Hdone.
  - intros n M' [s Hs] Hnot%syncDone_not_syncedTo Hlt Hrun
      Hdone%syncDone_syncedTo Hbefore.
    unfold sync. rewrite Hs. unfold syncDone in Hnot. rewrite Hs in Hnot.
    rewrite Hnot.
    apply (sync_loop_prompt step id offset n); [done|done|done|].
    intros j Mj Hj Hrunj. destruct (Hbefore j Mj Hj Hrunj) as [? ?].
    split; [done|]. by apply syncDone_not_syncedTo.
Qed.

(** *** C6: the close waits for the open of the following segment *)

Lemma getCommitted_alter g i s :
  (forall r, Replica.committed (g r) = Replica.committed r) ->
  getCommitted (set_replicas (alter g i (replicas s)) s) = getCommitted s.
Proof.
  intros Hg. unfold getCommitted. simpl.
  generalize (replicas s). clear s. intros rs. revert i.
  induction rs as [|r rs IH]; intros [|i]; simpl; try done.
  - by rewrite Hg.
  - f_equal. apply IH.
Qed.



(** *** performFree and performTask, seen from the replica *)

Definition afterFree (env : ReplicaEnv) (s : ReplicatedSegment)
    (replica : Replica) : Replica * list Event :=
  if negb (Replica.isActive replica) then (replica, [])
  else
    match Replica.freeRpc replica with
    | Some _ =>
        if isReady env then (Replica.reset replica, []) else (replica, [])
    | None =>
        let rpc :=
          mkFreeSegmentRpc (Replica.backupId replica) (masterId s)
            (segmentId s) in
        (Replica.set_freeRpc (Some rpc) replica, [FreeIssued rpc])
    end.

Lemma performFree_upd id i env M M' s r :
  segments M !! id = Some s -> replicas s !! i = Some r ->
  performFree id i env M = Ok M' ->
  upd id i (fun _ => fst (afterFree env s r)) M M'
  /\ trace M' = trace M ++ snd (afterFree env s r)
  /\ replicationEpoch M' = replicationEpoch M
  /\ (Replica.isActive r = true -> Replica.freeRpc r = None ->
      Replica.writeRpc r = None).
Proof.
  intros Hs Hr H. unfold performFree in H. rewrite Hs, Hr in H.
  unfold afterFree.
  destruct (negb (Replica.isActive r)) eqn:Hact.
  { ok_inv. cbn [fst snd]. rewrite app_nil_r.
    split; [|by destruct (Replica.isActive r)].
    apply (upd_const id i (fun r => r) M M s r); auto using upd_refl. }
  destruct (Replica.freeRpc r) as [rpc|].
  - destruct (isReady env); ok_inv; cbn [fst snd]; simpl;
      rewrite app_nil_r; (split; [|done]).
    + apply (upd_const id i Replica.reset M _ s r); auto.
      apply upd_modifyReplica.
    + apply (upd_const id i (fun r => r) M _ s r); auto using upd_schedule.
  - destruct (Replica.writeRpc r); [done|]. ok_inv. cbn [fst snd]. simpl.
    split; [|done].
    apply (upd_const id i
             (Replica.set_freeRpc
                (Some (mkFreeSegmentRpc (Replica.backupId r) (masterId s)
                         (segmentId s)))) M _ s r); auto.
    apply (upd_ext id i
             (Replica.set_freeRpc
                (Some (mkFreeSegmentRpc (Replica.backupId r) (masterId s)
                         (segmentId s))) ∘ (fun r => r))); [done|].
    upd_steps.
Qed.

Lemma foreachReplica_inv (P : ReplicaManager -> Prop)
    (f : nat -> ReplicaManager -> Result ReplicaManager) :
  (forall i M M', P M -> f i M = Ok M' -> P M') ->
  forall n i M M', P M -> foreachReplica f i n M = Ok M' -> P M'.
Proof.
  intros Hf. induction n as [|n IH]; intros i M M' HP H; simpl in H.
  - by injection H as <-.
  - destruct (f i M) as [M1|] eqn:Hfi; [|done]. simpl in H.
    eapply IH; [|exact H]. eauto.
Qed.

(** The events of [performWrite] are writes for its segment. *)
Lemma afterWrite_events id i env s M r e :
  e ∈ snd (afterWrite id i env s M r) ->
  exists w, e = WriteIssued w /\ w_segmentId w = segmentId s.
Proof.
  unfold afterWrite.
  assert (forall M1 r1,
            e ∈ snd (afterActive i env s M1 r1) ->
            exists w, e = WriteIssued w /\ w_segmentId w = segmentId s)
    as Hactive.
  { intros M1 r1. unfold afterActive, afterSendOpen, afterSendWrite.
    repeat match goal with
           | |- context [match ?x with _ => _ end] => destruct x
           end; simpl;
      first [by intros ?%elem_of_nil
            | intros ->%list_elem_of_singleton; eauto]. }
  repeat match goal with
         | |- context [if ?x then _ else _] => destruct x
         end; simpl; first [by intros ?%elem_of_nil | apply Hactive].
Qed.

(** The events of [performFree] are frees for its segment. *)
Lemma afterFree_events env s r e :
  e ∈ snd (afterFree env s r) ->
  exists f, e = FreeIssued f /\ f_segmentId f = segmentId s.
Proof.
  unfold afterFree.
  repeat match goal with
         | |- context [match ?x with _ => _ end] => destruct x
         end; simpl;
    first [by intros ?%elem_of_nil
          | intros ->%list_elem_of_singleton; eauto].
Qed.

(** What a loop of [performWrite] or of [performFree] over the replicas
    of segment [id] keeps: the segments and their cores, and the epoch
    task; its events are of the kind [K]. *)
Definition loopKeeps (K : Event -> Prop) (M M' : ReplicaManager) : Prop :=
  (forall id',
     option_Forall2 (fun s s' => core s' = core s)
       (segments M !! id') (segments M' !! id'))
  /\ replicationEpoch M' = replicationEpoch M
  /\ exists events, trace M' = trace M ++ events /\ Forall K events.

Lemma loopKeeps_refl K M : loopKeeps K M M.
Proof.
  split; [|split; [done|]].
  - intros id'. by destruct (segments M !! id'); constructor.
  - exists []. by rewrite app_nil_r.
Qed.

Lemma loopKeeps_upd K id i f M M1 M2 events :
  loopKeeps K M M1 -> upd id i f M1 M2 ->
  trace M2 = trace M1 ++ events -> Forall K events ->
  replicationEpoch M2 = replicationEpoch M1 ->
  loopKeeps K M M2.
Proof.
  intros (Hc & He & evs & Ht & HK) Hu Ht2 HK2 He2.
  split; [|split; [congruence|]].
  - intros id'. specialize (Hc id'). specialize (Hu id').
    destruct Hc; inversion Hu as [? ? [? ?]|]; subst; constructor.
    congruence.
  - exists (evs ++ events). rewrite Ht2, Ht, app_assoc.
    split; [done|]. by apply Forall_app.
Qed.

Definition isWriteFor (id : Z) (e : Event) : Prop :=
  exists w, e = WriteIssued w /\ w_segmentId w = id.

Definition isFreeFor (id : Z) (e : Event) : Prop :=
  exists f, e = FreeIssued f /\ f_segmentId f = id.

Lemma performWrite_loop id env M0 M s : forall n i M',
  segments M0 !! id = Some s ->
  loopKeeps (isWriteFor (segmentId s)) M0 M ->
  foreachReplica (fun i => performWrite id i (env i)) i n M = Ok M' ->
  loopKeeps (isWriteFor (segmentId s)) M0 M'.
Proof.
  intros n i M' Hs HM H.
  eapply (foreachReplica_inv
            (loopKeeps (isWriteFor (segmentId s)) M0)); [|exact HM|exact H].
  clear HM H. intros i1 M1 M2 HM H.
  pose proof HM as (Hc & _). specialize (Hc id). rewrite Hs in Hc.
  inversion Hc as [? s1 Hcore E1 E2|]; subst. symmetry in E2.
  destruct (replicas s1 !! i1) as [r|] eqn:Hr;
    [|unfold performWrite in H; by rewrite E2, Hr in H].
  destruct (performWrite_upd _ _ _ _ _ _ _ E2 Hr H) as (_ & Hu & Ht & He).
  eapply loopKeeps_upd; eauto.
  apply Forall_forall. intros e He'.
  apply afterWrite_events in He' as (w & -> & Hw).
  exists w. split; [done|]. rewrite Hw. unfold core in Hcore. congruence.
Qed.

Lemma performFree_loop id env M0 M s : forall n i M',
  segments M0 !! id = Some s ->
  loopKeeps (isFreeFor (segmentId s)) M0 M ->
  foreachReplica (fun i => performFree id i (env i)) i n M = Ok M' ->
  loopKeeps (isFreeFor (segmentId s)) M0 M'.
Proof.
  intros n i M' Hs HM H.
  eapply (foreachReplica_inv
            (loopKeeps (isFreeFor (segmentId s)) M0)); [|exact HM|exact H].
  clear HM H. intros i1 M1 M2 HM H.
  pose proof HM as (Hc & _). specialize (Hc id). rewrite Hs in Hc.
  inversion Hc as [? s1 Hcore E1 E2|]; subst. symmetry in E2.
  destruct (replicas s1 !! i1) as [r|] eqn:Hr;
    [|unfold performFree in H; by rewrite E2, Hr in H].
  destruct (performFree_upd _ _ _ _ _ _ _ E2 Hr H) as (Hu & Ht & He & _).
  eapply loopKeeps_upd; eauto.
  apply Forall_forall. intros e He'.
  apply afterFree_events in He' as (w & -> & Hw).
  exists w. split; [done|]. rewrite Hw. unfold core in Hcore. congruence.
Qed.

(** *** C10: recovery from lost open replicas comes before freeing *)

Lemma recover_lookup id M s :
  segments M !! id = Some s ->
  recoveringFromLostOpenReplicas s = true ->
  exists s',
    segments (recoverFromLostOpenReplicas id M) !! id = Some s'
    /\ replicas s' = replicas s
    /\ queued s' = queued s
    /\ freeQueued s' = freeQueued s
    /\ trace (recoverFromLostOpenReplicas id M) = trace M
    /\ (recoveringFromLostOpenReplicas s' = false
        <-> Progress.eqb (getCommitted s) (queued s) = true
            /\ isAtLeast (replicationEpoch M) (segmentId s)
                 (Progress.epoch (queued s)) = true)
    /\ (Progress.eqb (getCommitted s) (queued s) = true ->
        isAtLeast (replicationEpoch M) (segmentId s)
          (Progress.epoch (queued s)) = false ->
        replicationEpoch (recoverFromLostOpenReplicas id M)
        = updateToAtLeast (segmentId s) (Progress.epoch (queued s))
            (replicationEpoch M)).
Proof.
  intros Hs Hrec. unfold recoverFromLostOpenReplicas. rewrite Hs, Hrec.
  destruct (Progress.eqb (getCommitted s) (queued s)).
  - destruct (isAtLeast _ _ _) eqn:Hat.
    + eexists. simpl. rewrite lookup_alter_eq, Hs. simpl.
      repeat split; done.
    + eexists. simpl. rewrite lookup_alter_eq, Hs. simpl.
      rewrite schedule_seg_replicas, schedule_seg_queued,
        schedule_seg_recovering, Hrec.
      pose proof (schedule_seg_core s) as Hc. unfold core in Hc.
      repeat split; try done; try congruence.
      by intros [_ ?].
  - eexists. simpl. rewrite lookup_alter_eq, Hs. simpl.
    rewrite schedule_seg_replicas, schedule_seg_queued,
      schedule_seg_recovering, Hrec.
    pose proof (schedule_seg_core s) as Hc. unfold core in Hc.
    repeat split; try done; try congruence.
    by intros [? _].
Qed.

Lemma core_recovering s s' :
  core s' = core s ->
  recoveringFromLostOpenReplicas s' = recoveringFromLostOpenReplicas s.
Proof. unfold core. by intros [=]. Qed.

Lemma core_freeQueued s s' : core s' = core s -> freeQueued s' = freeQueued s.
Proof. unfold core. by intros [=]. Qed.

Lemma core_segmentId s s' : core s' = core s -> segmentId s' = segmentId s.
Proof. unfold core. by intros [=]. Qed.

(** C10.  While [recoveringFromLostOpenReplicas] is set, [performTask]
    issues no free RPC and destroys nothing, also when [freeQueued] is
    set (then it does not touch the replicas at all); its events are
    writes.  It ends with the epoch protocol: the flag is cleared
    exactly when the committed progress equals [queued] and the
    replication epoch is at least [queued.epoch]; when the progress is
    equal but the epoch is not yet reached it asks for the update.
    Freeing and destruction, which need the flag cleared on entry, can
    only come in a later [performTask]. *)
Theorem C10_recovery_before_free id env M s :
  segments M !! id = Some s ->
  recoveringFromLostOpenReplicas s = true ->
  (freeQueued s = true ->
   performTask id env M = Ok (recoverFromLostOpenReplicas id M))
  /\ forall M', performTask id env M = Ok M' ->
       exists M1 s1 s' events,
         (freeQueued s = true -> M1 = M)
         /\ segments M1 !! id = Some s1
         /\ core s1 = core s
         /\ replicationEpoch M1 = replicationEpoch M
         /\ M' = recoverFromLostOpenReplicas id M1
         /\ segments M' !! id = Some s'
         /\ replicas s' = replicas s1
         /\ trace M' = trace M ++ events
         /\ Forall (isWriteFor (segmentId s)) events
         /\ (recoveringFromLostOpenReplicas s' = false
             <-> Progress.eqb (getCommitted s1) (queued s1) = true
                 /\ isAtLeast (replicationEpoch M1) (segmentId s1)
                      (Progress.epoch (queued s1)) = true)
         /\ (Progress.eqb (getCommitted s1) (queued s1) = true ->
             isAtLeast (replicationEpoch M1) (segmentId s1)
               (Progress.epoch (queued s1)) = false ->
             replicationEpoch M'
             = updateToAtLeast (segmentId s1) (Progress.epoch (queued s1))
                 (replicationEpoch M1)).
Proof.
  intros Hs Hrec. unfold performTask. rewrite Hs, Hrec, andb_false_r.
  split.
  - by intros ->.
  - intros M' H.
    assert (exists M1,
              (freeQueued s = true -> M1 = M)
              /\ loopKeeps (isWriteFor (segmentId s)) M M1
              /\ M' = recoverFromLostOpenReplicas id M1)
      as (M1 & Hfq & Hkeep & ->).
    { destruct (freeQueued s); simpl in H.
      - injection H as <-. exists M. auto using loopKeeps_refl.
      - destruct (foreachReplica _ _ _ _) as [M1|] eqn:Hloop; [|done].
        simpl in H. injection H as <-. exists M1.
        split; [done|]. split; [|done].
        eapply performWrite_loop; eauto using loopKeeps_refl. }
    destruct Hkeep as (Hc & He & events & Ht & HK).
    specialize (Hc id). rewrite Hs in Hc.
    inversion Hc as [? s1 Hcore E1 E2|]; subst. symmetry in E2.
    pose proof (core_recovering _ _ Hcore) as Hrec1. rewrite Hrec in Hrec1.
    destruct (recover_lookup id M1 s1 E2 Hrec1)
      as (s' & Hs' & Hr' & _ & _ & Ht' & Hiff & Hupd).
    exists M1, s1, s', events.
    repeat (split; [done|]).
    split; [by rewrite Ht'|]. done.
Qed.

(** *** C5: the invariant of a replica *)

(** What holds of a replica of segment [s] in every reachable state.
    The first line is the order claimed by the specification; the rest
    is what makes it inductive. *)
Record repInv (s : ReplicatedSegment) (r : Replica) : Prop := mkRepInv {
  inv_committed_acked : Progress.le (Replica.committed r) (Replica.acked r);
  inv_acked_sent : Progress.le (Replica.acked r) (Replica.sent r);
  inv_sent_queued : Progress.le (Replica.sent r) (queued s);
  inv_nonneg :
    0 <= Progress.bytes (Replica.committed r)
    /\ 0 <= Progress.epoch (Replica.committed r);
  inv_inactive :
    Replica.isActive r = false ->
    Replica.committed r = Progress.zero /\ Replica.acked r = Progress.zero
    /\ Replica.sent r = Progress.zero
    /\ Replica.writeRpc r = None /\ Replica.freeRpc r = None;
  inv_not_open :
    Progress.open (Replica.committed r) = false ->
    Replica.acked r = Progress.zero;
  inv_not_open_idle :
    Progress.open (Replica.committed r) = false ->
    Replica.writeRpc r = None -> Replica.sent r = Progress.zero;
  inv_not_open_busy :
    Progress.open (Replica.committed r) = false ->
    Replica.writeRpc r <> None ->
    Progress.open (Replica.sent r) = true
    /\ Progress.bytes (Replica.sent r) = openLen s
    /\ Progress.close (Replica.sent r) = false;
  inv_sent_close :
    Progress.close (Replica.sent r) = true ->
    Progress.close (queued s) = true
    /\ Progress.bytes (Replica.sent r) = Progress.bytes (queued s);
  inv_acked_close :
    Progress.close (Replica.acked r) = true ->
    Progress.bytes (Replica.acked r) = Progress.bytes (queued s)
}.

(** What holds of a segment after at most [n] steps. *)
Record segInv (n : nat) (s : ReplicatedSegment) : Prop := mkSegInv {
  inv_queued_open : Progress.open (queued s) = true;
  inv_openLen : 0 <= openLen s <= Progress.bytes (queued s);
  inv_appended :
    Progress.bytes (queued s) <= appendedLength (segment s) < 2 ^ 32;
  inv_maxBytes : 0 <= maxBytesPerWriteRpc s < 2 ^ 32;
  inv_epoch : 0 <= Progress.epoch (queued s) <= Z.of_nat n;
  inv_closed :
    Progress.close (queued s) = true ->
    Progress.bytes (queued s) = appendedLength (segment s);
  inv_replicas : Forall (repInv s) (replicas s)
}.

Definition managerInv (n : nat) (M : ReplicaManager) : Prop :=
  forall id s, segments M !! id = Some s -> segmentId s = id /\ segInv n s.

(** The part of the core that the invariants read. *)
Definition icore (s : ReplicatedSegment) :=
  (segment s, segmentId s, maxBytesPerWriteRpc s, queued s, openLen s).

Lemma core_icore s s' : core s' = core s -> icore s' = icore s.
Proof. unfold core, icore. intros [=]. congruence. Qed.

Lemma repInv_icore s s' r : icore s' = icore s -> repInv s r -> repInv s' r.
Proof.
  unfold icore. intros [= _ _ _ Hq Hol] [].
  constructor; rewrite ?Hq, ?Hol; done.
Qed.

Lemma segInv_icore n s s' (P : Replica -> Prop) :
  icore s' = icore s -> segInv n s ->
  Forall (repInv s') (replicas s') -> segInv n s'.
Proof.
  unfold icore. intros [= Hseg _ Hmax Hq Hol] [] Hreps.
  constructor; rewrite ?Hseg, ?Hmax, ?Hq, ?Hol; done.
Qed.

Lemma segInv_flags n s s' :
  icore s' = icore s -> replicas s' = replicas s -> segInv n s -> segInv n s'.
Proof.
  intros Hi Hr Hs. apply (segInv_icore n s s' (fun _ => True) Hi Hs).
  rewrite Hr. eapply Forall_impl; [apply Hs|].
  intros r. by apply repInv_icore.
Qed.

Lemma segInv_mono n s : segInv n s -> segInv (S n) s.
Proof. intros []. constructor; try done. lia. Qed.

Lemma managerInv_mono n M : managerInv n M -> managerInv (S n) M.
Proof.
  intros H id s Hs. destruct (H id s Hs). auto using segInv_mono.
Qed.

Lemma icore_segmentId s s' : icore s' = icore s -> segmentId s' = segmentId s.
Proof. unfold icore. by intros [=]. Qed.

(** An update of one replica keeps the invariant if it does so locally. *)
Lemma managerInv_upd n id i f M M' :
  upd id i f M M' -> managerInv n M ->
  (forall s r, segments M !! id = Some s -> replicas s !! i = Some r ->
               segInv n s -> repInv s r -> repInv s (f r)) ->
  managerInv n M'.
Proof.
  intros Hu HM Hf id' s' Hs'.
  destruct (upd_lookup_inv _ _ _ _ _ _ _ Hu Hs') as (s & Hs & Hc & Hr).
  destruct (HM id' s Hs) as [Hid Hinv].
  apply core_icore in Hc as Hi.
  split; [by rewrite (icore_segmentId _ _ Hi)|].
  apply (segInv_icore n s s' (fun _ => True) Hi Hinv).
  rewrite Hr. case_decide; subst.
  - apply Forall_alter.
    + eapply Forall_impl; [apply Hinv|]. intros r. by apply repInv_icore.
    + intros r Hri Hrinv. apply (repInv_icore s); [done|].
      apply (Hf s r); auto.
      eapply Forall_lookup_1; [apply Hinv|done].
  - eapply Forall_impl; [apply Hinv|]. intros r. by apply repInv_icore.
Qed.

Lemma managerInv_modifySegment n id h M :
  (forall s, segInv n s -> icore (h s) = icore s /\ segInv n (h s)) ->
  managerInv n M -> managerInv n (modifySegment id h M).
Proof.
  intros Hh HM id' s'. simpl. rewrite lookup_alter.
  destruct (decide (id = id')) as [<-|Hne]; [|apply HM].
  destruct (segments M !! id) as [s|] eqn:Hs; [|done].
  intros [= <-]. destruct (HM id s Hs) as [Hid Hinv].
  destruct (Hh s Hinv) as [Hi Hinv']. split; [|done].
  by rewrite (icore_segmentId _ _ Hi).
Qed.

Lemma managerInv_same_segments n M M' :
  segments M' = segments M -> managerInv n M -> managerInv n M'.
Proof. intros E H id s. rewrite E. apply H. Qed.

Lemma managerInv_schedule n id M :
  managerInv n M -> managerInv n (schedule id M).
Proof.
  apply managerInv_modifySegment. intros s Hs.
  assert (icore (schedule_seg s) = icore s) as Hi
      by apply core_icore, schedule_seg_core.
  split; [done|].
  apply (segInv_flags n s); auto using schedule_seg_replicas.
Qed.

Ltac unfold_progress :=
  unfold Progress.le, Progress.zero, Progress.set_open, Progress.set_bytes,
    Progress.set_epoch, Progress.set_close, Replica.set_sent,
    Replica.set_acked, Replica.set_committed, Replica.set_writeRpc,
    Replica.set_freeRpc, Replica.start, Replica.reset, Replica.fresh,
    Replica.failed in *.

(** Split a replica, its three progress values and [queued] into their
    fields. *)
Ltac split_replica s r :=
  let q := fresh "q" in
  destruct r as [act bid [co cb ce cc] [ao ab ae ac] [so sb se sc] fr wr at_];
  remember (queued s) as q eqn:Hq;
  destruct q as [qo qb qe qc].

Ltac use_queued :=
  try match goal with
      | H : _ = queued _ |- _ => rewrite <- H
      end.

Ltac inv_auto :=
  repeat match goal with
         | H : _ /\ _ |- _ => destruct H
         | |- _ /\ _ => split
         | |- _ -> _ => intro
         end;
  simplify_eq/=;
  repeat match goal with
         | H : ?P -> _, H' : ?P |- _ => specialize (H H')
         | H : ?x = ?x -> _ |- _ => specialize (H eq_refl)
         end;
  repeat match goal with
         | H : _ /\ _ |- _ => destruct H
         end;
  simplify_eq/=;
  try done; try lia; try congruence;
  try (intuition (first [lia | congruence | done])).

(** Open a [repInv] goal on a replica split into fields. *)
Ltac inv_open :=
  unfold_progress; simpl in *;
  constructor; use_queued; simpl; unfold Progress.le in *; simpl in *.

Ltac inv_fields :=
  constructor; use_queued; unfold_progress; simpl in *;
  repeat match goal with
         | |- _ /\ _ => split
         | |- _ -> _ => intro
         | H : _ /\ _ |- _ => destruct H
         end;
  simplify_eq/=; try done; try lia; try congruence.

Lemma repInv_fresh n s : segInv n s -> repInv s Replica.fresh.
Proof. intros []. inv_fields. Qed.

Lemma repInv_failed n s r : segInv n s -> repInv s (Replica.failed r).
Proof. intros []. inv_fields. Qed.

Lemma repInv_start s r b :
  repInv s r -> Replica.isActive r = false -> repInv s (Replica.start b r).
Proof.
  intros [] Hact. destruct (inv_inactive0 Hact) as (? & ? & ? & ? & ?).
  split_replica s r. inv_fields.
Qed.

Lemma repInv_notup s r :
  repInv s r ->
  repInv s (Replica.set_writeRpc None
              (Replica.set_sent (Replica.acked r) r)).
Proof. intros []. split_replica s r. inv_open; inv_auto. Qed.

Lemma repInv_ack s r :
  repInv s r -> Replica.writeRpc r <> None ->
  repInv s (Replica.set_writeRpc None
              (ackWrite (queued s) (openLen s) r)).
Proof.
  intros [] Hw. unfold ackWrite.
  destruct (Progress.open (Replica.committed r)) eqn:Hopen.
  - (* open committed: whichever way the condition goes *)
    split_replica s r. simpl in Hopen. subst co.
    destruct (_ || _); inv_open; inv_auto.
  - (* the acknowledged write is the opening one *)
    destruct (inv_not_open_busy0 eq_refl Hw) as (Hso & Hsb & Hsc).
    simpl. rewrite Hsb, Z.eqb_refl, orb_true_r.
    split_replica s r. inv_open; inv_auto.
Qed.

Lemma repInv_sendOpen n s r w :
  segInv n s -> repInv s r ->
  Replica.isActive r = true -> Replica.writeRpc r = None ->
  Progress.open (Replica.committed r) = false ->
  repInv s (Replica.set_sent (sentAfterOpen s (Replica.sent r))
              (Replica.set_writeRpc (Some w) r)).
Proof.
  intros [] [] Hact Hw Hopen. unfold sentAfterOpen.
  pose proof (inv_not_open0 Hopen). pose proof (inv_not_open_idle0 Hopen Hw).
  split_replica s r. inv_open; inv_auto.
Qed.

(** The next chunk lies within what is queued and not yet sent. *)
Lemma chunk_bounds n s r :
  segInv n s -> repInv s r ->
  Progress.open (Replica.committed r) = true ->
  0 <= Progress.bytes (Replica.sent r) <= Progress.bytes (queued s)
  /\ 0 <= fst (chunk s r)
          <= Progress.bytes (queued s) - Progress.bytes (Replica.sent r)
  /\ Progress.bytes (queued s) < 2 ^ 32.
Proof.
  intros [] [] Hopen. unfold chunk.
  assert (0 <= Progress.bytes (Replica.sent r) <= Progress.bytes (queued s))
    as Hb.
  { destruct inv_committed_acked0 as (_ & ? & _).
    destruct inv_acked_sent0 as (_ & ? & _).
    destruct inv_sent_queued0 as (_ & ? & _). lia. }
  rewrite wrap32_small by lia.
  split; [done|]. split; [|lia].
  destruct (Z.gtb_spec
              (Progress.bytes (queued s) - Progress.bytes (Replica.sent r))
              (maxBytesPerWriteRpc s)); simpl; lia.
Qed.

Lemma repInv_sendWrite n s r w :
  segInv n s -> repInv s r ->
  Replica.isActive r = true ->
  Progress.open (Replica.committed r) = true ->
  repInv s (Replica.set_sent (sentAfterWrite s r (Replica.sent r))
              (Replica.set_writeRpc (Some w) r)).
Proof.
  intros Hs Hr Hact Hopen.
  destruct (chunk_bounds n s r Hs Hr Hopen) as (Hsb & Hlen & Hqb).
  unfold sentAfterWrite, sendClose.
  set (len := fst (chunk s r)) in *. clearbody len.
  rewrite wrap32_small by lia.
  destruct Hs, Hr.
  destruct (Progress.close (queued s)
            && (Progress.bytes (Replica.sent r) + len
                =? Progress.bytes (queued s))) eqn:Hclose.
  - apply andb_true_iff in Hclose as [Hqc Hall%Z.eqb_eq].
    split_replica s r. simpl in Hqc. subst qc.
    inv_open; inv_auto.
  - assert (Progress.close (Replica.sent r) = false) as Hsc.
    { destruct (Progress.close (Replica.sent r)) eqn:Hsc; [|done].
      destruct (inv_sent_close0 eq_refl) as [Hqc Heq].
      rewrite Hqc in Hclose. simpl in Hclose.
      apply Z.eqb_neq in Hclose. lia. }
    assert (Progress.close (Replica.acked r) = false) as Hac.
    { destruct inv_acked_sent0 as (_ & _ & _ & Hc).
      destruct (Progress.close (Replica.acked r)); [|done].
      rewrite Hc in Hsc; done. }
    split_replica s r. simpl in Hsc, Hac. subst sc ac.
    inv_open; inv_auto.
Qed.

(** [performWrite] keeps the invariant of its replica. *)
Lemma repInv_afterWrite n id i env s M r :
  segInv n s -> repInv s r ->
  repInv s (fst (afterWrite id i env s M r)).
Proof.
  intros Hs Hr. unfold afterWrite.
  assert (forall M1 r1,
            repInv s r1 -> Replica.isActive r1 = true ->
            repInv s (fst (afterActive i env s M1 r1))) as Hactive.
  { intros M1 r1 Hr1 Hact. unfold afterActive.
    destruct (Replica.writeRpc r1) as [w|] eqn:Hw.
    - destruct (isReady env); [|done]. simpl. unfold afterReady.
      destruct (outcome env).
      + apply repInv_ack; [done|]. by rewrite Hw.
      + by apply repInv_notup.
      + eapply repInv_icore; [done|]. apply (repInv_fresh n s) in Hs.
        destruct Hs. by constructor.
    - destruct (negb (Progress.open (Replica.committed r1))) eqn:Hopen.
      + unfold afterSendOpen.
        destruct (negb (precedingSegmentOpenCommitted s)); [done|].
        destruct (writeRpcsInFlight M1 =? MAX_WRITE_RPCS_IN_FLIGHT); [done|].
        simpl. apply (repInv_sendOpen n); auto.
        by apply negb_true_iff.
      + unfold afterSendWrite.
        destruct (negb (precedingSegmentCloseCommitted s)); [done|].
        destruct (sendClose s r1 && followingNotOpen M1 s); [done|].
        destruct (writeRpcsInFlight M1 =? MAX_WRITE_RPCS_IN_FLIGHT); [done|].
        simpl. apply (repInv_sendWrite n); auto.
        by apply negb_false_iff. }
  destruct (Replica.isActive r) eqn:Hact; simpl.
  - destruct (Progress.eqb (Replica.committed r) (queued s)); [done|].
    by apply Hactive.
  - destruct (negb (isValid (selected i env s))); [done|].
    apply Hactive; [|done]. by apply repInv_start.
Qed.

(** [performFree] keeps the invariant of its replica. *)
Lemma repInv_afterFree n env s r :
  segInv n s -> repInv s r -> repInv s (fst (afterFree env s r)).
Proof.
  intros Hs Hr. unfold afterFree.
  destruct (negb (Replica.isActive r)) eqn:Hact; [done|].
  apply negb_false_iff in Hact.
  destruct (Replica.freeRpc r).
  - destruct (isReady env); [|done]. simpl. by apply (repInv_fresh n).
  - simpl. destruct Hr. split_replica s r. inv_open; inv_auto.
Qed.

Lemma repInv_cancelWrite s r : repInv s r -> repInv s (cancelWrite r).
Proof.
  intros Hr. unfold cancelWrite.
  destruct (negb (Replica.isActive r)) eqn:Hact; [done|].
  apply negb_false_iff in Hact.
  destruct (Replica.writeRpc r) eqn:Hw; [|done].
  destruct Hr. split_replica s r. inv_open; inv_auto.
Qed.

(** *** Every step keeps the invariants *)

(** [queued] may move forward under a replica: more bytes, a later
    epoch, the close; a closed segment only changes epoch. *)
Lemma repInv_queued s s' r :
  repInv s r ->
  openLen s' = openLen s ->
  Progress.open (queued s') = Progress.open (queued s) ->
  Progress.bytes (queued s) <= Progress.bytes (queued s') ->
  Progress.epoch (queued s) <= Progress.epoch (queued s') ->
  (Progress.close (queued s) = true ->
   Progress.close (queued s') = true
   /\ Progress.bytes (queued s') = Progress.bytes (queued s)) ->
  repInv s' r.
Proof.
  intros [] Hol Hopen Hbytes Hepoch Hclose.
  destruct r as [act bid [co cb ce cc] [ao ab ae ac] [so sb se sc] fr wr at_].
  remember (queued s) as q eqn:Hq. remember (queued s') as q' eqn:Hq'.
  destruct q as [qo qb qe qc], q' as [qo' qb' qe' qc'].
  unfold_progress. simpl in *. subst qo'.
  constructor; rewrite <- ?Hq', ?Hol; simpl; unfold Progress.le in *;
    simpl in *; inv_auto.
Qed.

Lemma managerInv_modifySegment_step n id h M :
  (forall s, segments M !! id = Some s -> segInv n s ->
             segmentId (h s) = segmentId s /\ segInv (S n) (h s)) ->
  managerInv n M -> managerInv (S n) (modifySegment id h M).
Proof.
  intros Hh HM id' s'. simpl. rewrite lookup_alter.
  destruct (decide (id = id')) as [<-|Hne].
  - destruct (segments M !! id) as [s|] eqn:Hs; [|done].
    intros [= <-]. destruct (HM id s Hs) as [Hid Hinv].
    destruct (Hh s eq_refl Hinv) as [Hid' Hinv']. split; [|done].
    congruence.
  - intros Hs'. destruct (HM id' s' Hs'). auto using segInv_mono.
Qed.

Lemma segInv_requeue n m s s' :
  segInv n s -> (n <= m)%nat ->
  segment s' = segment s -> maxBytesPerWriteRpc s' = maxBytesPerWriteRpc s ->
  openLen s' = openLen s -> replicas s' = replicas s ->
  Progress.open (queued s') = Progress.open (queued s) ->
  Progress.bytes (queued s) <= Progress.bytes (queued s')
    <= appendedLength (segment s) ->
  Progress.epoch (queued s) <= Progress.epoch (queued s') <= Z.of_nat m ->
  (Progress.close (queued s) = true ->
   Progress.close (queued s') = true
   /\ Progress.bytes (queued s') = Progress.bytes (queued s)) ->
  (Progress.close (queued s') = true ->
   Progress.bytes (queued s') = appendedLength (segment s)) ->
  segInv m s'.
Proof.
  intros [] Hnm Hseg Hmax Hol Hreps Hopen Hbytes Hepoch Hclose Hclosed.
  constructor; rewrite ?Hseg, ?Hmax, ?Hol; try done; try lia.
  - congruence.
  - rewrite Hreps. eapply Forall_impl; [exact inv_replicas0|].
    intros r Hr. apply (repInv_queued s); auto; lia.
Qed.

Lemma performWrite_inv n id i env M M' :
  managerInv n M -> performWrite id i env M = Ok M' -> managerInv n M'.
Proof.
  intros HM H.
  destruct (segments M !! id) as [s|] eqn:Hs;
    [|unfold performWrite in H; by rewrite Hs in H].
  destruct (replicas s !! i) as [r|] eqn:Hr;
    [|unfold performWrite in H; by rewrite Hs, Hr in H].
  destruct (performWrite_upd _ _ _ _ _ _ _ Hs Hr H) as (_ & Hu & _).
  eapply managerInv_upd; [exact Hu|exact HM|].
  intros s0 r0 Hs0 Hr0 Hinv Hrinv. simplify_eq.
  by apply (repInv_afterWrite n).
Qed.

Lemma performFree_inv n id i env M M' :
  managerInv n M -> performFree id i env M = Ok M' -> managerInv n M'.
Proof.
  intros HM H.
  destruct (segments M !! id) as [s|] eqn:Hs;
    [|unfold performFree in H; by rewrite Hs in H].
  destruct (replicas s !! i) as [r|] eqn:Hr;
    [|unfold performFree in H; by rewrite Hs, Hr in H].
  destruct (performFree_upd _ _ _ _ _ _ _ Hs Hr H) as (Hu & _).
  eapply managerInv_upd; [exact Hu|exact HM|].
  intros s0 r0 Hs0 Hr0 Hinv Hrinv. simplify_eq.
  by apply (repInv_afterFree n).
Qed.

Lemma managerInv_flags n id h M :
  (forall s, icore (h s) = icore s /\ replicas (h s) = replicas s) ->
  managerInv n M -> managerInv n (modifySegment id h M).
Proof.
  intros Hh. apply managerInv_modifySegment. intros s Hs.
  destruct (Hh s) as [Hi Hr]. split; [done|]. by apply (segInv_flags n s).
Qed.

Lemma recover_inv n id M :
  managerInv n M -> managerInv n (recoverFromLostOpenReplicas id M).
Proof.
  intros HM. unfold recoverFromLostOpenReplicas.
  destruct (segments M !! id) as [s|]; [|done].
  destruct (recoveringFromLostOpenReplicas s); [|done].
  destruct (Progress.eqb (getCommitted s) (queued s)).
  - destruct (isAtLeast _ _ _).
    + by apply managerInv_flags.
    + by apply managerInv_schedule, (managerInv_same_segments n M).
  - by apply managerInv_schedule.
Qed.

Lemma destroy_inv n id M : managerInv n M -> managerInv n (destroy id M).
Proof.
  intros HM id' s'. simpl. rewrite lookup_delete_Some.
  intros [_ Hs']. by apply HM.
Qed.

Lemma performTask_inv n id env M M' :
  managerInv n M -> performTask id env M = Ok M' -> managerInv n M'.
Proof.
  intros HM H. unfold performTask in H.
  destruct (segments M !! id) as [s|]; [|done].
  destruct (freeQueued s && negb (recoveringFromLostOpenReplicas s)).
  - destruct (foreachReplica _ _ _ _) as [M1|] eqn:Hloop; [|done].
    simpl in H.
    assert (managerInv n M1) as HM1.
    { eapply (foreachReplica_inv (managerInv n)); [|exact HM|exact Hloop].
      intros i M2 M3. apply performFree_inv. }
    destruct (segments M1 !! id) as [s1|]; [|done].
    destruct (negb (scheduled s1)); simpl in H; injection H as <-;
      auto using recover_inv, destroy_inv.
  - destruct (negb (freeQueued s)).
    + destruct (foreachReplica _ _ _ _) as [M1|] eqn:Hloop; [|done].
      simpl in H. injection H as <-. apply recover_inv.
      eapply (foreachReplica_inv (managerInv n)); [|exact HM|exact Hloop].
      intros i M2 M3. apply performWrite_inv.
    + simpl in H. injection H as <-. by apply recover_inv.
Qed.

Lemma taskQueue_performTask_inv n id env M M' :
  managerInv n M -> taskQueue_performTask id env M = Ok M' ->
  managerInv n M'.
Proof.
  intros HM H. unfold taskQueue_performTask in H.
  destruct (segments M !! id) as [s|]; [|done].
  destruct (scheduled s); [|by injection H as <-].
  eapply performTask_inv; [|exact H]. by apply managerInv_flags.
Qed.

Lemma schedule_seg_icore s : icore (schedule_seg s) = icore s.
Proof. apply core_icore, schedule_seg_core. Qed.

Lemma schedule_seg_fields s :
  segment (schedule_seg s) = segment s
  /\ segmentId (schedule_seg s) = segmentId s
  /\ maxBytesPerWriteRpc (schedule_seg s) = maxBytesPerWriteRpc s
  /\ openLen (schedule_seg s) = openLen s
  /\ freeQueued (schedule_seg s) = freeQueued s.
Proof. unfold schedule_seg. by destruct (replicas s). Qed.

Lemma segInv_schedule n s : segInv n s -> segInv n (schedule_seg s).
Proof.
  apply segInv_flags; [apply schedule_seg_icore|apply schedule_seg_replicas].
Qed.

Lemma segmentId_schedule s : segmentId (schedule_seg s) = segmentId s.
Proof. apply icore_segmentId, schedule_seg_icore. Qed.

Lemma repInv_zero s r :
  0 <= Progress.bytes (queued s) -> 0 <= Progress.epoch (queued s) ->
  Replica.committed r = Progress.zero -> Replica.acked r = Progress.zero ->
  Replica.sent r = Progress.zero -> Replica.writeRpc r = None ->
  Replica.freeRpc r = None ->
  repInv s r.
Proof.
  intros ? ? Hc Ha Hs Hw Hf. split_replica s r. simpl in *. subst.
  inv_open; inv_auto.
Qed.

Lemma segInv_new n seg normal master id numReplicas maxBytes :
  uint32 (appendedLength seg) -> uint32 maxBytes ->
  segInv n (ReplicatedSegment_new seg normal master id numReplicas maxBytes).
Proof.
  unfold uint32. intros Hseg Hmax.
  constructor; simpl; try done; try lia.
  apply Forall_replicate. by apply repInv_zero; simpl; try lia.
Qed.

Lemma managerInv_insert n id s M :
  segmentId s = id -> segInv n s -> managerInv n M ->
  managerInv n (set_segments (<[id := s]> (segments M)) M).
Proof.
  intros Hid Hs HM id' s'. simpl. rewrite lookup_insert.
  case_decide; [by intros [= <-]; subst|apply HM].
Qed.

Lemma openSegment_inv n prev seg normal master id numReplicas maxBytes M M' :
  uint32 (appendedLength seg) -> uint32 maxBytes ->
  managerInv n M ->
  openSegment prev seg normal master id numReplicas maxBytes M = Ok M' ->
  managerInv n M'.
Proof.
  intros Hseg Hmax HM H. unfold openSegment in H.
  pose proof (segInv_new n seg normal master id numReplicas maxBytes
                Hseg Hmax) as Hnew.
  destruct prev as [p|].
  - destruct (segments M !! p); [|done]. injection H as <-.
    apply (managerInv_insert n id _
             (modifySegment p (set_followingSegment (Some id)) M)).
    + done.
    + by apply (segInv_flags n
                  (ReplicatedSegment_new seg normal master id numReplicas
                     maxBytes)).
    + by apply managerInv_flags.
  - injection H as <-. by apply managerInv_insert.
Qed.

Lemma append_inv n id s seg M :
  segments M !! id = Some s ->
  Progress.close (queued s) = false ->
  appendedLength (segment s) <= appendedLength seg < 2 ^ 32 ->
  managerInv n M -> managerInv n (append id seg M).
Proof.
  intros Hs Hclose Hlen HM id' s'. unfold append. simpl.
  rewrite lookup_alter.
  destruct (decide (id = id')) as [<-|Hne]; [|apply HM].
  rewrite Hs. intros [= <-]. destruct (HM id s Hs) as [Hid []].
  split; [done|].
  constructor; simpl; try done; try lia; try congruence.
  eapply Forall_impl; [exact inv_replicas0|].
  intros r Hr. apply (repInv_queued s); simpl; auto; try lia.
Qed.

Lemma close_inv n id M M' :
  managerInv n M -> close id M = Ok M' -> managerInv n M'.
Proof.
  intros HM H. unfold close in H.
  destruct (segments M !! id) as [s|] eqn:Hs; [|done].
  destruct (Progress.close (queued s)) eqn:Hclose; [done|].
  injection H as <-.
  intros id' s'. simpl. rewrite lookup_alter.
  destruct (decide (id = id')) as [<-|Hne]; [|apply HM].
  rewrite Hs. intros [= <-]. destruct (HM id s Hs) as [Hid Hinv].
  rewrite segmentId_schedule. split; [done|].
  apply segInv_schedule. pose proof Hinv as [].
  eapply (segInv_requeue n n s); simpl; try done; try lia; try congruence.
Qed.

Lemma syncRefresh_inv n id M :
  managerInv n M -> managerInv n (syncRefresh id M).
Proof.
  intros HM id' s'. unfold syncRefresh. simpl. rewrite lookup_alter.
  destruct (decide (id = id')) as [<-|Hne]; [|apply HM].
  destruct (segments M !! id) as [s|] eqn:Hs; [|done].
  intros [= <-]. destruct (HM id s Hs) as [Hid Hinv].
  destruct (Z.gtb_spec (appendedLength (segment s))
              (Progress.bytes (queued s))) as [Hgt|Hle]; [|done].
  rewrite segmentId_schedule. split; [done|].
  apply segInv_schedule. pose proof Hinv as [].
  eapply (segInv_requeue n n s); simpl; try done; try lia.
  intros Hc. specialize (inv_closed0 Hc). lia.
Qed.

Lemma free_locked_inv n id M M' :
  managerInv n M -> free_locked id M = Ok M' -> managerInv n M'.
Proof.
  intros HM H. unfold free_locked in H.
  destruct (segments M !! id) as [s|] eqn:Hs; [|done].
  repeat match type of H with
         | (if ?c then _ else _) = _ => destruct c; [done|]
         end.
  injection H as <-. apply managerInv_schedule.
  apply managerInv_modifySegment; [|done].
  intros s0 Hs0. split; [done|].
  apply (segInv_icore n s0 _ (fun _ => True)); [done|done|].
  simpl. apply Forall_fmap. eapply Forall_impl; [apply Hs0|].
  intros r Hr. simpl. apply (repInv_icore s0); [done|].
  by apply repInv_cancelWrite.
Qed.

Lemma handleBackupFailure_seg_inv n failedId s :
  (Z.of_nat (S n) < 2 ^ 64) -> segInv n s ->
  segmentId (handleBackupFailure_seg failedId s) = segmentId s
  /\ segInv (S n) (handleBackupFailure_seg failedId s).
Proof.
  intros Hn Hs. unfold handleBackupFailure_seg.
  rewrite handleBackupFailure_loop_spec. simpl.
  set (rs := map _ (replicas s)).
  assert (forall s1,
            icore s1 = icore s -> replicas s1 = rs -> segInv n s1) as Hrs.
  { intros s1 Hi Hr. apply (segInv_icore n s s1 (fun _ => True) Hi Hs).
    rewrite Hr. subst rs. apply Forall_fmap.
    eapply Forall_impl; [apply Hs|]. intros r Hr'. simpl.
    apply (repInv_icore s); [done|].
    destruct (lostReplica failedId r); [|done].
    by apply (repInv_failed n). }
  assert (forall s1,
            icore s1 = icore s -> replicas s1 = rs ->
            segmentId
              (set_recoveringFromLostOpenReplicas true
                 (set_queued
                    (Progress.set_epoch
                       (wrap64 (Progress.epoch (queued s1) + 1)) (queued s1))
                    s1)) = segmentId s
            /\ segInv (S n)
                 (set_recoveringFromLostOpenReplicas true
                    (set_queued
                       (Progress.set_epoch
                          (wrap64 (Progress.epoch (queued s1) + 1))
                          (queued s1)) s1))) as Hbump.
  { intros s1 Hi Hr. pose proof (Hrs s1 Hi Hr) as Hs1.
    split; [simpl; by apply icore_segmentId|].
    pose proof Hs1 as [].
    rewrite wrap64_succ by lia.
    eapply (segInv_requeue n (S n) s1); simpl; try done; try lia. }
  destruct (existsb (lostOpenReplica failedId) (replicas s));
    destruct (existsb (lostReplica failedId) (replicas s)); simpl.
  - apply (Hbump (schedule_seg (set_replicas rs s)));
      [|by rewrite schedule_seg_replicas].
    by rewrite schedule_seg_icore.
  - by apply (Hbump (set_replicas rs s)).
  - rewrite segmentId_schedule. split; [done|].
    by apply segInv_mono, segInv_schedule, Hrs.
  - split; [done|]. by apply segInv_mono, Hrs.
Qed.

Lemma step_inv n M M' :
  Z.of_nat (S n) < 2 ^ 64 ->
  managerInv n M -> step M M' -> managerInv (S n) M'.
Proof.
  intros Hn HM Hstep.
  destruct Hstep.
  - by eapply managerInv_mono, openSegment_inv.
  - by eapply managerInv_mono, append_inv.
  - by eapply managerInv_mono, close_inv.
  - by apply managerInv_mono, syncRefresh_inv.
  - by eapply managerInv_mono, free_locked_inv.
  - apply managerInv_modifySegment_step; [|done].
    intros s _ Hs. by apply handleBackupFailure_seg_inv.
  - intros id s'. simpl. rewrite lookup_fmap.
    destruct (segments M !! id) as [s|] eqn:Hs; [|done].
    intros [= <-]. destruct (HM id s Hs) as [Hid Hinv].
    destruct (handleBackupFailure_seg_inv n failedId s Hn Hinv).
    split; [congruence|done].
  - by eapply managerInv_mono, taskQueue_performTask_inv.
  - by apply managerInv_mono, (managerInv_same_segments n M).
Qed.

Lemma reachable_inv n M :
  reachable n M -> Z.of_nat n < 2 ^ 64 -> managerInv n M.
Proof.
  induction 1 as [|n M M' Hreach IH Hstep]; intros Hn.
  - intros id s Hs. simpl in Hs. by rewrite lookup_empty in Hs.
  - apply (step_inv n M); [done| |done]. apply IH. lia.
Qed.

(** C5.  In every state the master reaches by opening segments,
    appending to them, and by [close()], [sync()], [free()],
    [handleBackupFailure()] and [performTask()] steps with any RPC
    outcome and any choice of backups, every replica of every segment
    satisfies [committed <= acked <= sent <= queued], field by field on
    open, bytes, epoch and close.  The number of steps is below [2^64],
    so that the 64-bit epoch counter has not wrapped around. *)
Theorem C5_progress_order n M id s r :
  reachable n M -> Z.of_nat n < 2 ^ 64 ->
  segments M !! id = Some s -> r ∈ replicas s ->
  Progress.le (Replica.committed r) (Replica.acked r)
  /\ Progress.le (Replica.acked r) (Replica.sent r)
  /\ Progress.le (Replica.sent r) (queued s).
Proof.
  intros Hreach Hn Hs Hr.
  destruct (reachable_inv n M Hreach Hn id s Hs) as [_ Hinv].
  destruct Hinv. rewrite Forall_forall in inv_replicas0.
  destruct (inv_replicas0 r Hr). done.
Qed.

(** *** C7: no write once the free is queued *)

(** Segments are filed under their own id. *)
Definition keysOk (M : ReplicaManager) : Prop :=
  forall id s, segments M !! id = Some s -> segmentId s = id.

(** The free of segment [id] is queued, or the segment is gone for
    good. *)
Definition freed (id : Z) (M : ReplicaManager) : Prop :=
  (exists s, segments M !! id = Some s /\ freeQueued s = true)
  \/ (segments M !! id = None /\ Destroyed id ∈ trace M).

(** What no operation on an existing segment changes: its id, and that
    its free is queued. *)
Definition keeps (s s' : ReplicatedSegment) : Prop :=
  segmentId s' = segmentId s /\ (freeQueued s = true -> freeQueued s' = true).

Lemma keeps_refl s : keeps s s.
Proof. by split. Qed.

Lemma keeps_core s s' : core s' = core s -> keeps s s'.
Proof.
  intros Hc. split; [by apply core_segmentId|].
  by rewrite (core_freeQueued _ _ Hc).
Qed.

(** A step that changes segments in place and leaves the trace alone. *)
Lemma quiet_step M M' :
  trace M' = trace M ->
  (forall id, option_Forall2 keeps (segments M !! id) (segments M' !! id)) ->
  keysOk M ->
  keysOk M'
  /\ exists events,
       trace M' = trace M ++ events
       /\ forall id, freed id M ->
                     freed id M'
                     /\ forall w, WriteIssued w ∈ events ->
                                  w_segmentId w <> id.
Proof.
  intros Ht Hk HM. split.
  - intros id s' Hs'. specialize (Hk id). rewrite Hs' in Hk.
    inversion Hk as [s ? [Hid _] E|]; subst. symmetry in E.
    rewrite Hid. by apply HM.
  - exists []. rewrite app_nil_r. split; [done|].
    intros id Hfreed. split; [|by intros w ?%elem_of_nil].
    specialize (Hk id). destruct Hfreed as [(s & Hs & Hfq)|[Hs Hd]].
    + rewrite Hs in Hk. inversion Hk as [? s' [_ Hfq'] E1 E2|]; subst.
      left. exists s'. split; [done|]. auto.
    + rewrite Hs in Hk. inversion Hk. right. by rewrite Ht.
Qed.

Lemma quiet_modifySegment id h M :
  (forall s, segments M !! id = Some s -> keeps s (h s)) ->
  forall id',
    option_Forall2 keeps (segments M !! id')
      (segments (modifySegment id h M) !! id').
Proof.
  intros Hh id'. simpl. rewrite lookup_alter.
  destruct (decide (id = id')) as [<-|Hne].
  - destruct (segments M !! id) as [s|] eqn:Hs; constructor. by apply Hh.
  - destruct (segments M !! id'); constructor. apply keeps_refl.
Qed.

Lemma handleBackupFailure_seg_keeps failedId s :
  keeps s (handleBackupFailure_seg failedId s).
Proof.
  unfold handleBackupFailure_seg.
  destruct (handleBackupFailure_loop _ _ _ _) as [[rs lost] sched].
  unfold keeps.
  destruct (schedule_seg_fields (set_replicas rs s))
    as (_ & Hid & _ & _ & Hfq).
  destruct lost, sched; simpl; rewrite ?Hid, ?Hfq; done.
Qed.

Lemma recover_keeps id M : forall id',
  option_Forall2 keeps (segments M !! id')
    (segments (recoverFromLostOpenReplicas id M) !! id').
Proof.
  unfold recoverFromLostOpenReplicas.
  assert (forall id', option_Forall2 keeps (segments M !! id')
                        (segments M !! id')) as Hrefl.
  { intros id'. destruct (segments M !! id'); constructor.
    apply keeps_refl. }
  destruct (segments M !! id) as [s|] eqn:Hs; [|done].
  destruct (recoveringFromLostOpenReplicas s); [|done].
  destruct (Progress.eqb (getCommitted s) (queued s));
    [destruct (isAtLeast _ _ _)|].
  - apply quiet_modifySegment. intros s0 _. by split.
  - intros id'.
    apply (quiet_modifySegment id schedule_seg
             (set_replicationEpoch
                (updateToAtLeast (segmentId s) (Progress.epoch (queued s))
                   (replicationEpoch M)) M)).
    intros s0 _. apply keeps_core, schedule_seg_core.
  - apply quiet_modifySegment. intros s0 _.
    apply keeps_core, schedule_seg_core.
Qed.

Lemma recover_trace id M :
  trace (recoverFromLostOpenReplicas id M) = trace M.
Proof.
  unfold recoverFromLostOpenReplicas.
  repeat match goal with
         | |- context [match ?x with _ => _ end] => destruct x
         end; done.
Qed.

Lemma loopKeeps_keeps K M M' :
  loopKeeps K M M' ->
  forall id, option_Forall2 keeps (segments M !! id) (segments M' !! id).
Proof.
  intros (Hc & _) id. specialize (Hc id).
  destruct Hc; constructor. by apply keeps_core.
Qed.

(** What [performTask] on segment [id0] does to the segments and which
    events it leaves. *)
Lemma performTask_effect id0 env M M' s0 :
  segments M !! id0 = Some s0 ->
  performTask id0 env M = Ok M' ->
  exists events,
    trace M' = trace M ++ events
    /\ (forall id', id' <> id0 ->
          option_Forall2 keeps (segments M !! id') (segments M' !! id'))
    /\ ((exists s', segments M' !! id0 = Some s' /\ keeps s0 s')
        \/ (segments M' !! id0 = None /\ Destroyed id0 ∈ events
            /\ freeQueued s0 = true))
    /\ (if freeQueued s0
        then Forall (fun e => isFreeFor (segmentId s0) e \/ e = Destroyed id0)
               events
        else Forall (isWriteFor (segmentId s0)) events).
Proof.
  intros Hs0 H. unfold performTask in H. rewrite Hs0 in H.
  assert (forall K M1,
            loopKeeps K M M1 ->
            exists events s1,
              trace (recoverFromLostOpenReplicas id0 M1) = trace M ++ events
              /\ Forall K events
              /\ (forall id',
                    option_Forall2 keeps (segments M !! id')
                      (segments (recoverFromLostOpenReplicas id0 M1) !! id'))
              /\ segments (recoverFromLostOpenReplicas id0 M1) !! id0
                 = Some s1
              /\ keeps s0 s1) as Hkept.
  { intros K M1 HK. pose proof (loopKeeps_keeps _ _ _ HK) as Hk.
    destruct HK as (_ & _ & events & Ht & HKev).
    assert (forall id',
              option_Forall2 keeps (segments M !! id')
                (segments (recoverFromLostOpenReplicas id0 M1) !! id'))
      as Hall.
    { intros id'. specialize (Hk id').
      pose proof (recover_keeps id0 M1 id') as Hr.
      destruct Hk as [s s1 [Hi Hf]|];
        inversion Hr as [? s2 [Hi' Hf']|]; subst; constructor.
      split; [congruence|auto]. }
    pose proof (Hall id0) as Hid0. rewrite Hs0 in Hid0.
    inversion Hid0 as [? s1 Hk1 E1 E2|]; subst.
    exists events, s1. rewrite recover_trace. done. }
  destruct (freeQueued s0) eqn:Hfq; simpl in H.
  - destruct (recoveringFromLostOpenReplicas s0) eqn:Hrec; simpl in H.
    + injection H as <-.
      destruct (Hkept (fun _ => False) M (loopKeeps_refl _ M))
        as (events & s1 & Ht & HK & Hall & Hs1 & Hk1).
      exists events. split; [done|]. split; [by intros id' _|].
      split; [left; eauto|].
      eapply Forall_impl; [exact HK|]. done.
    + destruct (foreachReplica _ _ _ _) as [M1|] eqn:Hloop; [|done].
      simpl in H.
      pose proof (performFree_loop id0 env M M s0 _ _ M1 Hs0
                    (loopKeeps_refl _ M) Hloop) as HK.
      destruct (segments M1 !! id0) as [s1|] eqn:Hs1; [|done].
      destruct (negb (scheduled s1)); simpl in H; injection H as <-.
      * (* everything freed: the segment is destroyed *)
        pose proof (loopKeeps_keeps _ _ _ HK) as Hk.
        destruct HK as (_ & _ & events & Ht & HKev).
        exists (events ++ [Destroyed id0]).
        rewrite recover_trace. simpl. rewrite Ht, app_assoc.
        split; [done|].
        assert (segments (recoverFromLostOpenReplicas id0 (destroy id0 M1))
                = delete id0 (segments M1)) as Hseg.
        { unfold recoverFromLostOpenReplicas. simpl.
          by rewrite lookup_delete_eq. }
        rewrite Hseg. split; [|split].
        -- intros id' Hne. rewrite lookup_delete_ne by done. apply Hk.
        -- right. rewrite lookup_delete_eq. split; [done|].
           split; [|done]. apply elem_of_app. right.
           by apply list_elem_of_singleton.
        -- apply Forall_app. split.
           ++ eapply Forall_impl; [exact HKev|]. by left.
           ++ apply Forall_singleton. by right.
      * destruct (Hkept _ M1 HK)
          as (events & s2 & Ht & HKev & Hall & Hs2 & Hk2).
        exists events. split; [done|]. split; [by intros id' _|].
        split; [left; eauto|].
        eapply Forall_impl; [exact HKev|]. by left.
  - destruct (foreachReplica _ _ _ _) as [M1|] eqn:Hloop; [|done].
    simpl in H. injection H as <-.
    pose proof (performWrite_loop id0 env M M s0 _ _ M1 Hs0
                  (loopKeeps_refl _ M) Hloop) as HK.
    destruct (Hkept _ M1 HK) as (events & s2 & Ht & HKev & Hall & Hs2 & Hk2).
    exists events. split; [done|]. split; [by intros id' _|].
    split; [left; eauto|done].
Qed.

Lemma step_freed M M' :
  keysOk M -> step M M' ->
  keysOk M'
  /\ exists events,
       trace M' = trace M ++ events
       /\ forall id, freed id M ->
                     freed id M'
                     /\ forall w, WriteIssued w ∈ events ->
                                  w_segmentId w <> id.
Proof.
  intros HM Hstep. destruct Hstep as
    [M M' prev seg normal master id0 numReplicas maxBytes Hnone Hfresh _ _ H
    |M id0 s seg Hs Hclose Hlen
    |M M' id0 H
    |M id0
    |M M' id0 H
    |M failedId id0
    |M failedId
    |M M' id0 env H
    |M id0].
  - (* openSegment *)
    unfold openSegment in H.
    assert (exists new h,
              segmentId new = id0
              /\ (forall s, keeps s (h s))
              /\ trace M' = trace M
              /\ forall id,
                   segments M' !! id
                   = if decide (id0 = id) then Some new
                     else h <$> segments M !! id)
      as (new & h & Hnew & Hh & Ht & Hseg).
    { destruct prev as [p|].
      - destruct (segments M !! p) as [ps|]; [|done]. injection H as <-.
        exists (set_precedingSegmentOpenCommitted
                  (Progress.open (getCommitted ps))
                  (set_precedingSegmentCloseCommitted
                     (Progress.close (getCommitted ps))
                     (ReplicatedSegment_new seg normal master id0
                        numReplicas maxBytes))),
          (fun s => if decide (segmentId s = p)
                    then set_followingSegment (Some id0) s else s).
        split; [done|]. split; [|split; [done|]].
        + intros s. case_decide; by split.
        + intros id. simpl. rewrite lookup_insert.
          case_decide; [done|]. rewrite lookup_alter.
          destruct (decide (p = id)) as [<-|Hne].
          * destruct (segments M !! p) as [s|] eqn:Hs; [|done]. simpl.
            by rewrite decide_True by by apply HM.
          * destruct (segments M !! id) as [s|] eqn:Hs; [|done]. simpl.
            rewrite decide_False; [done|].
            rewrite (HM id s Hs). done.
      - injection H as <-.
        exists (ReplicatedSegment_new seg normal master id0 numReplicas
                  maxBytes), (fun s => s).
        split; [done|]. split; [intros s; apply keeps_refl|].
        split; [done|]. intros id. simpl. rewrite lookup_insert.
        case_decide; [done|]. by destruct (segments M !! id). }
    split.
    + intros id s'. rewrite Hseg. case_decide; [by intros [= <-]; subst|].
      destruct (segments M !! id) as [s|] eqn:Hs; [|done].
      intros [= <-]. destruct (Hh s) as [-> _]. by apply HM.
    + exists []. rewrite app_nil_r. split; [done|].
      intros id Hfreed. split; [|by intros w ?%elem_of_nil].
      destruct Hfreed as [(s & Hs & Hfq)|[Hs Hd]].
      * left. exists (h s). rewrite Hseg.
        rewrite decide_False by congruence. rewrite Hs.
        split; [done|]. by apply Hh.
      * right. rewrite Hseg, Ht.
        rewrite decide_False; [by rewrite Hs|].
        intros <-. by apply (Hfresh _ Hd).
  - apply quiet_step; [done| |done]. apply quiet_modifySegment.
    intros s0 _. by split.
  - unfold close in H. destruct (segments M !! id0) as [s|]; [|done].
    destruct (Progress.close (queued s)); [done|]. injection H as <-.
    apply quiet_step; [done| |done]. apply quiet_modifySegment.
    intros s0 _. unfold keeps.
    destruct (schedule_seg_fields
                (set_queuedCertificate (appendedCertificate (segment s0))
                   (set_queued
                      (Progress.set_bytes (appendedLength (segment s0))
                         (Progress.set_close true (queued s0))) s0)))
      as (_ & -> & _ & _ & ->). done.
  - apply quiet_step; [done| |done]. apply quiet_modifySegment.
    intros s0 _. destruct (_ >? _); [|apply keeps_refl]. unfold keeps.
    destruct (schedule_seg_fields
                (set_queuedCertificate (appendedCertificate (segment s0))
                   (set_queued
                      (Progress.set_bytes (appendedLength (segment s0))
                         (queued s0)) s0)))
      as (_ & -> & _ & _ & ->). done.
  - unfold free_locked in H. destruct (segments M !! id0) as [s|]; [|done].
    repeat match type of H with
           | (if ?c then _ else _) = _ => destruct c; [done|]
           end.
    injection H as <-.
    apply quiet_step; [done| |done]. intros id.
    pose proof (quiet_modifySegment id0
                  (fun s => schedule_seg
                              (set_freeQueued true
                                 (set_replicas (map cancelWrite (replicas s))
                                    s))) M) as Hq.
    unfold schedule, modifySegment in *. simpl in *.
    rewrite alter_alter_eq. apply Hq.
    intros s0 _. unfold keeps.
    destruct (schedule_seg_fields
                (set_freeQueued true
                   (set_replicas (map cancelWrite (replicas s0)) s0)))
      as (_ & -> & _ & _ & ->). done.
  - apply quiet_step; [done| |done]. apply quiet_modifySegment.
    intros s0 _. apply handleBackupFailure_seg_keeps.
  - apply quiet_step; [done| |done]. intros id. simpl.
    rewrite lookup_fmap. destruct (segments M !! id); constructor.
    apply handleBackupFailure_seg_keeps.
  - (* the task queue runs segment [id0] *)
    unfold taskQueue_performTask in H.
    destruct (segments M !! id0) as [s0|] eqn:Hs0; [|done].
    destruct (scheduled s0).
    2:{ injection H as <-. apply quiet_step; [done| |done].
        intros id. destruct (segments M !! id); constructor.
        apply keeps_refl. }
    remember (modifySegment id0 (set_scheduled false) M) as M0 eqn:HeqM0.
    assert (forall id,
              option_Forall2 keeps (segments M !! id) (segments M0 !! id))
      as HM0.
    { rewrite HeqM0. apply quiet_modifySegment. intros s _. by split. }
    assert (segments M0 !! id0 = Some (set_scheduled false s0)) as Hs0'.
    { rewrite HeqM0. simpl. by rewrite lookup_alter_eq, Hs0. }
    assert (trace M0 = trace M) as Ht0 by by rewrite HeqM0.
    clear HeqM0.
    destruct (performTask_effect id0 env M0 M' _ Hs0' H)
      as (events & Ht & Hother & Hthis & Hev).
    rewrite Ht0 in Ht.
    assert (forall id s, segments M !! id = Some s ->
                         (exists s', segments M' !! id = Some s'
                                     /\ keeps s s')
                         \/ (id = id0 /\ segments M' !! id0 = None
                             /\ Destroyed id0 ∈ events
                             /\ freeQueued s0 = true)) as Hafter.
    { intros id s Hs. destruct (decide (id = id0)) as [->|Hne].
      - assert (s = s0) as -> by congruence.
        destruct Hthis as [(s' & Hs' & Hk)|(? & ? & ?)]; [left|right; done].
        exists s'. split; [done|]. destruct Hk. by split.
      - left. specialize (Hother id Hne). specialize (HM0 id).
        rewrite Hs in HM0. inversion HM0 as [? s1 [? ?] E1 E2|]; subst.
        rewrite <- E2 in Hother.
        inversion Hother as [? s2 [? ?] E3 E4|]; subst.
        exists s2. split; [done|]. split; [congruence|auto]. }
    assert (forall id, segments M !! id = None ->
                       segments M' !! id = None) as Hnone.
    { intros id Hs. assert (id <> id0) as Hne by congruence.
      specialize (Hother id Hne). specialize (HM0 id).
      rewrite Hs in HM0. inversion HM0 as [|E1 E2].
      rewrite <- E2 in Hother. by inversion Hother. }
    split.
    + intros id s' Hs'.
      destruct (segments M !! id) as [s|] eqn:Hs;
        [|by rewrite (Hnone id Hs) in Hs'].
      destruct (Hafter id s Hs) as [(s1 & Hs1 & Hid & _)|(-> & ? & _)];
        [|congruence].
      assert (s1 = s') as -> by congruence. rewrite Hid. by apply HM.
    + exists events. split; [done|].
      intros id Hfreed. split.
      * destruct Hfreed as [(s & Hs & Hfq)|[Hs Hd]].
        -- destruct (Hafter id s Hs)
             as [(s1 & Hs1 & _ & Hfq1)|(-> & Hgone & Hd & _)].
           ++ left. eauto.
           ++ right. split; [done|]. rewrite Ht. apply elem_of_app. by right.
        -- right. split; [by apply Hnone|].
           rewrite Ht. apply elem_of_app. by left.
      * intros w Hw Heq.
        assert (freeQueued s0 = false /\ segmentId s0 = w_segmentId w)
          as [Hfq0 Hid0].
        { simpl in Hev. destruct (freeQueued s0).
          - rewrite Forall_forall in Hev.
            destruct (Hev _ Hw) as [(f & [=] & _)|[=]].
          - rewrite Forall_forall in Hev.
            destruct (Hev _ Hw) as (w' & [= <-] & Hid). done. }
        pose proof (HM id0 s0 Hs0) as Hkey.
        destruct Hfreed as [(s & Hs & Hfq)|[Hs Hd]]; congruence.
  - apply quiet_step; [done| |done].
    intros id. simpl. destruct (segments M !! id); constructor.
    apply keeps_refl.
Qed.

Lemma steps_freed k M M' :
  steps k M M' -> keysOk M ->
  keysOk M'
  /\ exists events,
       trace M' = trace M ++ events
       /\ forall id, freed id M ->
                     freed id M'
                     /\ forall w, WriteIssued w ∈ events ->
                                  w_segmentId w <> id.
Proof.
  induction 1 as [M|k M M1 M' Hsteps IH Hstep]; intros HM.
  - split; [done|]. exists []. rewrite app_nil_r. split; [done|].
    intros id Hf. split; [done|]. by intros w ?%elem_of_nil.
  - destruct (IH HM) as (HM1 & events1 & Ht1 & H1).
    destruct (step_freed M1 M' HM1 Hstep) as (HM' & events2 & Ht2 & H2).
    split; [done|]. exists (events1 ++ events2).
    split; [by rewrite Ht2, Ht1, app_assoc|].
    intros id Hf. destruct (H1 id Hf) as [Hf1 Hw1].
    destruct (H2 id Hf1) as [Hf2 Hw2]. split; [done|].
    intros w [?|?]%elem_of_app; auto.
Qed.

Lemma reachable_keysOk n M : reachable n M -> keysOk M.
Proof.
  induction 1 as [|n M M' Hreach IH Hstep].
  - intros id s Hs. simpl in Hs. by rewrite lookup_empty in Hs.
  - by destruct (step_freed M M' IH Hstep).
Qed.

(** C7.  Under its lock, [free()] cancels the outstanding write RPC of
    every active replica and then sets [freeQueued] (in a reachable state
    no other replica has an RPC).  A [performTask] that finds [freeQueued]
    set constructs no write RPC: its events are free RPCs for the segment,
    or its destruction.  And from a reachable state on in which
    [freeQueued] is set, whatever steps the master takes, no write RPC is
    ever issued again for the segment. *)
Theorem C7_no_write_after_free n M id s :
  reachable n M -> segments M !! id = Some s ->
  (forall M', free_locked id M = Ok M' ->
     exists s', segments M' !! id = Some s' /\ freeQueued s' = true
                /\ replicas s' = map cancelWrite (replicas s)
                /\ forall r w, r ∈ replicas s' ->
                               Replica.isActive r = true ->
                               Replica.writeRpc r = Some w ->
                               w_cancelled w = true)
  /\ (Z.of_nat n < 2 ^ 64 ->
      forall r, r ∈ replicas s -> Replica.isActive r = false ->
                Replica.writeRpc r = None)
  /\ (freeQueued s = true ->
      forall env M', performTask id env M = Ok M' ->
        exists events,
          trace M' = trace M ++ events
          /\ Forall (fun e => isFreeFor id e \/ e = Destroyed id) events)
  /\ (freeQueued s = true ->
      forall k M', steps k M M' ->
        exists events,
          trace M' = trace M ++ events
          /\ forall w, WriteIssued w ∈ events -> w_segmentId w <> id).
Proof.
  intros Hreach Hs. pose proof (reachable_keysOk n M Hreach) as HM.
  split; [|split; [|split]].
  - intros M' H. unfold free_locked in H. rewrite Hs in H.
    repeat match type of H with
           | (if ?c then _ else _) = _ => destruct c; [done|]
           end.
    injection H as <-. eexists. simpl.
    rewrite lookup_alter_eq, lookup_alter_eq, Hs. simpl.
    split; [done|].
    destruct (schedule_seg_fields
                (set_freeQueued true
                   (set_replicas (map cancelWrite (replicas s)) s)))
      as (_ & _ & _ & _ & ->).
    rewrite schedule_seg_replicas. simpl.
    split; [done|]. split; [done|].
    intros r w [r0 [-> Hr0]]%list_elem_of_fmap. unfold cancelWrite.
    destruct (Replica.isActive r0) eqn:Hact; simpl; [|congruence].
    destruct (Replica.writeRpc r0) eqn:Hw0; simpl; [|congruence].
    by intros _ [= <-].
  - intros Hn r Hr Hact.
    destruct (reachable_inv n M Hreach Hn id s Hs) as [_ []].
    rewrite Forall_forall in inv_replicas0.
    destruct (inv_replicas0 r Hr).
    by destruct (inv_inactive0 Hact) as (_ & _ & _ & ? & _).
  - intros Hfq env M' H.
    destruct (performTask_effect id env M M' s Hs H)
      as (events & Ht & _ & _ & Hev).
    rewrite Hfq, (HM id s Hs) in Hev. eauto.
  - intros Hfq k M' Hsteps.
    destruct (steps_freed k M M' Hsteps HM) as (_ & events & Ht & Hev).
    exists events. split; [done|]. apply Hev. left. eauto.
Qed.

(** *** sync and free are made of steps *)

Lemma steps_trans a b M M1 M2 :
  steps a M M1 -> steps b M1 M2 -> steps (a + b) M M2.
Proof.
  intros H1 H2. induction H2 as [|b M1 M2 M3 H2 IH Hstep].
  - by rewrite Nat.add_0_r.
  - rewrite Nat.add_succ_r. eapply steps_step; eauto.
Qed.

Lemma reachable_steps n k M M' :
  reachable n M -> steps k M M' -> reachable (n + k) M'.
Proof.
  intros Hreach H. induction H as [|k M M1 M' H IH Hstep].
  - by rewrite Nat.add_0_r.
  - rewrite Nat.add_succ_r. eapply reachable_step; eauto.
Qed.

(** If each round of the loop is a run of steps, so is a [sync], whether
    it has returned or is still waiting. *)
Lemma sync_steps stepk id offset fuel M M' :
  (forall k M1 M2, stepk k M1 = Ok M2 -> exists m, steps m M1 M2) ->
  sync stepk id offset fuel M = Returned M'
  \/ sync stepk id offset fuel M = StillWaiting M' ->
  exists m, steps m M M'.
Proof.
  intros Hstepk. unfold sync.
  destruct (segments M !! id) as [s|]; [|by intros [|]].
  destruct (syncReturns s offset).
  { intros [[= <-]|[=]]. exists O. constructor. }
  assert (forall fuel k M1,
            sync_loop stepk id offset k fuel M1 = Returned M'
            \/ sync_loop stepk id offset k fuel M1 = StillWaiting M' ->
            exists m, steps m M1 M') as Hloop.
  { clear fuel. induction fuel as [|fuel IH]; intros k M1; simpl.
    - intros [[=]|[= <-]]. exists O. constructor.
    - destruct (stepk k M1) as [M2|] eqn:Hk; [|by intros [|]].
      destruct (Hstepk k M1 M2 Hk) as [m1 Hm1].
      destruct (segments M2 !! id) as [s2|]; [|by intros [|]].
      destruct (syncReturns s2 offset).
      + intros [[= <-]|[=]]. eauto.
      + intros H. destruct (IH _ _ H) as [m2 Hm2].
        exists (m1 + m2)%nat. by eapply steps_trans. }
  intros H. destruct (Hloop _ _ _ H) as [m Hm].
  exists (1 + m)%nat. eapply steps_trans; [|exact Hm].
  eapply steps_step; [constructor|apply step_syncRefresh].
Qed.

(** And so is a [free] that has returned. *)
Lemma free_steps stepk gap id fuel M M' :
  (forall k M1 M2, stepk k M1 = Ok M2 -> exists m, steps m M1 M2) ->
  (forall M1 M2, gap M1 = Ok M2 -> exists m, steps m M1 M2) ->
  free stepk gap id fuel M = Returned M' ->
  exists m, steps m M M'.
Proof.
  intros Hstepk Hgap. unfold free.
  destruct (sync stepk id NO_OFFSET fuel M) as [M1| |] eqn:Hsync; [|done..].
  destruct (sync_steps stepk id NO_OFFSET fuel M M1 Hstepk (or_introl Hsync))
    as [m1 Hm1].
  destruct (gap M1) as [M2|] eqn:Hg; [|done]. simpl.
  destruct (Hgap M1 M2 Hg) as [m2 Hm2].
  destruct (free_locked id M2) as [M3|] eqn:Hfree; [|done].
  intros [= <-]. exists (m1 + m2 + 1)%nat.
  eapply steps_trans; [by eapply steps_trans|].
  eapply steps_step; [constructor|by eapply step_free].
Qed.

(** ** More about handleBackupFailure *)

(** Nothing is lost on [failedId]: the segment stays as it is. *)
Lemma handleBackupFailure_seg_untouched failedId s :
  existsb (lostReplica failedId) (replicas s) = false ->
  handleBackupFailure_seg failedId s = s.
Proof.
  intros Hnone. unfold handleBackupFailure_seg.
  rewrite handleBackupFailure_loop_spec, Hnone. simpl.
  assert (existsb (lostOpenReplica failedId) (replicas s) = false) as ->.
  { apply not_true_is_false. intros (r & Hr & Hlost)%existsb_exists.
    apply not_true_iff_false in Hnone. apply Hnone.
    apply existsb_exists. exists r. split; [done|].
    unfold lostOpenReplica in Hlost.
    by apply andb_true_iff in Hlost as [[? _]%andb_true_iff _]. }
  assert (map (fun r => if lostReplica failedId r then Replica.failed r
                        else r) (replicas s) = replicas s) as ->.
  { rewrite <- (map_id (replicas s)) at 2. apply map_ext_in.
    intros r Hr. destruct (lostReplica failedId r) eqn:Hlost; [|done].
    apply not_true_iff_false in Hnone. destruct Hnone.
    apply existsb_exists. eauto. }
  by destruct s.
Qed.

(** After the call no replica is left on [failedId]. *)
Lemma handleBackupFailure_seg_none_left failedId s :
  existsb (lostReplica failedId)
    (replicas (handleBackupFailure_seg failedId s)) = false.
Proof.
  assert (replicas (handleBackupFailure_seg failedId s)
          = map (fun r => if lostReplica failedId r then Replica.failed r
                          else r) (replicas s)) as ->.
  { unfold handleBackupFailure_seg.
    rewrite handleBackupFailure_loop_spec. simpl.
    destruct (existsb (lostOpenReplica failedId) (replicas s)),
      (existsb (lostReplica failedId) (replicas s)); simpl;
      by rewrite ?schedule_seg_replicas. }
  apply not_true_is_false. intros (r' & Hr' & Hlost)%existsb_exists.
  apply in_map_iff in Hr' as (r & <- & _).
  destruct (lostReplica failedId r) eqn:Hr; [done|congruence].
Qed.

(** X1.  A backup failure that is reported again changes nothing any
    more: the replicas it cost are gone, the epoch is not raised a second
    time. *)
Theorem handleBackupFailure_idempotent failedId id M :
  handleBackupFailure failedId id (handleBackupFailure failedId id M)
  = handleBackupFailure failedId id M.
Proof.
  assert (alter (handleBackupFailure_seg failedId) id
            (alter (handleBackupFailure_seg failedId) id (segments M))
          = alter (handleBackupFailure_seg failedId) id (segments M))
    as Hsame.
  { apply map_eq. intros id'.
    destruct (decide (id = id')) as [<-|Hne];
      [|by rewrite !lookup_alter_ne].
    rewrite !lookup_alter_eq.
    destruct (segments M !! id) as [s|]; [|done]. simpl. f_equal.
    apply handleBackupFailure_seg_untouched,
      handleBackupFailure_seg_none_left. }
  unfold handleBackupFailure, modifySegment. simpl. by rewrite Hsame.
Qed.

(** X2.  The failure of a backup that holds no replica of the segment
    leaves the whole state as it is: nothing is reset, the epoch stays,
    the segment is not even scheduled. The same holds when the segment
    does not exist. *)
Theorem handleBackupFailure_other_backup failedId id M :
  (forall s r, segments M !! id = Some s -> r ∈ replicas s ->
               Replica.isActive r = true ->
               Replica.backupId r <> failedId) ->
  handleBackupFailure failedId id M = M.
Proof.
  intros Hother.
  assert (alter (handleBackupFailure_seg failedId) id (segments M)
          = segments M) as Hsame.
  { apply map_eq. intros id'.
    destruct (decide (id = id')) as [<-|Hne];
      [|by rewrite lookup_alter_ne].
    rewrite lookup_alter_eq.
    destruct (segments M !! id) as [s|] eqn:Hs; [|done]. simpl. f_equal.
    apply handleBackupFailure_seg_untouched.
    apply not_true_is_false. intros (r & Hr & Hlost)%existsb_exists.
    unfold lostReplica in Hlost.
    apply andb_true_iff in Hlost as [Hact Hb%bool_decide_eq_true].
    apply (Hother s r); auto. by apply list_elem_of_In. }
  unfold handleBackupFailure, modifySegment. rewrite Hsame. by destruct M.
Qed.

(** *** Two backups fail *)

(** What [handleBackupFailure] makes of a replica. *)
Definition afterFailure (failedId : ServerId) (r : Replica) : Replica :=
  if lostReplica failedId r then Replica.failed r else r.

(** [handleBackupFailure] in one piece. *)
Lemma handleBackupFailure_seg_closed failedId s :
  handleBackupFailure_seg failedId s
  = mkReplicatedSegment (segment s) (normalLogSegment s) (masterId s)
      (segmentId s) (maxBytesPerWriteRpc s)
      (if existsb (lostOpenReplica failedId) (replicas s)
       then Progress.set_epoch (wrap64 (Progress.epoch (queued s) + 1))
              (queued s)
       else queued s)
      (queuedCertificate s) (openLen s) (openingWriteCertificate s)
      (freeQueued s) (followingSegment s)
      (precedingSegmentCloseCommitted s) (precedingSegmentOpenCommitted s)
      (recoveringFromLostOpenReplicas s
       || existsb (lostOpenReplica failedId) (replicas s))
      (map (afterFailure failedId) (replicas s))
      (scheduled s || existsb (lostReplica failedId) (replicas s)).
Proof.
  unfold handleBackupFailure_seg.
  rewrite handleBackupFailure_loop_spec. simpl.
  fold (afterFailure failedId).
  destruct (existsb (lostReplica failedId) (replicas s)) eqn:Hany.
  - assert (map (afterFailure failedId) (replicas s) <> []) as Hne.
    { destruct (replicas s); [done|]. done. }
    assert (forall s1,
              replicas s1 = map (afterFailure failedId) (replicas s) ->
              schedule_seg s1 = set_scheduled true s1) as Hsched.
    { intros s1 E. unfold schedule_seg. rewrite E.
      by destruct (map _ _). }
    rewrite Hsched by done.
    destruct (existsb (lostOpenReplica failedId) (replicas s));
      destruct s; simpl; by rewrite ?orb_true_r, ?orb_false_r.
  - assert (existsb (lostOpenReplica failedId) (replicas s) = false)
      as ->.
    { apply not_true_is_false.
      intros (r & Hr & Hlost)%existsb_exists.
      apply not_true_iff_false in Hany. apply Hany.
      apply existsb_exists. exists r. split; [done|].
      unfold lostOpenReplica in Hlost.
      by apply andb_true_iff in Hlost as [[? _]%andb_true_iff _]. }
    destruct s; simpl; by rewrite ?orb_false_r.
Qed.

(** A replica lost on one backup is none of the replicas on another. *)
Lemma lostReplica_afterFailure f1 f2 r :
  f1 <> f2 ->
  lostReplica f2 (afterFailure f1 r) = lostReplica f2 r
  /\ lostOpenReplica f2 (afterFailure f1 r) = lostOpenReplica f2 r.
Proof.
  intros Hne. unfold afterFailure, lostOpenReplica.
  destruct (lostReplica f1 r) eqn:H1; [|done].
  assert (lostReplica f2 r = false) as ->.
  { unfold lostReplica in *.
    apply andb_true_iff in H1 as [-> Hb%bool_decide_eq_true]. simpl.
    apply bool_decide_eq_false. congruence. }
  done.
Qed.

Lemma afterFailure_comm f1 f2 r :
  afterFailure f2 (afterFailure f1 r) = afterFailure f1 (afterFailure f2 r).
Proof.
  unfold afterFailure.
  destruct (lostReplica f1 r) eqn:H1, (lostReplica f2 r) eqn:H2;
    simpl; rewrite ?H1, ?H2; done.
Qed.

(** X3.  The failures of two backups may be handled in either order: the
    same replicas are reset, the epoch is raised as often, the same flags
    are set. *)
Theorem handleBackupFailure_commutes f1 f2 id M :
  handleBackupFailure f2 id (handleBackupFailure f1 id M)
  = handleBackupFailure f1 id (handleBackupFailure f2 id M).
Proof.
  destruct (decide (f1 = f2)) as [->|Hne]; [done|].
  assert (forall s,
            handleBackupFailure_seg f2 (handleBackupFailure_seg f1 s)
            = handleBackupFailure_seg f1 (handleBackupFailure_seg f2 s))
    as Hseg.
  { intros s.
    assert (forall fa fb, fa <> fb ->
              existsb (lostReplica fb) (map (afterFailure fa) (replicas s))
              = existsb (lostReplica fb) (replicas s)
              /\ existsb (lostOpenReplica fb)
                   (map (afterFailure fa) (replicas s))
                 = existsb (lostOpenReplica fb) (replicas s)) as Hex.
    { intros fa fb Hab.
      induction (replicas s) as [|r rs [IH1 IH2]]; simpl; [done|].
      destruct (lostReplica_afterFailure fa fb r Hab) as [-> ->].
      by rewrite IH1, IH2. }
    rewrite !handleBackupFailure_seg_closed. simpl.
    destruct (Hex f1 f2 Hne) as [-> ->].
    destruct (Hex f2 f1 (not_eq_sym Hne)) as [-> ->].
    rewrite !map_map.
    rewrite (map_ext _ _ (afterFailure_comm f1 f2)).
    destruct (existsb (lostOpenReplica f1) (replicas s)),
      (existsb (lostOpenReplica f2) (replicas s)),
      (existsb (lostReplica f1) (replicas s)),
      (existsb (lostReplica f2) (replicas s)),
      (recoveringFromLostOpenReplicas s), (scheduled s); simpl; done. }
  assert (alter (handleBackupFailure_seg f2) id
            (alter (handleBackupFailure_seg f1) id (segments M))
          = alter (handleBackupFailure_seg f1) id
              (alter (handleBackupFailure_seg f2) id (segments M)))
    as Hsame.
  { apply map_eq. intros id'.
    destruct (decide (id = id')) as [<-|Hid];
      [|by rewrite !lookup_alter_ne].
    rewrite !lookup_alter_eq.
    destruct (segments M !! id) as [s|]; [|done]. simpl. by rewrite Hseg. }
  unfold handleBackupFailure, modifySegment. simpl. by rewrite Hsame.
Qed.

(** ** More about performWrite *)

(** The replica as [performWrite] writes to it: started on the backup
    the selector offered when it was inactive. *)
Definition writeTarget (i : nat) (env : ReplicaEnv) (s : ReplicatedSegment)
    (r : Replica) : Replica :=
  if Replica.isActive r then r else Replica.start (selected i env s) r.

(** When [performWrite] constructs an RPC, which one and why. *)
Lemma afterWrite_issued id i env s M r e :
  e ∈ snd (afterWrite id i env s M r) ->
  snd (afterWrite id i env s M r) = [e]
  /\ Replica.writeRpc (writeTarget i env s r) = None
  /\ (Replica.isActive r = false -> isValid (selected i env s) = true)
  /\ writeRpcsInFlight M <> MAX_WRITE_RPCS_IN_FLIGHT
  /\ ((e = WriteIssued (openingWrite i s (writeTarget i env s r))
       /\ Progress.open (Replica.committed r) = false
       /\ precedingSegmentOpenCommitted s = true
       /\ fst (afterWrite id i env s M r)
          = Replica.set_sent
              (sentAfterOpen s (Replica.sent r))
              (Replica.set_writeRpc
                 (Some (openingWrite i s (writeTarget i env s r)))
                 (writeTarget i env s r)))
      \/ (e = WriteIssued (dataWrite i s (writeTarget i env s r))
          /\ Progress.open (Replica.committed r) = true
          /\ precedingSegmentCloseCommitted s = true
          /\ fst (afterWrite id i env s M r)
             = Replica.set_sent
                 (sentAfterWrite s (writeTarget i env s r)
                    (Replica.sent r))
                 (Replica.set_writeRpc
                    (Some (dataWrite i s (writeTarget i env s r)))
                    (writeTarget i env s r)))).
Proof.
  unfold afterWrite, writeTarget.
  assert (forall M1 r1,
            writeRpcsInFlight M1 = writeRpcsInFlight M ->
            e ∈ snd (afterActive i env s M1 r1) ->
            snd (afterActive i env s M1 r1) = [e]
            /\ Replica.writeRpc r1 = None
            /\ writeRpcsInFlight M <> MAX_WRITE_RPCS_IN_FLIGHT
            /\ ((e = WriteIssued (openingWrite i s r1)
                 /\ Progress.open (Replica.committed r1) = false
                 /\ precedingSegmentOpenCommitted s = true
                 /\ fst (afterActive i env s M1 r1)
                    = Replica.set_sent
                        (sentAfterOpen s (Replica.sent r1))
                        (Replica.set_writeRpc
                           (Some (openingWrite i s r1)) r1))
                \/ (e = WriteIssued (dataWrite i s r1)
                    /\ Progress.open (Replica.committed r1) = true
                    /\ precedingSegmentCloseCommitted s = true
                    /\ fst (afterActive i env s M1 r1)
                       = Replica.set_sent
                           (sentAfterWrite s r1 (Replica.sent r1))
                           (Replica.set_writeRpc
                              (Some (dataWrite i s r1)) r1))))
    as Hactive.
  { intros M1 r1 Hcount.
    unfold afterActive, afterSendOpen, afterSendWrite. rewrite Hcount.
    destruct (Replica.writeRpc r1) as [w|];
      [destruct (isReady env); by intros ?%elem_of_nil|].
    destruct (Progress.open (Replica.committed r1)); simpl.
    - destruct (precedingSegmentCloseCommitted s); simpl;
        [|by intros ?%elem_of_nil].
      destruct (sendClose s r1 && followingNotOpen M1 s);
        [by intros ?%elem_of_nil|].
      destruct (Z.eqb_spec (writeRpcsInFlight M) MAX_WRITE_RPCS_IN_FLIGHT);
        [by intros ?%elem_of_nil|].
      simpl. intros ->%list_elem_of_singleton. auto 10.
    - destruct (precedingSegmentOpenCommitted s); simpl;
        [|by intros ?%elem_of_nil].
      destruct (Z.eqb_spec (writeRpcsInFlight M) MAX_WRITE_RPCS_IN_FLIGHT);
        [by intros ?%elem_of_nil|].
      simpl. intros ->%list_elem_of_singleton. auto 10. }
  destruct (Replica.isActive r) eqn:Hact; simpl.
  - destruct (Progress.eqb (Replica.committed r) (queued s));
      [by intros ?%elem_of_nil|].
    intros He. destruct (Hactive M r eq_refl He) as (? & ? & ? & ?).
    done.
  - destruct (isValid (selected i env s)) eqn:Hvalid; simpl;
      [|by intros ?%elem_of_nil].
    intros He.
    destruct (Hactive (modifyReplica id i (Replica.start (selected i env s))
                         M)
                (Replica.start (selected i env s) r) eq_refl He)
      as (? & ? & ? & ?).
    done.
Qed.

(** The call finds the outstanding RPC of its replica completed. *)
Definition completes (i : nat) (env : ReplicaEnv) (s : ReplicatedSegment)
    (r : Replica) : bool :=
  negb (Replica.isActive r
        && Progress.eqb (Replica.committed r) (queued s))
  && (Replica.isActive r || isValid (selected i env s))
  && bool_decide (Replica.writeRpc r <> None)
  && isReady env.

(** [writeRpcsInFlight] after a [performWrite] that returns. *)
Definition inFlightAfter (id : Z) (i : nat) (env : ReplicaEnv)
    (s : ReplicatedSegment) (M : ReplicaManager) (r : Replica) : Z :=
  match snd (afterWrite id i env s M r) with
  | _ :: _ => wrap32 (writeRpcsInFlight M + 1)
  | [] =>
      if completes i env s r then wrap32 (writeRpcsInFlight M - 1)
      else writeRpcsInFlight M
  end.

Lemma performWrite_active_inFlight id i env s r M M' :
  performWrite_active id i env s r M = Ok M' ->
  writeRpcsInFlight M'
  = match snd (afterActive i env s M r) with
    | _ :: _ => wrap32 (writeRpcsInFlight M + 1)
    | [] =>
        if bool_decide (Replica.writeRpc r <> None) && isReady env
        then wrap32 (writeRpcsInFlight M - 1)
        else writeRpcsInFlight M
    end.
Proof.
  unfold performWrite_active, afterActive. intros H.
  destruct (Replica.writeRpc r) as [w|] eqn:Hw.
  - rewrite bool_decide_true by done. simpl.
    destruct (isReady env); ok_inv; [|done].
    unfold writeRpcReady, writeRpcDone in H.
    destruct (outcome env); simpl in H.
    + destruct (propagateToFollowing id _) as [M1|] eqn:Hp;
        simpl in H; ok_inv.
      apply (propagateToFollowing_upd id i) in Hp as (_ & _ & _ & Hc).
      match goal with
      | |- context [if ?c then _ else _] => destruct c
      end; simpl; by rewrite Hc.
    + ok_inv.
      match goal with
      | |- context [if ?c then _ else _] => destruct c
      end; done.
    + ok_inv.
      match goal with
      | |- context [if ?c then _ else _] => destruct c
      end; done.
  - rewrite bool_decide_false by (by intros []). simpl.
    destruct (negb (Progress.open (Replica.committed r))).
    + ok_inv. unfold sendOpen, afterSendOpen.
      destruct (negb (precedingSegmentOpenCommitted s)); [done|].
      by destruct (writeRpcsInFlight M =? MAX_WRITE_RPCS_IN_FLIGHT).
    + destruct (progress_lt (Replica.sent r) (queued s)); [|done].
      unfold sendWrite in H. unfold afterSendWrite, followingNotOpen.
      destruct (negb (precedingSegmentCloseCommitted s));
        [by ok_inv|].
      destruct (sendClose s r); simpl.
      * destruct (followingSegment s) as [f|].
        -- destruct (segments M !! f) as [following|]; [|done].
           destruct (negb (Progress.open (getCommitted following)));
             [by ok_inv|].
           destruct (writeRpcsInFlight M =? MAX_WRITE_RPCS_IN_FLIGHT);
             by ok_inv.
        -- destruct (writeRpcsInFlight M =? MAX_WRITE_RPCS_IN_FLIGHT);
             by ok_inv.
      * destruct (writeRpcsInFlight M =? MAX_WRITE_RPCS_IN_FLIGHT);
          by ok_inv.
Qed.

Lemma performWrite_inFlight id i env M M' s r :
  segments M !! id = Some s -> replicas s !! i = Some r ->
  performWrite id i env M = Ok M' ->
  writeRpcsInFlight M' = inFlightAfter id i env s M r.
Proof.
  intros Hs Hr H. unfold performWrite in H. rewrite Hs, Hr in H.
  destruct (Replica.freeRpc r); [done|].
  unfold inFlightAfter, completes, afterWrite.
  fold (selected i env s) in H.
  destruct (Replica.isActive r
            && Progress.eqb (Replica.committed r) (queued s)) eqn:Hsync.
  { by ok_inv. }
  destruct (Replica.isActive r) eqn:Hact; simpl in *.
  - apply performWrite_active_inFlight in H. rewrite H.
    by destruct (snd (afterActive i env s M r)).
  - destruct (isValid (selected i env s)); simpl in *; [|by ok_inv].
    apply performWrite_active_inFlight in H. rewrite H. simpl.
    by destruct (snd (afterActive i env s _ _)).
Qed.

(** ** The write RPCs in flight *)

(** The write RPCs that the replicas of a segment hold, and those of all
    segments together. *)
Definition hasWrite (r : Replica) : nat :=
  match Replica.writeRpc r with
  | Some _ => 1
  | None => 0
  end.

Definition pending (s : ReplicatedSegment) : nat :=
  sum_list_with hasWrite (replicas s).

Definition outstanding (m : gmap Z ReplicatedSegment) : nat :=
  map_fold (fun _ s n => (pending s + n)%nat) O m.

(** The RPCs of the segment filed under a key, if there is one. *)
Definition pendingAt (o : option ReplicatedSegment) : nat :=
  default O (pending <$> o).

Lemma outstanding_insert id s (m : gmap Z ReplicatedSegment) :
  m !! id = None ->
  outstanding (<[id := s]> m) = (pending s + outstanding m)%nat.
Proof.
  intros Hid. unfold outstanding.
  rewrite map_fold_insert_L; [done| |done]. intros. lia.
Qed.

Lemma outstanding_split id (m : gmap Z ReplicatedSegment) :
  outstanding m = (pendingAt (m !! id) + outstanding (delete id m))%nat.
Proof.
  destruct (m !! id) as [s|] eqn:Hs; simpl.
  - unfold outstanding.
    rewrite (map_fold_delete_L _ _ id s m); [done| |done]. intros. lia.
  - by rewrite delete_id.
Qed.

(** Fewer RPCs under every key: fewer RPCs in all. *)
Lemma outstanding_le (m' : gmap Z ReplicatedSegment) :
  forall m : gmap Z ReplicatedSegment,
    (forall id, (pendingAt (m' !! id) <= pendingAt (m !! id))%nat) ->
    (outstanding m' <= outstanding m)%nat.
Proof.
  induction m' as [|id s m' Hid IH] using map_ind; intros m Hle.
  - unfold outstanding at 1. rewrite map_fold_empty. lia.
  - rewrite (outstanding_insert id s m' Hid).
    rewrite (outstanding_split id m).
    pose proof (Hle id) as Hs. rewrite lookup_insert_eq in Hs.
    change (pendingAt (Some s)) with (pending s) in Hs.
    assert (outstanding m' <= outstanding (delete id m))%nat; [|lia].
    apply IH. intros id'. destruct (decide (id' = id)) as [->|Hne].
    + rewrite Hid. unfold pendingAt at 1. simpl. lia.
    + specialize (Hle id').
      by rewrite lookup_insert_ne, <- (lookup_delete_ne m id id') in Hle.
Qed.

(** The same with a change of [b - a] RPCs under one key. *)
Lemma outstanding_le_at id a b (m m' : gmap Z ReplicatedSegment) :
  (pendingAt (m' !! id) + a <= pendingAt (m !! id) + b)%nat ->
  (forall id', id' <> id ->
               (pendingAt (m' !! id') <= pendingAt (m !! id'))%nat) ->
  (outstanding m' + a <= outstanding m + b)%nat.
Proof.
  intros Hid Hother.
  rewrite (outstanding_split id m), (outstanding_split id m').
  assert (outstanding (delete id m') <= outstanding (delete id m))%nat;
    [|lia].
  apply outstanding_le. intros id'.
  destruct (decide (id' = id)) as [->|Hne].
  - rewrite !lookup_delete_eq. unfold pendingAt. simpl. lia.
  - rewrite !lookup_delete_ne by done. auto.
Qed.

(** One replica replaced. *)
Lemma pending_alter (f : Replica -> Replica) i rs r :
  rs !! i = Some r ->
  (sum_list_with hasWrite (alter f i rs) + hasWrite r
   = sum_list_with hasWrite rs + hasWrite (f r))%nat.
Proof.
  revert i. induction rs as [|r0 rs IH]; intros [|i] Hi; simpl in *;
    try done.
  - injection Hi as ->. lia.
  - specialize (IH i Hi). unfold alter in IH. lia.
Qed.

Lemma pending_map_le (f : Replica -> Replica) rs :
  (forall r, (hasWrite (f r) <= hasWrite r)%nat) ->
  (sum_list_with hasWrite (map f rs) <= sum_list_with hasWrite rs)%nat.
Proof.
  intros Hf. induction rs as [|r rs IH]; simpl; [done|].
  specialize (Hf r). lia.
Qed.

Lemma pending_fresh n : sum_list_with hasWrite (replicate n Replica.fresh) = O.
Proof. induction n as [|n IH]; simpl; [done|]. by rewrite IH. Qed.

(** No more write RPCs are held by replicas than the counter says, and
    the counter stays within its cap. *)
Definition inFlightInv (M : ReplicaManager) : Prop :=
  Z.of_nat (outstanding (segments M)) <= writeRpcsInFlight M
  /\ writeRpcsInFlight M <= MAX_WRITE_RPCS_IN_FLIGHT.

(** [performWrite] gives up an RPC when it completes one and takes one
    when it issues one. *)
Lemma afterWrite_hasWrite id i env s M r :
  (hasWrite (fst (afterWrite id i env s M r))
   + (if completes i env s r then 1 else 0)
   = hasWrite r + length (snd (afterWrite id i env s M r)))%nat.
Proof.
  unfold afterWrite, completes.
  assert (forall M1 r1,
            (hasWrite (fst (afterActive i env s M1 r1))
             + (if bool_decide (Replica.writeRpc r1 <> None) && isReady env
                then 1 else 0)
             = hasWrite r1 + length (snd (afterActive i env s M1 r1)))%nat)
    as Hactive.
  { intros M1 r1. unfold afterActive, afterReady, afterSendOpen,
      afterSendWrite.
    destruct (Replica.writeRpc r1) as [w|] eqn:Hw.
    - rewrite bool_decide_true by done.
      destruct (isReady env); unfold hasWrite; simpl; by rewrite Hw.
    - rewrite bool_decide_false by (by intros []). simpl.
      destruct (negb (Progress.open (Replica.committed r1))).
      + destruct (negb (precedingSegmentOpenCommitted s)); [simpl; lia|].
        destruct (writeRpcsInFlight M1 =? MAX_WRITE_RPCS_IN_FLIGHT);
          unfold hasWrite; simpl; by rewrite ?Hw.
      + destruct (negb (precedingSegmentCloseCommitted s)); [simpl; lia|].
        destruct (sendClose s r1 && followingNotOpen M1 s); [simpl; lia|].
        destruct (writeRpcsInFlight M1 =? MAX_WRITE_RPCS_IN_FLIGHT);
          unfold hasWrite; simpl; by rewrite ?Hw. }
  destruct (Replica.isActive r) eqn:Hact; simpl.
  - destruct (Progress.eqb (Replica.committed r) (queued s)); simpl;
      [lia|apply Hactive].
  - destruct (isValid (selected i env s)); simpl; [|lia].
    apply (Hactive (modifyReplica id i (Replica.start (selected i env s)) M)
             (Replica.start (selected i env s) r)).
Qed.

Lemma afterFree_hasWrite env s r :
  (hasWrite (fst (afterFree env s r)) <= hasWrite r)%nat.
Proof.
  unfold afterFree.
  destruct (negb (Replica.isActive r)); [simpl; lia|].
  destruct (Replica.freeRpc r).
  - destruct (isReady env); simpl; [|lia].
    unfold hasWrite. simpl. lia.
  - simpl. unfold hasWrite. simpl. lia.
Qed.

(** What an update of one replica does to the RPCs filed under each
    key. *)
Lemma upd_pendingAt id i r' M M' s r :
  upd id i (fun _ => r') M M' ->
  segments M !! id = Some s -> replicas s !! i = Some r ->
  (pendingAt (segments M' !! id) + hasWrite r
   = pendingAt (segments M !! id) + hasWrite r')%nat
  /\ forall id', id' <> id ->
       pendingAt (segments M' !! id') = pendingAt (segments M !! id').
Proof.
  intros Hu Hs Hr. split.
  - specialize (Hu id). rewrite Hs in Hu.
    inversion Hu as [? s' [_ Hrs]|]; subst.
    rewrite decide_True in Hrs by done.
    rewrite Hs. unfold pendingAt, pending. simpl. rewrite Hrs.
    apply (pending_alter (fun _ => r') i (replicas s) r Hr).
  - intros id' Hne. specialize (Hu id').
    destruct Hu as [s0 s' [_ Hrs]|]; [|done].
    rewrite decide_False in Hrs by done.
    unfold pendingAt, pending. simpl. by rewrite Hrs.
Qed.

Lemma inFlightInv_nonneg M : inFlightInv M -> 0 <= writeRpcsInFlight M.
Proof. intros [? _]. lia. Qed.

Lemma performWrite_inFlightInv id i env M M' :
  MAX_WRITE_RPCS_IN_FLIGHT < 2 ^ 32 ->
  inFlightInv M -> performWrite id i env M = Ok M' -> inFlightInv M'.
Proof.
  intros Hmax HM H. pose proof (inFlightInv_nonneg M HM) as H0.
  destruct HM as [Hout Hcap].
  destruct (segments M !! id) as [s|] eqn:Hs;
    [|unfold performWrite in H; by rewrite Hs in H].
  destruct (replicas s !! i) as [r|] eqn:Hr;
    [|unfold performWrite in H; by rewrite Hs, Hr in H].
  destruct (performWrite_upd _ _ _ _ _ _ _ Hs Hr H) as (_ & Hu & _ & _).
  pose proof (performWrite_inFlight _ _ _ _ _ _ _ Hs Hr H) as Hafter.
  destruct (upd_pendingAt _ _ _ _ _ _ _ Hu Hs Hr) as [Hid Hother].
  pose proof (afterWrite_hasWrite id i env s M r) as Hcount.
  unfold inFlightInv. rewrite Hafter. unfold inFlightAfter.
  destruct (snd (afterWrite id i env s M r)) as [|e evs] eqn:Hev.
  - destruct (completes i env s r) eqn:Hc; simpl in Hcount.
    + assert (hasWrite r = 1%nat) as Hone.
      { unfold completes in Hc. unfold hasWrite.
        apply andb_true_iff in Hc
          as [[_ Hw%bool_decide_eq_true]%andb_true_iff _].
        by destruct (Replica.writeRpc r). }
      assert (outstanding (segments M') + 1 <= outstanding (segments M) + 0)%nat
        as Hle.
      { apply (outstanding_le_at id); [lia|].
        intros id' Hne. by rewrite Hother. }
      rewrite wrap32_small by lia. lia.
    + assert (outstanding (segments M') + 0 <= outstanding (segments M) + 0)%nat
        as Hle.
      { apply (outstanding_le_at id); [lia|].
        intros id' Hne. by rewrite Hother. }
      lia.
  - assert (e ∈ snd (afterWrite id i env s M r)) as He.
    { rewrite Hev. apply list_elem_of_here. }
    destruct (afterWrite_issued _ _ _ _ _ _ _ He)
      as (Hone & Hw & _ & Hfull & _).
    rewrite Hev in Hone. injection Hone as ->.
    assert (completes i env s r = false) as Hc.
    { unfold completes. unfold writeTarget in Hw.
      assert (Replica.writeRpc r = None) as ->
          by (by destruct (Replica.isActive r)).
      rewrite bool_decide_false by (intros Hn; by apply Hn).
      by rewrite andb_false_r. }
    rewrite Hc in Hcount. simpl in Hcount.
    assert (outstanding (segments M') + 0 <= outstanding (segments M) + 1)%nat
      as Hle.
    { apply (outstanding_le_at id); [lia|].
      intros id' Hne. by rewrite Hother. }
    rewrite wrap32_small by lia. lia.
Qed.

Lemma performFree_inFlightInv id i env M M' :
  inFlightInv M -> performFree id i env M = Ok M' -> inFlightInv M'.
Proof.
  intros [Hout Hcap] H.
  destruct (segments M !! id) as [s|] eqn:Hs;
    [|unfold performFree in H; by rewrite Hs in H].
  destruct (replicas s !! i) as [r|] eqn:Hr;
    [|unfold performFree in H; by rewrite Hs, Hr in H].
  destruct (performFree_upd _ _ _ _ _ _ _ Hs Hr H) as (Hu & _).
  destruct (upd_pendingAt _ _ _ _ _ _ _ Hu Hs Hr) as [Hid Hother].
  pose proof (afterFree_hasWrite env s r) as Hcount.
  assert (writeRpcsInFlight M' = writeRpcsInFlight M) as Hsame.
  { unfold performFree in H. rewrite Hs, Hr in H.
    repeat match type of H with
           | context [match ?c with _ => _ end] => destruct c
           end; by ok_inv. }
  assert (outstanding (segments M') + 0 <= outstanding (segments M) + 0)%nat
    as Hle.
  { apply (outstanding_le_at id); [lia|].
    intros id' Hne. by rewrite Hother. }
  unfold inFlightInv. rewrite Hsame. lia.
Qed.

(** A change of one segment that takes no RPC. *)
Lemma inFlightInv_modifySegment id h M :
  (forall s, (pending (h s) <= pending s)%nat) ->
  inFlightInv M -> inFlightInv (modifySegment id h M).
Proof.
  intros Hh [Hout Hcap].
  assert (outstanding (segments (modifySegment id h M))
          <= outstanding (segments M))%nat as Hle.
  { apply outstanding_le. intros id'. simpl.
    destruct (decide (id = id')) as [<-|Hne];
      [|by rewrite lookup_alter_ne].
    rewrite lookup_alter_eq.
    destruct (segments M !! id) as [s|]; simpl; [apply Hh|done]. }
  unfold inFlightInv. simpl in *. lia.
Qed.

Lemma pending_schedule s : pending (schedule_seg s) = pending s.
Proof. unfold pending. by rewrite schedule_seg_replicas. Qed.

Lemma inFlightInv_schedule id M : inFlightInv M -> inFlightInv (schedule id M).
Proof.
  apply inFlightInv_modifySegment. intros s. by rewrite pending_schedule.
Qed.

Lemma inFlightInv_recover id M :
  inFlightInv M -> inFlightInv (recoverFromLostOpenReplicas id M).
Proof.
  intros HM. unfold recoverFromLostOpenReplicas.
  destruct (segments M !! id) as [s|]; [|done].
  destruct (recoveringFromLostOpenReplicas s); [|done].
  destruct (Progress.eqb (getCommitted s) (queued s)).
  - destruct (isAtLeast _ _ _).
    + by apply inFlightInv_modifySegment.
    + by apply inFlightInv_schedule.
  - by apply inFlightInv_schedule.
Qed.

Lemma inFlightInv_destroy id M : inFlightInv M -> inFlightInv (destroy id M).
Proof.
  intros [Hout Hcap].
  assert (outstanding (delete id (segments M)) <= outstanding (segments M))%nat
    as Hle.
  { apply outstanding_le. intros id'.
    destruct (decide (id' = id)) as [->|Hne].
    - rewrite lookup_delete_eq. unfold pendingAt at 1. simpl. lia.
    - by rewrite lookup_delete_ne. }
  unfold inFlightInv. simpl. lia.
Qed.

Lemma performTask_inFlightInv id env M M' :
  MAX_WRITE_RPCS_IN_FLIGHT < 2 ^ 32 ->
  inFlightInv M -> performTask id env M = Ok M' -> inFlightInv M'.
Proof.
  intros Hmax HM H. unfold performTask in H.
  destruct (segments M !! id) as [s|]; [|done].
  destruct (freeQueued s && negb (recoveringFromLostOpenReplicas s)).
  - destruct (foreachReplica _ _ _ _) as [M1|] eqn:Hloop; [|done].
    simpl in H.
    assert (inFlightInv M1) as HM1.
    { eapply (foreachReplica_inv inFlightInv); [|exact HM|exact Hloop].
      intros i M2 M3. apply performFree_inFlightInv. }
    destruct (segments M1 !! id) as [s1|]; [|done].
    destruct (negb (scheduled s1)); simpl in H; injection H as <-;
      auto using inFlightInv_recover, inFlightInv_destroy.
  - destruct (negb (freeQueued s)).
    + destruct (foreachReplica _ _ _ _) as [M1|] eqn:Hloop; [|done].
      simpl in H. injection H as <-. apply inFlightInv_recover.
      eapply (foreachReplica_inv inFlightInv); [|exact HM|exact Hloop].
      intros i M2 M3. by apply performWrite_inFlightInv.
    + simpl in H. injection H as <-. by apply inFlightInv_recover.
Qed.

Lemma pending_handleBackupFailure failedId s :
  (pending (handleBackupFailure_seg failedId s) <= pending s)%nat.
Proof.
  unfold pending.
  assert (replicas (handleBackupFailure_seg failedId s)
          = map (fun r => if lostReplica failedId r then Replica.failed r
                          else r) (replicas s)) as ->.
  { unfold handleBackupFailure_seg.
    rewrite handleBackupFailure_loop_spec. simpl.
    destruct (existsb (lostOpenReplica failedId) (replicas s)),
      (existsb (lostReplica failedId) (replicas s)); simpl;
      by rewrite ?schedule_seg_replicas. }
  apply pending_map_le. intros r.
  destruct (lostReplica failedId r); unfold hasWrite; simpl; lia.
Qed.

Lemma pending_cancelWrite rs :
  sum_list_with hasWrite (map cancelWrite rs) = sum_list_with hasWrite rs.
Proof.
  induction rs as [|r rs IH]; simpl; [done|]. rewrite IH. f_equal.
  unfold cancelWrite, hasWrite.
  destruct (negb (Replica.isActive r)); [done|].
  destruct (Replica.writeRpc r) eqn:Hw; simpl; by rewrite ?Hw.
Qed.

Lemma step_inFlightInv M M' :
  MAX_WRITE_RPCS_IN_FLIGHT < 2 ^ 32 ->
  inFlightInv M -> step M M' -> inFlightInv M'.
Proof.
  intros Hmax HM Hstep. destruct Hstep as
    [M M' prev seg normal master id numReplicas maxBytes Hfree _ _ _ Hopen
    |M id s seg _ _ _
    |M M' id Hclose
    |M id
    |M M' id Hfree
    |M failedId id
    |M failedId
    |M M' id env Htask
    |M id].
  - (* openSegment *)
    destruct HM as [Hout Hcap].
    assert (outstanding (segments M') <= outstanding (segments M))%nat
      as Hle.
    { apply outstanding_le. intros id'. unfold openSegment in Hopen.
      assert (pending (ReplicatedSegment_new seg normal master id
                         numReplicas maxBytes) = O) as Hnew
          by apply pending_fresh.
      destruct prev as [p|].
      - destruct (segments M !! p) as [ps|]; [|done]. injection Hopen as <-.
        simpl. destruct (decide (id' = id)) as [->|Hne].
        + rewrite lookup_insert_eq. unfold pendingAt at 1. simpl.
          unfold pending in *. simpl. rewrite pending_fresh. lia.
        + rewrite lookup_insert_ne by done.
          destruct (decide (p = id')) as [<-|Hne'];
            [|by rewrite lookup_alter_ne].
          rewrite lookup_alter_eq.
          by destruct (segments M !! p).
      - injection Hopen as <-. simpl.
        destruct (decide (id' = id)) as [->|Hne].
        + rewrite lookup_insert_eq. unfold pendingAt at 1. simpl.
          rewrite Hnew. lia.
        + by rewrite lookup_insert_ne. }
    assert (writeRpcsInFlight M' = writeRpcsInFlight M) as Hsame.
    { unfold openSegment in Hopen. destruct prev as [p|].
      - destruct (segments M !! p); [|done]. by injection Hopen as <-.
      - by injection Hopen as <-. }
    unfold inFlightInv. rewrite Hsame. lia.
  - by apply inFlightInv_modifySegment.
  - unfold close in Hclose. destruct (segments M !! id) as [s|]; [|done].
    destruct (Progress.close (queued s)); [done|]. injection Hclose as <-.
    apply inFlightInv_modifySegment; [|done].
    intros s0. by rewrite pending_schedule.
  - apply inFlightInv_modifySegment; [|done]. intros s0.
    destruct (_ >? _); [|done]. by rewrite pending_schedule.
  - unfold free_locked in Hfree.
    destruct (segments M !! id) as [s|]; [|done].
    repeat match type of Hfree with
           | context [if ?c then _ else _] => destruct c; [done|]
           end.
    injection Hfree as <-. apply inFlightInv_schedule.
    apply inFlightInv_modifySegment; [|done]. intros s0.
    unfold pending. simpl. by rewrite pending_cancelWrite.
  - apply inFlightInv_modifySegment; [|done].
    apply pending_handleBackupFailure.
  - destruct HM as [Hout Hcap].
    assert (outstanding (handleBackupFailure_seg failedId <$> segments M)
            <= outstanding (segments M))%nat as Hle.
    { apply outstanding_le. intros id'. rewrite lookup_fmap.
      destruct (segments M !! id') as [s|]; simpl; [|done].
      apply pending_handleBackupFailure. }
    unfold inFlightInv. simpl. lia.
  - unfold taskQueue_performTask in Htask.
    destruct (segments M !! id) as [s|]; [|done].
    destruct (scheduled s); [|by injection Htask as <-].
    eapply performTask_inFlightInv; [done| |exact Htask].
    by apply inFlightInv_modifySegment.
  - done.
Qed.

(** X4.  The throttle works: in every state that the master reaches, the
    replicas hold no more write RPCs than [writeRpcsInFlight] counts, and
    the counter lies between zero and [MAX_WRITE_RPCS_IN_FLIGHT], so that
    neither its decrement nor its increment ever wraps around. *)
Theorem writeRpcsInFlight_bounded n M :
  0 <= MAX_WRITE_RPCS_IN_FLIGHT < 2 ^ 32 ->
  reachable n M ->
  Z.of_nat (outstanding (segments M)) <= writeRpcsInFlight M
  /\ writeRpcsInFlight M <= MAX_WRITE_RPCS_IN_FLIGHT.
Proof.
  intros [Hmin Hmax] Hreach.
  induction Hreach as [|n M M' Hreach IH Hstep].
  - split; [|done]. simpl. unfold outstanding. by rewrite map_fold_empty.
  - by apply (step_inFlightInv M M').
Qed.

(** ** What performWrite sends, and when *)

(** X5.  One call, at most one RPC: [performWrite] constructs no RPC while
    [writeRpcsInFlight] is at its cap or while the replica still has one
    outstanding, it constructs at most one otherwise, and counts the one
    it has constructed. *)
Theorem performWrite_throttle id i env M M' s r :
  segments M !! id = Some s -> replicas s !! i = Some r ->
  performWrite id i env M = Ok M' ->
  exists events,
    trace M' = trace M ++ events
    /\ (length events <= 1)%nat
    /\ (writeRpcsInFlight M = MAX_WRITE_RPCS_IN_FLIGHT -> events = [])
    /\ (Replica.writeRpc r <> None -> events = [])
    /\ (events <> [] ->
        writeRpcsInFlight M' = wrap32 (writeRpcsInFlight M + 1)).
Proof.
  intros Hs Hr H.
  destruct (performWrite_upd _ _ _ _ _ _ _ Hs Hr H) as (_ & _ & Ht & _).
  pose proof (performWrite_inFlight _ _ _ _ _ _ _ Hs Hr H) as Hcount.
  unfold inFlightAfter in Hcount.
  exists (snd (afterWrite id i env s M r)). split; [done|].
  destruct (snd (afterWrite id i env s M r)) as [|e evs] eqn:Hev.
  { repeat split; try done. simpl. lia. }
  assert (e ∈ snd (afterWrite id i env s M r)) as He.
  { rewrite Hev. apply list_elem_of_here. }
  destruct (afterWrite_issued _ _ _ _ _ _ _ He)
    as (Hone & Hw & _ & Hfull & _).
  rewrite Hev in Hone. injection Hone as ->.
  split; [simpl; lia|]. split; [done|]. split; [|done].
  intros Hbusy. destruct Hbusy. unfold writeTarget in Hw.
  by destruct (Replica.isActive r).
Qed.

(** X6.  The order among segments: an opening write is sent only once the
    preceding segment is durably open, and any other write only once the
    preceding segment is durably closed; the former goes to a replica
    whose open is not committed, the latter to one whose open is. *)
Theorem performWrite_segment_order id i env M M' s r w :
  segments M !! id = Some s -> replicas s !! i = Some r ->
  performWrite id i env M = Ok M' ->
  WriteIssued w ∈ drop (length (trace M)) (trace M') ->
  if w_open w
  then precedingSegmentOpenCommitted s = true
       /\ Progress.open (Replica.committed r) = false
  else precedingSegmentCloseCommitted s = true
       /\ Progress.open (Replica.committed r) = true.
Proof.
  intros Hs Hr H Hw.
  destruct (performWrite_upd _ _ _ _ _ _ _ Hs Hr H) as (_ & _ & Ht & _).
  rewrite Ht, drop_app_length in Hw.
  destruct (afterWrite_issued _ _ _ _ _ _ _ Hw)
    as (_ & _ & _ & _ & [(Hev & Hopen & Hprev & _)|(Hev & Hopen & Hprev & _)]);
    injection Hev as ->; simpl; done.
Qed.

(** X7.  The fields of the RPC that [performWrite] constructs in a state
    the master has reached. Every write names the segment, its master and
    the queued epoch. The opening write covers the first [openLen] bytes
    and carries the opening certificate unless the replica is replicated
    atomically. Any other write starts where the last one ended, is no
    longer than [maxBytesPerWriteRpc], stays within what is queued,
    carries the queued certificate exactly when it reaches the end of the
    queued data, and closes the replica exactly when it does so and the
    close is queued. Afterwards the replica holds the RPC, and
    [sent.bytes] is the end of the write. *)
Theorem performWrite_rpc_contents n id i env M M' s r w :
  reachable n M -> Z.of_nat n < 2 ^ 64 ->
  segments M !! id = Some s -> replicas s !! i = Some r ->
  performWrite id i env M = Ok M' ->
  trace M' = trace M ++ [WriteIssued w] ->
  w_masterId w = masterId s /\ w_segmentId w = id
  /\ w_epoch w = Progress.epoch (queued s)
  /\ w_primary w = replicaIsPrimary i /\ w_cancelled w = false
  /\ w_backupId w
     = (if Replica.isActive r then Replica.backupId r
        else selected i env s)
  /\ (if w_open w
      then w_offset w = 0 /\ w_length w = openLen s /\ w_close w = false
           /\ w_certificate w
              = (if Replica.replicateAtomically r then None
                 else Some (openingWriteCertificate s))
      else w_offset w = Progress.bytes (Replica.sent r)
           /\ 0 <= w_length w <= maxBytesPerWriteRpc s
           /\ w_offset w + w_length w <= Progress.bytes (queued s)
           /\ w_certificate w
              = (if w_offset w + w_length w =? Progress.bytes (queued s)
                 then Some (queuedCertificate s) else None)
           /\ w_close w
              = Progress.close (queued s)
                && (w_offset w + w_length w =? Progress.bytes (queued s)))
  /\ exists s' r',
       segments M' !! id = Some s' /\ replicas s' !! i = Some r'
       /\ Replica.writeRpc r' = Some w
       /\ Progress.bytes (Replica.sent r') = w_offset w + w_length w.
Proof.
  intros Hreach Hn Hs Hr H Htrace.
  destruct (reachable_inv n M Hreach Hn id s Hs) as [Hid Hinv].
  assert (repInv s r) as Hrinv.
  { eapply Forall_lookup_1; [apply Hinv|exact Hr]. }
  destruct (performWrite_upd _ _ _ _ _ _ _ Hs Hr H) as (_ & Hu & Ht & _).
  rewrite Htrace in Ht. apply app_inv_head in Ht.
  destruct (upd_lookup _ _ _ _ _ _ _ Hu Hs Hr) as (s' & Hs' & _ & _ & Hr').
  assert (WriteIssued w ∈ snd (afterWrite id i env s M r)) as Hw.
  { rewrite <- Ht. apply list_elem_of_here. }
  destruct (afterWrite_issued _ _ _ _ _ _ _ Hw)
    as (_ & _ & _ & _ & [(Hev & Hopen & _ & Hfst)|(Hev & Hopen & _ & Hfst)]);
    injection Hev as ->; rewrite Hfst in Hr'.
  - (* the opening write *)
    unfold openingWrite, writeTarget. simpl.
    repeat (split; [by destruct (Replica.isActive r)|]).
    exists s'. eexists. split; [done|]. split; [exact Hr'|]. split; [done|].
    simpl. lia.
  - (* a data write *)
    assert (Replica.isActive r = true) as Hact.
    { destruct (Replica.isActive r) eqn:Hact; [done|].
      destruct Hrinv. destruct (inv_inactive0 Hact) as (Hc & _).
      by rewrite Hc in Hopen. }
    unfold writeTarget in *. rewrite Hact in *.
    destruct (chunk_bounds n s r Hinv Hrinv Hopen) as (Hsb & Hlen & Hqb).
    destruct Hinv.
    assert (snd (chunk s r)
            = (if Progress.bytes (Replica.sent r) + fst (chunk s r)
                  =? Progress.bytes (queued s)
               then Some (queuedCertificate s) else None)
            /\ fst (chunk s r) <= maxBytesPerWriteRpc s) as [Hcert Hmax].
    { unfold chunk.
      rewrite (wrap32_small (Progress.bytes (queued s)
                             - Progress.bytes (Replica.sent r))) by lia.
      destruct (Z.gtb_spec
                  (Progress.bytes (queued s)
                   - Progress.bytes (Replica.sent r))
                  (maxBytesPerWriteRpc s)) as [Hgt|Hle]; simpl.
      - split; [|lia].
        match goal with
        | |- context [?a =? ?b] => destruct (Z.eqb_spec a b)
        end; [lia|done].
      - split; [|lia].
        match goal with
        | |- context [?a =? ?b] => destruct (Z.eqb_spec a b)
        end; [done|lia]. }
    assert (exists s' r',
              segments M' !! id = Some s' /\ replicas s' !! i = Some r'
              /\ Replica.writeRpc r' = Some (dataWrite i s r)
              /\ Progress.bytes (Replica.sent r')
                 = w_offset (dataWrite i s r) + w_length (dataWrite i s r))
      as Hafter.
    { exists s'. eexists. split; [done|]. split; [exact Hr'|].
      split; [done|].
      unfold sentAfterWrite. simpl. apply wrap32_small. lia. }
    destruct Hafter as (s1 & r1 & Hs1 & Hr1 & Hw1 & Hb1).
    unfold dataWrite, sendClose in Hw1, Hb1 |- *. simpl in Hb1 |- *.
    rewrite (wrap32_small (Progress.bytes (Replica.sent r)
                           + fst (chunk s r))) in Hw1 |- * by lia.
    split; [done|]. split; [done|]. split; [done|]. split; [done|].
    split; [done|]. split; [done|].
    split; [repeat split; try done; lia|].
    by exists s1, r1.
Qed.

(** ** A write RPC that failed *)

Lemma schedule_seg_scheduled s :
  replicas s <> [] -> scheduled (schedule_seg s) = true.
Proof. unfold schedule_seg. by destruct (replicas s). Qed.

(** X8.  [performWrite] finds the write RPC of an active replica failed.
    After [ServerNotUpException] the replica stays on its backup with
    [sent] back at [acked], so that the same bytes are sent again there;
    after [BackupOpenRejectedException] the replica is reset and inactive,
    so that another backup is chosen. Either way the RPC is gone, the
    counter is decremented, no new RPC is constructed in this call, and
    the segment is scheduled again. *)
Theorem performWrite_rpc_failed id i env M M' s r w :
  segments M !! id = Some s -> replicas s !! i = Some r ->
  Replica.isActive r = true -> Replica.writeRpc r = Some w ->
  Progress.eqb (Replica.committed r) (queued s) = false ->
  Progress.open (queued s) = true ->
  isReady env = true -> outcome env <> RpcOk ->
  performWrite id i env M = Ok M' ->
  trace M' = trace M
  /\ writeRpcsInFlight M' = wrap32 (writeRpcsInFlight M - 1)
  /\ exists s' r',
       segments M' !! id = Some s' /\ replicas s' !! i = Some r'
       /\ scheduled s' = true
       /\ Replica.writeRpc r' = None
       /\ Replica.sent r' = Replica.acked r'
       /\ match outcome env with
          | ServerNotUpException =>
              Replica.isActive r' = true
              /\ Replica.backupId r' = Replica.backupId r
              /\ Replica.acked r' = Replica.acked r
              /\ Replica.committed r' = Replica.committed r
          | _ => Replica.isActive r' = false
          end.
Proof.
  intros Hs Hr Hact Hw Hneq Hqo Hready Hout H.
  unfold performWrite in H. rewrite Hs, Hr, Hact, Hneq in H.
  destruct (Replica.freeRpc r); [done|]. simpl in H.
  unfold performWrite_active in H. rewrite Hw, Hready in H.
  unfold writeRpcReady in H.
  assert (forall rs : list Replica, rs !! i = Some r ->
            forall f g : Replica -> Replica,
              alter g i (alter f i rs) <> []
              /\ alter g i (alter f i rs) !! i = Some (g (f r)))
    as Halter.
  { intros rs Hrs f g. split.
    - intros Hnil. apply (f_equal length) in Hnil.
      rewrite !length_alter in Hnil. apply lookup_lt_Some in Hrs.
      simpl in Hnil. lia.
    - by rewrite !list_lookup_alter_eq, Hrs. }
  destruct (outcome env); [done| |]; injection H as <-;
    unfold writeRpcDone; simpl.
  - rewrite Hneq. simpl. split; [done|]. split; [done|].
    rewrite !lookup_alter_eq, Hs. simpl.
    destruct (Halter _ Hr
                (fun r0 => Replica.set_sent (Replica.acked r0) r0)
                (Replica.set_writeRpc None)) as [Hne Hi].
    eexists _, _. split; [done|]. split; [|split].
    + rewrite schedule_seg_replicas. exact Hi.
    + by apply schedule_seg_scheduled.
    + done.
  - assert (Progress.eqb Progress.zero (queued s) = false) as ->.
    { unfold Progress.eqb. simpl. by rewrite Hqo. }
    simpl. split; [done|]. split; [done|].
    rewrite !lookup_alter_eq, Hs. simpl.
    destruct (Halter _ Hr Replica.reset (Replica.set_writeRpc None))
      as [Hne Hi].
    eexists _, _. split; [done|]. split; [|split].
    + rewrite schedule_seg_replicas. exact Hi.
    + by apply schedule_seg_scheduled.
    + done.
Qed.

(** ** What never changes, and what only grows *)

(** From [s] to [s']: the identity of the segment, its limits, its
    opening data and the number of its replicas are the same; what is
    appended and what is queued has not shrunk; a queued free stays
    queued. *)
Definition grows (s s' : ReplicatedSegment) : Prop :=
  segmentId s' = segmentId s /\ masterId s' = masterId s
  /\ normalLogSegment s' = normalLogSegment s
  /\ maxBytesPerWriteRpc s' = maxBytesPerWriteRpc s
  /\ openLen s' = openLen s
  /\ openingWriteCertificate s' = openingWriteCertificate s
  /\ length (replicas s') = length (replicas s)
  /\ appendedLength (segment s) <= appendedLength (segment s')
  /\ Progress.le (queued s) (queued s')
  /\ (freeQueued s = true -> freeQueued s' = true).

Lemma Progress_le_refl p : Progress.le p p.
Proof. unfold Progress.le. repeat split; auto; lia. Qed.

Lemma Progress_le_trans p q r :
  Progress.le p q -> Progress.le q r -> Progress.le p r.
Proof.
  unfold Progress.le. intros (? & ? & ? & ?) (? & ? & ? & ?).
  repeat split; auto; lia.
Qed.

Lemma grows_refl s : grows s s.
Proof.
  unfold grows. repeat split; auto using Progress_le_refl; try lia;
    apply Progress_le_refl.
Qed.

Lemma grows_trans s1 s2 s3 : grows s1 s2 -> grows s2 s3 -> grows s1 s3.
Proof.
  unfold grows.
  intros (? & ? & ? & ? & ? & ? & ? & ? & ? & ?)
         (? & ? & ? & ? & ? & ? & ? & ? & ? & ?).
  repeat split; try congruence; try lia; auto.
  all: eapply Progress_le_trans; eauto.
Qed.

(** A change of non-core flags or of single replicas. *)
Lemma grows_core s s' :
  core s' = core s -> length (replicas s') = length (replicas s) ->
  grows s s'.
Proof.
  unfold core, grows. intros [= Hseg Hn Hm Hid Hmax Hq Hqc Hol Hoc Hfq Hrec] Hl.
  rewrite Hseg, Hq. repeat split; try done; try lia.
  all: try apply Progress_le_refl. congruence.
Qed.

(** Every segment of [M] is still there in [M'], grown. *)
Definition allGrow (M M' : ReplicaManager) : Prop :=
  forall id s, segments M !! id = Some s ->
               exists s', segments M' !! id = Some s' /\ grows s s'.

Lemma allGrow_refl M : allGrow M M.
Proof. intros id s Hs. eauto using grows_refl. Qed.

Lemma allGrow_trans M1 M2 M3 :
  allGrow M1 M2 -> allGrow M2 M3 -> allGrow M1 M3.
Proof.
  intros H12 H23 id s1 Hs1.
  destruct (H12 id s1 Hs1) as (s2 & Hs2 & Hg12).
  destruct (H23 id s2 Hs2) as (s3 & Hs3 & Hg23).
  eauto using grows_trans.
Qed.

Lemma allGrow_modifySegment id h M :
  (forall s, segments M !! id = Some s -> grows s (h s)) ->
  allGrow M (modifySegment id h M).
Proof.
  intros Hh id' s Hs. simpl.
  destruct (decide (id = id')) as [<-|Hne].
  - rewrite lookup_alter_eq, Hs. simpl. eauto.
  - rewrite lookup_alter_ne by done. eauto using grows_refl.
Qed.

Lemma allGrow_same_segments M M' :
  segments M' = segments M -> allGrow M M'.
Proof. intros E id s Hs. rewrite E. eauto using grows_refl. Qed.

Lemma allGrow_upd id i f M M' : upd id i f M M' -> allGrow M M'.
Proof.
  intros Hu id' s Hs. specialize (Hu id'). rewrite Hs in Hu.
  inversion Hu as [? s' [Hc Hr]|]; subst. exists s'. split; [done|].
  apply grows_core; [done|]. rewrite Hr.
  case_decide; [apply length_alter|done].
Qed.

Lemma allGrow_schedule id M : allGrow M (schedule id M).
Proof.
  apply allGrow_modifySegment. intros s _.
  apply grows_core; [apply schedule_seg_core|].
  by rewrite schedule_seg_replicas.
Qed.

Lemma performWrite_allGrow id i env M M' :
  performWrite id i env M = Ok M' -> allGrow M M'.
Proof.
  intros H.
  destruct (segments M !! id) as [s|] eqn:Hs;
    [|unfold performWrite in H; by rewrite Hs in H].
  destruct (replicas s !! i) as [r|] eqn:Hr;
    [|unfold performWrite in H; by rewrite Hs, Hr in H].
  destruct (performWrite_upd _ _ _ _ _ _ _ Hs Hr H) as (_ & Hu & _).
  by eapply allGrow_upd.
Qed.

Lemma performFree_allGrow id i env M M' :
  performFree id i env M = Ok M' -> allGrow M M'.
Proof.
  intros H.
  destruct (segments M !! id) as [s|] eqn:Hs;
    [|unfold performFree in H; by rewrite Hs in H].
  destruct (replicas s !! i) as [r|] eqn:Hr;
    [|unfold performFree in H; by rewrite Hs, Hr in H].
  destruct (performFree_upd _ _ _ _ _ _ _ Hs Hr H) as (Hu & _).
  by eapply allGrow_upd.
Qed.

Lemma recover_allGrow id M : allGrow M (recoverFromLostOpenReplicas id M).
Proof.
  unfold recoverFromLostOpenReplicas.
  destruct (segments M !! id) as [s|]; [|apply allGrow_refl].
  destruct (recoveringFromLostOpenReplicas s); [|apply allGrow_refl].
  destruct (Progress.eqb (getCommitted s) (queued s)).
  - destruct (isAtLeast _ _ _).
    + apply allGrow_modifySegment. intros s0 _.
      unfold grows. simpl.
      repeat split; try done; try lia; apply Progress_le_refl.
    + eapply allGrow_trans; [|apply allGrow_schedule].
      by apply allGrow_same_segments.
  - apply allGrow_schedule.
Qed.

Lemma handleBackupFailure_seg_grows n failedId s :
  Z.of_nat (S n) < 2 ^ 64 -> segInv n s ->
  grows s (handleBackupFailure_seg failedId s).
Proof.
  intros Hn []. unfold handleBackupFailure_seg.
  rewrite handleBackupFailure_loop_spec. simpl.
  set (rs := map _ (replicas s)).
  assert (length rs = length (replicas s)) as Hlen
      by (subst rs; apply length_map).
  assert (grows s (schedule_seg (set_replicas rs s))) as Hsched.
  { apply grows_core; [by rewrite schedule_seg_core|].
    by rewrite schedule_seg_replicas. }
  assert (grows s (set_replicas rs s)) as Hplain by (by apply grows_core).
  assert (forall s1, grows s s1 -> queued s1 = queued s ->
            grows s
              (set_recoveringFromLostOpenReplicas true
                 (set_queued
                    (Progress.set_epoch
                       (wrap64 (Progress.epoch (queued s1) + 1)) (queued s1))
                    s1))) as Hbump.
  { intros s1 Hg Hq1. rewrite Hq1. rewrite wrap64_succ by lia.
    unfold grows in *. simpl.
    destruct Hg as (? & ? & ? & ? & ? & ? & ? & ? & ? & ?).
    repeat split; try done; simpl; lia. }
  destruct (existsb (lostOpenReplica failedId) (replicas s));
    destruct (existsb (lostReplica failedId) (replicas s)); simpl; auto.
  - apply Hbump; [done|]. by rewrite schedule_seg_queued.
  - by apply (Hbump (set_replicas rs s)).
Qed.

(** What [performTask] on segment [id0] leaves of the segments: all of
    them, grown, or all but [id0], which it has destroyed. *)
Lemma performTask_grows id0 env M M' :
  performTask id0 env M = Ok M' ->
  forall id s, segments M !! id = Some s ->
    (exists s', segments M' !! id = Some s' /\ grows s s')
    \/ (segments M' !! id = None /\ Destroyed id ∈ trace M').
Proof.
  intros H. unfold performTask in H.
  destruct (segments M !! id0) as [s0|]; [|done].
  assert (forall M1,
            allGrow M M1 ->
            forall id s, segments M !! id = Some s ->
              (exists s', segments (recoverFromLostOpenReplicas id0 M1) !! id
                          = Some s' /\ grows s s')
              \/ (segments (recoverFromLostOpenReplicas id0 M1) !! id = None
                  /\ Destroyed id
                     ∈ trace (recoverFromLostOpenReplicas id0 M1)))
    as Hkept.
  { intros M1 HM1 id s Hs. left.
    by apply (allGrow_trans M M1 _ HM1 (recover_allGrow id0 M1)). }
  destruct (freeQueued s0 && negb (recoveringFromLostOpenReplicas s0)).
  - destruct (foreachReplica _ _ _ _) as [M1|] eqn:Hloop; [|done].
    simpl in H.
    assert (allGrow M M1) as HM1.
    { eapply (foreachReplica_inv (allGrow M));
        [|apply allGrow_refl|exact Hloop].
      intros i M2 M3 HM2 H23. eapply allGrow_trans; [exact HM2|].
      exact (performFree_allGrow _ _ _ _ _ H23). }
    destruct (segments M1 !! id0) as [s1|]; [|done].
    destruct (negb (scheduled s1)); simpl in H; injection H as <-;
      [|by apply Hkept].
    intros id s Hs.
    assert (segments (recoverFromLostOpenReplicas id0 (destroy id0 M1))
            = delete id0 (segments M1)) as Hseg.
    { unfold recoverFromLostOpenReplicas. simpl.
      by rewrite lookup_delete_eq. }
    rewrite Hseg, recover_trace. simpl.
    destruct (decide (id = id0)) as [->|Hne].
    + right. rewrite lookup_delete_eq. split; [done|].
      apply elem_of_app. right. by apply list_elem_of_singleton.
    + left. rewrite lookup_delete_ne by done. by apply HM1.
  - destruct (negb (freeQueued s0)).
    + destruct (foreachReplica _ _ _ _) as [M1|] eqn:Hloop; [|done].
      simpl in H. injection H as <-. apply Hkept.
      eapply (foreachReplica_inv (allGrow M));
        [|apply allGrow_refl|exact Hloop].
      intros i M2 M3 HM2 H23. eapply allGrow_trans; [exact HM2|].
      exact (performWrite_allGrow _ _ _ _ _ H23).
    + simpl in H. injection H as <-. apply Hkept, allGrow_refl.
Qed.

(** One step: every segment is still there, grown, or it has been
    destroyed and the trace says so. *)
Lemma step_grows n M M' :
  managerInv n M -> Z.of_nat (S n) < 2 ^ 64 -> step M M' ->
  forall id s, segments M !! id = Some s ->
    (exists s', segments M' !! id = Some s' /\ grows s s')
    \/ (segments M' !! id = None /\ Destroyed id ∈ trace M').
Proof.
  intros HM Hn Hstep.
  assert (allGrow M M' ->
          forall id s, segments M !! id = Some s ->
            (exists s', segments M' !! id = Some s' /\ grows s s')
            \/ (segments M' !! id = None /\ Destroyed id ∈ trace M'))
    as Hall.
  { intros Hg id s Hs. left. by apply Hg. }
  destruct Hstep as
    [M M' prev seg normal master id0 numReplicas maxBytes Hnone _ _ _ Hopen
    |M id0 s0 seg Hs0 _ Happ
    |M M' id0 Hclose
    |M id0
    |M M' id0 Hfree
    |M failedId id0
    |M failedId
    |M M' id0 env Htask
    |M id0].
  - (* openSegment *)
    apply Hall. intros id s Hs.
    assert (id <> id0) as Hne by congruence.
    unfold openSegment in Hopen. destruct prev as [p|].
    + destruct (segments M !! p) as [ps|]; [|done]. injection Hopen as <-.
      simpl. rewrite lookup_insert_ne by done.
      destruct (decide (p = id)) as [->|Hnp].
      * rewrite lookup_alter_eq, Hs. simpl. eexists. split; [done|].
        by apply grows_core.
      * rewrite lookup_alter_ne by done. eauto using grows_refl.
    + injection Hopen as <-. simpl. rewrite lookup_insert_ne by done.
      eauto using grows_refl.
  - (* append *)
    apply Hall, allGrow_modifySegment. intros s1 Hs1.
    assert (s1 = s0) as -> by congruence.
    unfold grows. simpl.
    repeat split; try done; try lia; apply Progress_le_refl.
  - (* close *)
    apply Hall. unfold close in Hclose.
    destruct (segments M !! id0) as [s0|] eqn:Hs0; [|done].
    destruct (Progress.close (queued s0)) eqn:Hc; [done|].
    injection Hclose as <-. apply allGrow_modifySegment.
    intros s1 Hs1. assert (s1 = s0) as -> by congruence.
    destruct (HM id0 s0 Hs0) as [_ []].
    eapply grows_trans; [|apply grows_core; [apply schedule_seg_core|];
                          by rewrite schedule_seg_replicas].
    unfold grows, Progress.le. simpl.
    repeat split; try done; try lia.
  - (* sync picks up what was appended *)
    apply Hall, allGrow_modifySegment. intros s0 Hs0.
    destruct (Z.gtb_spec (appendedLength (segment s0))
                (Progress.bytes (queued s0))); [|apply grows_refl].
    eapply grows_trans; [|apply grows_core; [apply schedule_seg_core|];
                          by rewrite schedule_seg_replicas].
    unfold grows, Progress.le. simpl.
    repeat split; try done; try lia.
  - (* free *)
    apply Hall. unfold free_locked in Hfree.
    destruct (segments M !! id0) as [s0|]; [|done].
    repeat match type of Hfree with
           | context [if ?c then _ else _] => destruct c; [done|]
           end.
    injection Hfree as <-.
    eapply allGrow_trans; [|apply allGrow_schedule].
    apply allGrow_modifySegment. intros s1 _.
    unfold grows. simpl. rewrite length_map.
    repeat split; try done; try lia; apply Progress_le_refl.
  - (* handleBackupFailure *)
    apply Hall, allGrow_modifySegment. intros s0 Hs0.
    destruct (HM id0 s0 Hs0) as [_ Hinv].
    by apply (handleBackupFailure_seg_grows n).
  - apply Hall. intros id s Hs. simpl. rewrite lookup_fmap, Hs. simpl.
    eexists. split; [done|]. destruct (HM id s Hs) as [_ Hinv].
    by apply (handleBackupFailure_seg_grows n).
  - (* performTask *)
    unfold taskQueue_performTask in Htask.
    destruct (segments M !! id0) as [s0|]; [|done].
    destruct (scheduled s0); [|injection Htask as <-; apply Hall,
                                 allGrow_refl].
    intros id s Hs.
    assert (allGrow M (modifySegment id0 (set_scheduled false) M)) as Hun.
    { apply allGrow_modifySegment. intros s1 _. by apply grows_core. }
    destruct (Hun id s Hs) as (s1 & Hs1 & Hg1).
    destruct (performTask_grows _ _ _ _ Htask id s1 Hs1)
      as [(s' & Hs' & Hg')|Hgone]; [left|by right].
    eauto using grows_trans.
  - apply Hall. by apply allGrow_same_segments.
Qed.

(** Only [openSegment] files a segment under a key that was free, and
    it takes a key that the trace has not seen. *)
Lemma step_absent M M' id :
  step M M' -> segments M !! id = None ->
  segments M' !! id = None
  \/ forall e, e ∈ trace M -> eventSegment e <> id.
Proof.
  intros Hstep Hid. destruct Hstep as
    [M M' prev seg normal master id0 numReplicas maxBytes Hnone Hfresh _ _
       Hopen
    |M id0 s0 seg Hs0 _ Happ
    |M M' id0 Hclose
    |M id0
    |M M' id0 Hfree
    |M failedId id0
    |M failedId
    |M M' id0 env Htask
    |M id0].
  - destruct (decide (id = id0)) as [->|Hne]; [by right|left].
    unfold openSegment in Hopen. destruct prev as [p|].
    + destruct (segments M !! p) as [ps|] eqn:Hp; [|done].
      injection Hopen as <-. simpl. rewrite lookup_insert_ne by done.
      destruct (decide (p = id)) as [->|Hnp]; [congruence|].
      by rewrite lookup_alter_ne.
    + injection Hopen as <-. simpl. by rewrite lookup_insert_ne.
  - left. simpl. by rewrite lookup_alter_None.
  - left. unfold close in Hclose.
    destruct (segments M !! id0) as [s0|]; [|done].
    destruct (Progress.close (queued s0)); [done|].
    injection Hclose as <-. simpl. by rewrite lookup_alter_None.
  - left. simpl. by rewrite lookup_alter_None.
  - left. unfold free_locked in Hfree.
    destruct (segments M !! id0) as [s0|]; [|done].
    repeat match type of Hfree with
           | context [if ?c then _ else _] => destruct c; [done|]
           end.
    injection Hfree as <-. simpl. by rewrite !lookup_alter_None.
  - left. simpl. by rewrite lookup_alter_None.
  - left. simpl. by rewrite lookup_fmap, Hid.
  - left. unfold taskQueue_performTask in Htask.
    destruct (segments M !! id0) as [s0|] eqn:Hs0; [|done].
    destruct (scheduled s0); [|by injection Htask as <-].
    assert (id <> id0) as Hne by congruence.
    assert (segments (modifySegment id0 (set_scheduled false) M) !! id0
            = Some (set_scheduled false s0)) as Hs1.
    { simpl. by rewrite lookup_alter_eq, Hs0. }
    destruct (performTask_effect _ _ _ _ _ Hs1 Htask)
      as (_ & _ & Hother & _).
    specialize (Hother id Hne). simpl in Hother.
    rewrite lookup_alter_ne, Hid in Hother by done.
    by inversion Hother.
  - by left.
Qed.

Lemma steps_grows n k M M' :
  reachable n M -> steps k M M' -> Z.of_nat (n + k) < 2 ^ 64 ->
  forall id s, segments M !! id = Some s ->
    (exists s', segments M' !! id = Some s' /\ grows s s')
    \/ (segments M' !! id = None /\ Destroyed id ∈ trace M').
Proof.
  intros Hreach Hsteps.
  induction Hsteps as [M|k M M1 M' Hsteps IH Hstep]; intros Hn id s Hs.
  - left. eauto using grows_refl.
  - pose proof (reachable_steps n k M M1 Hreach Hsteps) as Hreach1.
    assert (Z.of_nat (n + k) < 2 ^ 64) as Hn1 by lia.
    destruct (IH Hreach Hn1 id s Hs) as [(s1 & Hs1 & Hg1)|[Hnone Hgone]].
    + pose proof (reachable_inv _ _ Hreach1 Hn1) as HM1.
      assert (Z.of_nat (S (n + k)) < 2 ^ 64) as Hn2 by lia.
      destruct (step_grows _ _ _ HM1 Hn2 Hstep id s1 Hs1)
        as [(s' & Hs' & Hg')|Hgone]; [left|by right].
      eauto using grows_trans.
    + right.
      destruct (step_freed M1 M' (reachable_keysOk _ _ Hreach1) Hstep)
        as (_ & events & Ht & _).
      split.
      * destruct (step_absent _ _ id Hstep Hnone) as [Hn'|Hfresh]; [done|].
        by destruct (Hfresh (Destroyed id) Hgone).
      * rewrite Ht. apply elem_of_app. by left.
Qed.

(** X9.  Whatever steps the master takes from a state it has reached, a
    segment that is still there is the same segment: its id, its master,
    its limits, its opening data and the number of its replicas have not
    changed, what was appended and what is queued have only grown (in
    particular [queued.epoch] never goes back), and a queued free stays
    queued. *)
Theorem segment_grows n k M M' id s s' :
  reachable n M -> steps k M M' -> Z.of_nat (n + k) < 2 ^ 64 ->
  segments M !! id = Some s -> segments M' !! id = Some s' ->
  segmentId s' = segmentId s /\ masterId s' = masterId s
  /\ normalLogSegment s' = normalLogSegment s
  /\ maxBytesPerWriteRpc s' = maxBytesPerWriteRpc s
  /\ openLen s' = openLen s
  /\ openingWriteCertificate s' = openingWriteCertificate s
  /\ length (replicas s') = length (replicas s)
  /\ appendedLength (segment s) <= appendedLength (segment s')
  /\ Progress.le (queued s) (queued s')
  /\ (freeQueued s = true -> freeQueued s' = true).
Proof.
  intros Hreach Hsteps Hn Hs Hs'.
  destruct (steps_grows n k M M' Hreach Hsteps Hn id s Hs)
    as [(s1 & Hs1 & Hg)|[Hnone _]]; [|congruence].
  assert (s1 = s') as -> by congruence. exact Hg.
Qed.

(** ** close, and free after its sync *)

(** What is committed for the segment is committed on each replica. *)
Lemma getCommitted_le s r :
  r ∈ replicas s -> Progress.le (getCommitted s) (Replica.committed r).
Proof.
  unfold getCommitted. induction (replicas s) as [|r0 rs IH]; simpl.
  - by intros ?%elem_of_nil.
  - intros [->|Hr]%elem_of_cons.
    + unfold Progress.le, Progress.min. simpl.
      repeat split; try lia; by intros [? ?]%andb_true_iff.
    + specialize (IH Hr). unfold Progress.le, Progress.min in *. simpl.
      destruct IH as (Ho & Hb & He & Hc).
      repeat split; try lia; intros [? ?]%andb_true_iff; auto.
Qed.

(** A close that is committed was queued. *)
Lemma committed_close_queued n s :
  segInv n s -> replicas s <> [] ->
  Progress.close (getCommitted s) = true ->
  Progress.close (queued s) = true.
Proof.
  intros Hinv Hne Hc.
  destruct (replicas s) as [|r rs] eqn:Hrs; [done|].
  assert (r ∈ replicas s) as Hr by (rewrite Hrs; apply list_elem_of_here).
  destruct (getCommitted_le s r Hr) as (_ & _ & _ & Hclose).
  destruct Hinv. rewrite Forall_forall in inv_replicas0.
  destruct (inv_replicas0 r Hr).
  destruct inv_committed_acked0 as (_ & _ & _ & H1).
  destruct inv_acked_sent0 as (_ & _ & _ & H2).
  destruct inv_sent_queued0 as (_ & _ & _ & H3). auto.
Qed.

(** X10.  [close()] on a segment that has replicas queues the close
    together with all that was appended and its certificate, and
    schedules the segment. The segment is then not synced, a [sync()]
    does not return at its first test, and a second [close()] fails its
    assertion. *)
Theorem close_needs_sync n id M M' s :
  reachable n M -> Z.of_nat n < 2 ^ 64 ->
  segments M !! id = Some s -> replicas s <> [] ->
  close id M = Ok M' ->
  exists s',
    segments M' !! id = Some s'
    /\ queued s'
       = Progress.mk true (appendedLength (segment s))
           (Progress.epoch (queued s)) true
    /\ queuedCertificate s' = appendedCertificate (segment s)
    /\ replicas s' = replicas s
    /\ scheduled s' = true
    /\ isSynced s' = false
    /\ syncDone id NO_OFFSET M' = false
    /\ close id M' = Abort.
Proof.
  intros Hreach Hn Hs Hne H.
  destruct (reachable_inv n M Hreach Hn id s Hs) as [_ Hinv].
  unfold close in H. rewrite Hs in H.
  destruct (Progress.close (queued s)) eqn:Hclose; [done|].
  injection H as HM'.
  assert (Progress.close (getCommitted s) = false) as Hnot.
  { apply not_true_is_false. intros Hc.
    rewrite (committed_close_queued n s Hinv Hne Hc) in Hclose. done. }
  set (s1 := set_queuedCertificate (appendedCertificate (segment s))
               (set_queued
                  (Progress.set_bytes (appendedLength (segment s))
                     (Progress.set_close true (queued s))) s)).
  assert (getCommitted (schedule_seg s1) = getCommitted s) as Hsame.
  { unfold getCommitted. by rewrite schedule_seg_replicas. }
  assert (segments M' !! id = Some (schedule_seg s1)) as Hlook.
  { rewrite <- HM'. simpl. by rewrite lookup_alter_eq, Hs. }
  clear HM'.
  exists (schedule_seg s1). split; [done|].
  rewrite schedule_seg_queued.
  split.
  { subst s1. simpl. unfold Progress.set_bytes, Progress.set_close. simpl.
    destruct Hinv. by rewrite inv_queued_open0. }
  split; [subst s1; unfold schedule_seg; by destruct (replicas _)|].
  split; [by rewrite schedule_seg_replicas|].
  split; [by apply schedule_seg_scheduled|].
  split.
  { unfold isSynced. rewrite Hsame, schedule_seg_queued.
    destruct (negb _); [done|].
    unfold Progress.eqb. subst s1. simpl. rewrite Hnot. simpl.
    by rewrite !andb_false_r. }
  split.
  { unfold syncDone. rewrite Hlook.
    unfold syncReturns. rewrite Hsame, Hnot.
    by destruct (negb _). }
  unfold close. rewrite Hlook.
  by rewrite schedule_seg_queued.
Qed.

(** X11.  [free()] once its [sync()] has returned: on a segment that has
    replicas, the assertions on [queued.close] and on
    [getCommitted().close] hold, so that the free is queued unless a
    following segment is still linked, which is the one assertion left to
    fail. *)
Theorem free_after_sync n id M s :
  reachable n M -> Z.of_nat n < 2 ^ 64 ->
  segments M !! id = Some s -> replicas s <> [] ->
  syncDone id NO_OFFSET M = true ->
  (followingSegment s = None ->
   exists M' s',
     free_locked id M = Ok M' /\ segments M' !! id = Some s'
     /\ freeQueued s' = true /\ scheduled s' = true)
  /\ (followingSegment s <> None -> free_locked id M = Abort).
Proof.
  intros Hreach Hn Hs Hne Hdone.
  destruct (reachable_inv n M Hreach Hn id s Hs) as [_ Hinv].
  unfold syncDone in Hdone. rewrite Hs in Hdone.
  apply syncReturns_spec in Hdone as [_ Hc]. simpl in Hc.
  pose proof (committed_close_queued n s Hinv Hne Hc) as Hq.
  unfold free_locked. rewrite Hs, Hq, Hc. simpl. split.
  - intros Hnone. rewrite Hnone.
    rewrite bool_decide_false by (intros Hn'; by apply Hn').
    eexists _, _. split; [done|]. simpl. rewrite !lookup_alter_eq, Hs.
    simpl. split; [done|]. split.
    + unfold schedule_seg. simpl. by destruct (map _ _).
    + apply schedule_seg_scheduled. simpl.
      destruct (replicas s); [done|]. done.
  - intros Hsome. by rewrite bool_decide_true.
Qed.

(** ** A round of freeing *)

(** The replica needs nothing more: it is inactive, or its free RPC has
    been answered. *)
Definition freedReplica (env : ReplicaEnv) (r : Replica) : bool :=
  negb (Replica.isActive r)
  || match Replica.freeRpc r with
     | Some _ => isReady env
     | None => false
     end.

(** The same of all replicas, the first of which is in slot [i]. *)
Fixpoint allFreed (env : nat -> ReplicaEnv) (i : nat) (rs : list Replica)
    : bool :=
  match rs with
  | [] => true
  | r :: rest => freedReplica (env i) r && allFreed env (S i) rest
  end.

(** The free RPC of a replica that is active and has none yet. *)
Definition freeEvent (master : ServerId) (id : Z) (r : Replica)
    : list Event :=
  if Replica.isActive r then
    match Replica.freeRpc r with
    | Some _ => []
    | None => [FreeIssued (mkFreeSegmentRpc (Replica.backupId r) master id)]
    end
  else [].

Definition freeEvents (master : ServerId) (id : Z) (rs : list Replica)
    : list Event :=
  flat_map (freeEvent master id) rs.

(** One [performFree], in full. *)
Lemma performFree_exact id i env M M' s r :
  segments M !! id = Some s -> replicas s !! i = Some r ->
  performFree id i env M = Ok M' ->
  exists s' g,
    segments M' !! id = Some s'
    /\ (forall id', id' <> id -> segments M' !! id' = segments M !! id')
    /\ core s' = core s
    /\ replicas s' = alter g i (replicas s)
    /\ scheduled s' = scheduled s || negb (freedReplica env r)
    /\ trace M' = trace M ++ freeEvent (masterId s) (segmentId s) r
    /\ writeRpcsInFlight M' = writeRpcsInFlight M.
Proof.
  intros Hs Hr H. unfold performFree in H. rewrite Hs, Hr in H.
  unfold freedReplica, freeEvent.
  assert (replicas s <> []) as Hne.
  { intros Hnil. by rewrite Hnil in Hr. }
  assert (forall M1 : ReplicaManager,
            segments M1 = segments M ->
            forall id', id' <> id ->
              segments (schedule id M1) !! id' = segments M !! id')
    as Hsched.
  { intros M1 E id' Hne'. simpl. by rewrite lookup_alter_ne, E. }
  destruct (Replica.isActive r); simpl in *.
  - destruct (Replica.freeRpc r) as [rpc|].
    + destruct (isReady env); injection H as <-; simpl.
      * exists (set_replicas (alter Replica.reset i (replicas s)) s),
          Replica.reset.
        rewrite lookup_alter_eq, Hs, app_nil_r, orb_false_r. simpl.
        repeat split; try done.
        intros id' Hne'. by rewrite lookup_alter_ne.
      * exists (schedule_seg s), (fun r => r).
        rewrite lookup_alter_eq, Hs, app_nil_r, orb_true_r. simpl.
        split; [done|]. split; [by apply Hsched|].
        split; [apply schedule_seg_core|].
        split; [by rewrite schedule_seg_replicas, list_alter_id|].
        split; [by apply schedule_seg_scheduled|done].
    + destruct (Replica.writeRpc r); [done|]. injection H as <-. simpl.
      eexists (schedule_seg (set_replicas (alter _ i (replicas s)) s)), _.
      rewrite !lookup_alter_eq, Hs, orb_true_r. simpl.
      split; [done|].
      split; [intros id' Hne'; by rewrite !lookup_alter_ne|].
      split; [by rewrite schedule_seg_core|].
      split; [by rewrite schedule_seg_replicas|].
      split; [|done].
      apply schedule_seg_scheduled. simpl. intros Hnil.
      apply (f_equal length) in Hnil. rewrite length_alter in Hnil.
      by destruct (replicas s).
  - injection H as <-. exists s, (fun r => r).
    rewrite app_nil_r, orb_false_r.
    repeat split; try done. by rewrite list_alter_id.
Qed.

(** The loop over the replicas from slot [i] on. *)
Lemma performFree_round id env : forall n i M M' s,
  foreachReplica (fun i => performFree id i (env i)) i n M = Ok M' ->
  segments M !! id = Some s -> length (replicas s) = (i + n)%nat ->
  exists s',
    segments M' !! id = Some s'
    /\ (forall id', id' <> id -> segments M' !! id' = segments M !! id')
    /\ core s' = core s
    /\ scheduled s'
       = scheduled s || negb (allFreed env i (drop i (replicas s)))
    /\ trace M'
       = trace M
         ++ freeEvents (masterId s) (segmentId s) (drop i (replicas s))
    /\ writeRpcsInFlight M' = writeRpcsInFlight M.
Proof.
  induction n as [|n IH]; intros i M M' s H Hs Hlen; simpl in H.
  - injection H as <-. exists s.
    rewrite drop_ge by lia. simpl.
    rewrite app_nil_r, orb_false_r. done.
  - destruct (performFree id i (env i) M) as [M1|] eqn:H1; [|done].
    simpl in H.
    destruct (replicas s !! i) as [r|] eqn:Hr;
      [|apply lookup_ge_None in Hr; lia].
    destruct (performFree_exact _ _ _ _ _ _ _ Hs Hr H1)
      as (s1 & g & Hs1 & Hother1 & Hcore1 & Hrs1 & Hsched1 & Ht1 & Hc1).
    assert (length (replicas s1) = (S i + n)%nat) as Hlen1.
    { rewrite Hrs1, length_alter. lia. }
    destruct (IH (S i) M1 M' s1 H Hs1 Hlen1)
      as (s' & Hs' & Hother & Hcore & Hsched & Ht & Hc).
    assert (drop (S i) (replicas s1) = drop (S i) (replicas s)) as Hdrop.
    { rewrite Hrs1. apply drop_alter_lt. lia. }
    assert (masterId s1 = masterId s /\ segmentId s1 = segmentId s)
      as [Hm Hid].
    { unfold core in Hcore1. by injection Hcore1. }
    rewrite Hdrop, Hm, Hid in *.
    exists s'. split; [done|].
    split; [intros id' Hne; by rewrite Hother, Hother1|].
    split; [congruence|].
    rewrite (drop_S _ _ _ Hr). simpl.
    split; [|split; [|congruence]].
    + rewrite Hsched, Hsched1.
      destruct (scheduled s), (freedReplica (env i) r); simpl; try done.
    + rewrite Ht, Ht1. unfold freeEvents. by rewrite app_assoc.
Qed.

(** X12.  A round of the task queue on a segment whose free is queued (and
    that is not recovering from lost open replicas): every active replica
    that has no free RPC yet gets one, addressed to its backup; the
    segment destroys itself in this round exactly when every replica is
    inactive or has its free RPC answered, and otherwise stays scheduled.
    No other segment is touched. *)
Theorem free_round id env M M' s :
  segments M !! id = Some s -> scheduled s = true ->
  freeQueued s = true -> recoveringFromLostOpenReplicas s = false ->
  taskQueue_performTask id env M = Ok M' ->
  (forall id', id' <> id -> segments M' !! id' = segments M !! id')
  /\ writeRpcsInFlight M' = writeRpcsInFlight M
  /\ if allFreed env 0 (replicas s)
     then segments M' !! id = None
          /\ trace M' = trace M ++ [Destroyed id]
     else trace M'
          = trace M ++ freeEvents (masterId s) (segmentId s) (replicas s)
          /\ exists s', segments M' !! id = Some s'
                        /\ scheduled s' = true /\ freeQueued s' = true.
Proof.
  intros Hs Hsched Hfq Hrec H.
  unfold taskQueue_performTask in H. rewrite Hs, Hsched in H.
  unfold performTask in H. simpl in H. rewrite lookup_alter_eq, Hs in H.
  simpl in H. rewrite Hfq, Hrec in H. simpl in H.
  destruct (foreachReplica _ _ _ _) as [M1|] eqn:Hloop; [|done].
  simpl in H.
  assert (segments (modifySegment id (set_scheduled false) M) !! id
          = Some (set_scheduled false s)) as Hs0.
  { simpl. by rewrite lookup_alter_eq, Hs. }
  destruct (performFree_round id env _ _ _ _ _ Hloop Hs0 eq_refl)
    as (s1 & Hs1 & Hother & Hcore & Hsch & Ht & Hc).
  simpl in Hsch, Ht, Hc. rewrite drop_0 in Hsch, Ht.
  rewrite Hs1 in H.
  assert (forall id', id' <> id -> segments M1 !! id' = segments M !! id')
    as Hother1.
  { intros id' Hne. rewrite Hother by done. simpl.
    by rewrite lookup_alter_ne. }
  assert (freeQueued s1 = true /\ recoveringFromLostOpenReplicas s1 = false)
    as [Hfq1 Hrec1].
  { unfold core in Hcore. simpl in Hcore. injection Hcore. intros.
    split; congruence. }
  rewrite Hsch in H.
  destruct (allFreed env 0 (replicas s)) eqn:Hall; simpl in H;
    injection H as <-.
  - assert (segments (recoverFromLostOpenReplicas id (destroy id M1))
            = delete id (segments M1)) as Hseg.
    { unfold recoverFromLostOpenReplicas. simpl.
      by rewrite lookup_delete_eq. }
    rewrite Hseg, recover_trace.
    split; [intros id' Hne; by rewrite lookup_delete_ne, Hother1|].
    split.
    { unfold recoverFromLostOpenReplicas. simpl.
      by rewrite lookup_delete_eq. }
    split; [apply lookup_delete_eq|]. simpl. rewrite Ht.
    assert (freeEvents (masterId s) (segmentId s) (replicas s) = [])
      as ->; [|by rewrite app_nil_r].
    clear -Hall. revert Hall. generalize O.
    induction (replicas s) as [|r rs IH]; intros i; simpl; [done|].
    intros [Hr Hrest]%andb_true_iff. rewrite (IH _ Hrest), app_nil_r.
    unfold freedReplica in Hr. unfold freeEvent.
    destruct (Replica.isActive r); [|done]. simpl in Hr.
    by destruct (Replica.freeRpc r).
  - unfold recoverFromLostOpenReplicas. rewrite Hs1, Hrec1.
    split; [done|]. split; [done|]. split; [done|].
    exists s1. by rewrite Hsch.
Qed.

(** ** The RPCs a replica holds *)

(** What holds of the RPCs of a replica of segment [s] in every state
    that the master reaches: without a write RPC nothing is sent that
    is not acknowledged; a write RPC is the one for this replica and
    covers the bytes between [acked] and [sent]; there is no free RPC
    before the free is queued; an active replica is on a valid
    backup. *)
Record rpcInv (s : ReplicatedSegment) (r : Replica) : Prop := mkRpcInv {
  inv_idle : Replica.writeRpc r = None -> Replica.sent r = Replica.acked r;
  inv_rpc :
    forall w, Replica.writeRpc r = Some w ->
      w_segmentId w = segmentId s /\ w_masterId w = masterId s
      /\ w_backupId w = Replica.backupId r
      /\ w_offset w = Progress.bytes (Replica.acked r)
      /\ w_offset w + w_length w = Progress.bytes (Replica.sent r)
      /\ w_open w = negb (Progress.open (Replica.committed r));
  inv_no_free : freeQueued s = false -> Replica.freeRpc r = None;
  inv_valid :
    Replica.isActive r = true -> isValid (Replica.backupId r) = true
}.

Definition rpcAll (M : ReplicaManager) : Prop :=
  forall id s, segments M !! id = Some s -> Forall (rpcInv s) (replicas s).

(** The part of the core that [rpcInv] reads. *)
Lemma rpcInv_core s s' r :
  segmentId s' = segmentId s -> masterId s' = masterId s ->
  (freeQueued s' = false -> freeQueued s = false) ->
  rpcInv s r -> rpcInv s' r.
Proof.
  intros Hid Hm Hfq []. constructor; rewrite ?Hid, ?Hm; auto.
Qed.

Lemma rpcInv_fresh s : rpcInv s Replica.fresh.
Proof. by constructor. Qed.

Lemma rpcInv_failed s r : rpcInv s (Replica.failed r).
Proof. by constructor. Qed.

Lemma rpcInv_start s r b :
  repInv s r -> Replica.isActive r = false -> isValid b = true ->
  rpcInv s (Replica.start b r).
Proof.
  intros [] Hact Hb.
  destruct (inv_inactive0 Hact) as (_ & Ha & Hs & Hw & Hf).
  constructor; simpl; try done; congruence.
Qed.

Lemma rpcInv_ack s r :
  rpcInv s r ->
  rpcInv s (Replica.set_writeRpc None (ackWrite (queued s) (openLen s) r)).
Proof.
  intros []. unfold ackWrite.
  destruct (_ || _); constructor; simpl; done.
Qed.

Lemma rpcInv_notup s r :
  rpcInv s r ->
  rpcInv s (Replica.set_writeRpc None
              (Replica.set_sent (Replica.acked r) r)).
Proof. intros []. constructor; simpl; done. Qed.

Lemma rpcInv_sendOpen i s r :
  repInv s r -> rpcInv s r ->
  Replica.writeRpc r = None ->
  Progress.open (Replica.committed r) = false ->
  rpcInv s (Replica.set_sent (sentAfterOpen s (Replica.sent r))
              (Replica.set_writeRpc (Some (openingWrite i s r)) r)).
Proof.
  intros [] [] Hw Hopen. constructor; simpl; try done.
  intros w [= <-]. simpl. rewrite (inv_not_open0 Hopen), Hopen. simpl.
  repeat split; first [done|lia].
Qed.

Lemma rpcInv_sendWrite n i s r :
  segInv n s -> repInv s r -> rpcInv s r ->
  Replica.writeRpc r = None ->
  Progress.open (Replica.committed r) = true ->
  rpcInv s (Replica.set_sent (sentAfterWrite s r (Replica.sent r))
              (Replica.set_writeRpc (Some (dataWrite i s r)) r)).
Proof.
  intros Hs Hr [] Hw Hopen.
  destruct (chunk_bounds n s r Hs Hr Hopen) as (Hsb & Hlen & Hqb).
  constructor; simpl; try done.
  intros w [= <-]. simpl. rewrite (inv_idle0 Hw), Hopen. simpl.
  repeat split; try done.
  rewrite <- (inv_idle0 Hw). symmetry. apply wrap32_small. lia.
Qed.

Lemma rpcInv_afterWrite n id i env s M r :
  segInv n s -> repInv s r -> rpcInv s r ->
  rpcInv s (fst (afterWrite id i env s M r)).
Proof.
  intros Hs Hr Hrpc. unfold afterWrite.
  assert (forall M1 r1,
            repInv s r1 -> rpcInv s r1 ->
            rpcInv s (fst (afterActive i env s M1 r1))) as Hactive.
  { intros M1 r1 Hr1 Hrpc1. unfold afterActive.
    destruct (Replica.writeRpc r1) as [w|] eqn:Hw.
    - destruct (isReady env); [|done]. simpl. unfold afterReady.
      destruct (outcome env).
      + by apply rpcInv_ack.
      + by apply rpcInv_notup.
      + by constructor.
    - destruct (negb (Progress.open (Replica.committed r1))) eqn:Hopen.
      + unfold afterSendOpen.
        destruct (negb (precedingSegmentOpenCommitted s)); [done|].
        destruct (writeRpcsInFlight M1 =? MAX_WRITE_RPCS_IN_FLIGHT); [done|].
        simpl. apply rpcInv_sendOpen; auto.
        by apply negb_true_iff.
      + unfold afterSendWrite.
        destruct (negb (precedingSegmentCloseCommitted s)); [done|].
        destruct (sendClose s r1 && followingNotOpen M1 s); [done|].
        destruct (writeRpcsInFlight M1 =? MAX_WRITE_RPCS_IN_FLIGHT); [done|].
        simpl. apply (rpcInv_sendWrite n); auto.
        by apply negb_false_iff. }
  destruct (Replica.isActive r) eqn:Hact; simpl.
  - destruct (Progress.eqb (Replica.committed r) (queued s)); [done|].
    by apply Hactive.
  - destruct (isValid (selected i env s)) eqn:Hvalid; simpl; [|done].
    apply Hactive; [by apply repInv_start|by apply rpcInv_start].
Qed.

Lemma rpcInv_afterFree env s r :
  freeQueued s = true -> rpcInv s r -> rpcInv s (fst (afterFree env s r)).
Proof.
  intros Hfq Hr. unfold afterFree.
  destruct (negb (Replica.isActive r)); [done|].
  destruct (Replica.freeRpc r).
  - destruct (isReady env); [|done]. simpl. apply rpcInv_fresh.
  - simpl. destruct Hr. constructor; simpl; try done.
    intros Hn. by rewrite Hfq in Hn.
Qed.

Lemma rpcInv_cancelWrite s r : rpcInv s r -> rpcInv s (cancelWrite r).
Proof.
  intros Hr. unfold cancelWrite.
  destruct (negb (Replica.isActive r)); [done|].
  destruct (Replica.writeRpc r) as [w|] eqn:Hw; [|done].
  destruct Hr. constructor; simpl; try done.
  intros w' [= <-]. simpl. by apply inv_rpc0.
Qed.

Lemma rpcAll_upd n id i f M M' :
  upd id i f M M' -> managerInv n M -> rpcAll M ->
  (forall s r, segments M !! id = Some s -> replicas s !! i = Some r ->
               segInv n s -> repInv s r -> rpcInv s r -> rpcInv s (f r)) ->
  rpcAll M'.
Proof.
  intros Hu HM HR Hf id' s' Hs'.
  destruct (upd_lookup_inv _ _ _ _ _ _ _ Hu Hs') as (s & Hs & Hc & Hr).
  destruct (HM id' s Hs) as [_ Hinv]. specialize (HR id' s Hs).
  assert (forall r, rpcInv s r -> rpcInv s' r) as Hcore.
  { intros r. apply rpcInv_core.
    - by apply core_segmentId.
    - unfold core in Hc. by injection Hc.
    - by rewrite (core_freeQueued _ _ Hc). }
  rewrite Hr. case_decide; subst.
  - apply Forall_alter.
    + eapply Forall_impl; [exact HR|]. done.
    + intros r Hri _. apply Hcore, (Hf s r); auto.
      * eapply Forall_lookup_1; [apply Hinv|done].
      * eapply Forall_lookup_1; [exact HR|done].
  - eapply Forall_impl; [exact HR|]. done.
Qed.

Lemma rpcAll_modifySegment id h M :
  (forall s, segments M !! id = Some s ->
             Forall (rpcInv s) (replicas s) ->
             Forall (rpcInv (h s)) (replicas (h s))) ->
  rpcAll M -> rpcAll (modifySegment id h M).
Proof.
  intros Hh HR id' s'. simpl.
  destruct (decide (id = id')) as [<-|Hne].
  - rewrite lookup_alter_eq.
    destruct (segments M !! id) as [s|] eqn:Hs; [|done].
    intros [= <-]. apply Hh; [done|]. by apply (HR id).
  - rewrite lookup_alter_ne by done. apply (HR id').
Qed.

(** A change that leaves alone the replicas and what [rpcInv] reads of
    the segment. *)
Lemma rpcAll_flags id h M :
  (forall s, segmentId (h s) = segmentId s /\ masterId (h s) = masterId s
             /\ freeQueued (h s) = freeQueued s
             /\ replicas (h s) = replicas s) ->
  rpcAll M -> rpcAll (modifySegment id h M).
Proof.
  intros Hh. apply rpcAll_modifySegment. intros s _ Hall.
  destruct (Hh s) as (Hid & Hm & Hfq & Hr). rewrite Hr.
  eapply Forall_impl; [exact Hall|]. intros r.
  apply rpcInv_core; auto. by rewrite Hfq.
Qed.

Lemma schedule_seg_masterId s : masterId (schedule_seg s) = masterId s.
Proof. unfold schedule_seg. by destruct (replicas s). Qed.

Lemma rpcAll_schedule id M : rpcAll M -> rpcAll (schedule id M).
Proof.
  apply rpcAll_flags. intros s.
  destruct (schedule_seg_fields s) as (_ & Hid & _ & _ & Hfq).
  by rewrite schedule_seg_masterId, schedule_seg_replicas.
Qed.

Lemma rpcAll_same_segments M M' :
  segments M' = segments M -> rpcAll M -> rpcAll M'.
Proof. intros E H id s. rewrite E. apply H. Qed.

Lemma rpcAll_recover id M :
  rpcAll M -> rpcAll (recoverFromLostOpenReplicas id M).
Proof.
  intros HR. unfold recoverFromLostOpenReplicas.
  destruct (segments M !! id) as [s|]; [|done].
  destruct (recoveringFromLostOpenReplicas s); [|done].
  destruct (Progress.eqb (getCommitted s) (queued s)).
  - destruct (isAtLeast _ _ _).
    + by apply rpcAll_flags.
    + by apply rpcAll_schedule, (rpcAll_same_segments M).
  - by apply rpcAll_schedule.
Qed.

Lemma rpcAll_destroy id M : rpcAll M -> rpcAll (destroy id M).
Proof.
  intros HR id' s'. simpl. rewrite lookup_delete_Some.
  intros [_ Hs']. by apply (HR id').
Qed.

Lemma performWrite_rpcAll n id i env M M' :
  managerInv n M -> rpcAll M -> performWrite id i env M = Ok M' ->
  rpcAll M'.
Proof.
  intros HM HR H.
  destruct (segments M !! id) as [s|] eqn:Hs;
    [|unfold performWrite in H; by rewrite Hs in H].
  destruct (replicas s !! i) as [r|] eqn:Hr;
    [|unfold performWrite in H; by rewrite Hs, Hr in H].
  destruct (performWrite_upd _ _ _ _ _ _ _ Hs Hr H) as (_ & Hu & _).
  eapply (rpcAll_upd n); [exact Hu|exact HM|exact HR|].
  intros s0 r0 Hs0 Hr0 Hinv Hrinv Hrpc. simplify_eq.
  by apply (rpcInv_afterWrite n).
Qed.

Lemma performFree_rpcAll n id i env M M' s :
  segments M !! id = Some s -> freeQueued s = true ->
  managerInv n M -> rpcAll M -> performFree id i env M = Ok M' ->
  rpcAll M'
  /\ exists s', segments M' !! id = Some s' /\ freeQueued s' = true.
Proof.
  intros Hs Hfq HM HR H.
  destruct (replicas s !! i) as [r|] eqn:Hr;
    [|unfold performFree in H; by rewrite Hs, Hr in H].
  destruct (performFree_upd _ _ _ _ _ _ _ Hs Hr H) as (Hu & _).
  split.
  - eapply (rpcAll_upd n); [exact Hu|exact HM|exact HR|].
    intros s0 r0 Hs0 Hr0 Hinv Hrinv Hrpc. simplify_eq.
    by apply rpcInv_afterFree.
  - destruct (upd_lookup _ _ _ _ _ _ _ Hu Hs Hr) as (s' & Hs' & Hc & _).
    exists s'. split; [done|]. by rewrite (core_freeQueued _ _ Hc).
Qed.

Lemma performTask_rpcAll n id env M M' :
  managerInv n M -> rpcAll M -> performTask id env M = Ok M' -> rpcAll M'.
Proof.
  intros HM HR H. unfold performTask in H.
  destruct (segments M !! id) as [s|] eqn:Hs; [|done].
  destruct (freeQueued s) eqn:Hfq; simpl in H.
  - destruct (negb (recoveringFromLostOpenReplicas s)); simpl in H;
      [|injection H as <-; by apply rpcAll_recover].
    destruct (foreachReplica _ _ _ _) as [M1|] eqn:Hloop; [|done].
    simpl in H.
    assert (managerInv n M1 /\ rpcAll M1
            /\ exists s1, segments M1 !! id = Some s1
                          /\ freeQueued s1 = true) as (_ & HR1 & _).
    { eapply (foreachReplica_inv
                (fun M1 => managerInv n M1 /\ rpcAll M1
                           /\ exists s1, segments M1 !! id = Some s1
                                         /\ freeQueued s1 = true));
        [|by eauto|exact Hloop].
      intros i M2 M3 (HM2 & HR2 & s2 & Hs2 & Hfq2) H23.
      split; [by eapply performFree_inv|].
      by eapply (performFree_rpcAll n). }
    destruct (segments M1 !! id) as [s1|]; [|done].
    destruct (negb (scheduled s1)); simpl in H; injection H as <-;
      auto using rpcAll_recover, rpcAll_destroy.
  - destruct (foreachReplica _ _ _ _) as [M1|] eqn:Hloop; [|done].
    simpl in H. injection H as <-. apply rpcAll_recover.
    assert (managerInv n M1 /\ rpcAll M1) as [_ HR1]; [|done].
    eapply (foreachReplica_inv (fun M1 => managerInv n M1 /\ rpcAll M1));
      [|by eauto|exact Hloop].
    intros i M2 M3 [HM2 HR2] H23.
    split; [by eapply performWrite_inv|by eapply performWrite_rpcAll].
Qed.

Lemma handleBackupFailure_seg_rpc failedId s :
  Forall (rpcInv s) (replicas s) ->
  Forall (rpcInv (handleBackupFailure_seg failedId s))
    (replicas (handleBackupFailure_seg failedId s)).
Proof.
  intros Hall.
  assert (replicas (handleBackupFailure_seg failedId s)
          = map (fun r => if lostReplica failedId r then Replica.failed r
                          else r) (replicas s)) as ->.
  { unfold handleBackupFailure_seg.
    rewrite handleBackupFailure_loop_spec. simpl.
    destruct (existsb (lostOpenReplica failedId) (replicas s)),
      (existsb (lostReplica failedId) (replicas s)); simpl;
      by rewrite ?schedule_seg_replicas. }
  destruct (handleBackupFailure_seg_keeps failedId s) as [Hid Hfq].
  assert (masterId (handleBackupFailure_seg failedId s) = masterId s)
    as Hm.
  { unfold handleBackupFailure_seg.
    destruct (handleBackupFailure_loop _ _ _ _) as [[rs lost] sched].
    destruct lost, sched; simpl; by rewrite ?schedule_seg_masterId. }
  apply Forall_fmap. eapply Forall_impl; [exact Hall|].
  intros r Hr. simpl.
  apply (rpcInv_core s); auto.
  - intros Hf. destruct (freeQueued s) eqn:E; [|done].
    by rewrite Hfq in Hf.
  - destruct (lostReplica failedId r); [apply rpcInv_failed|done].
Qed.

Lemma step_rpcAll n M M' :
  managerInv n M -> rpcAll M -> step M M' -> rpcAll M'.
Proof.
  intros HM HR Hstep. destruct Hstep as
    [M M' prev seg normal master id0 numReplicas maxBytes Hnone _ _ _ Hopen
    |M id0 s0 seg Hs0 _ Happ
    |M M' id0 Hclose
    |M id0
    |M M' id0 Hfree
    |M failedId id0
    |M failedId
    |M M' id0 env Htask
    |M id0].
  - (* openSegment *)
    assert (forall new,
              replicas new = replicate numReplicas Replica.fresh ->
              Forall (rpcInv new) (replicas new)) as Hnew.
    { intros new ->. apply Forall_replicate, rpcInv_fresh. }
    unfold openSegment in Hopen. destruct prev as [p|].
    + destruct (segments M !! p) as [ps|]; [|done]. injection Hopen as <-.
      intros id s. simpl.
      destruct (decide (id0 = id)) as [<-|Hne].
      * rewrite lookup_insert_eq. intros [= <-]. by apply Hnew.
      * rewrite lookup_insert_ne by done.
        apply (rpcAll_flags p (set_followingSegment (Some id0)) M); [|done].
        done.
    + injection Hopen as <-. intros id s. simpl.
      destruct (decide (id0 = id)) as [<-|Hne].
      * rewrite lookup_insert_eq. intros [= <-]. by apply Hnew.
      * rewrite lookup_insert_ne by done. apply (HR id).
  - by apply rpcAll_flags.
  - unfold close in Hclose.
    destruct (segments M !! id0) as [s0|]; [|done].
    destruct (Progress.close (queued s0)); [done|]. injection Hclose as <-.
    apply rpcAll_flags; [|done]. intros s.
    destruct (schedule_seg_fields
                (set_queuedCertificate (appendedCertificate (segment s))
                   (set_queued
                      (Progress.set_bytes (appendedLength (segment s))
                         (Progress.set_close true (queued s))) s)))
      as (_ & Hid & _ & _ & Hfq).
    by rewrite schedule_seg_masterId, schedule_seg_replicas.
  - apply rpcAll_flags; [|done]. intros s.
    destruct (_ >? _); [|done].
    destruct (schedule_seg_fields
                (set_queuedCertificate (appendedCertificate (segment s))
                   (set_queued
                      (Progress.set_bytes (appendedLength (segment s))
                         (queued s)) s)))
      as (_ & Hid & _ & _ & Hfq).
    by rewrite schedule_seg_masterId, schedule_seg_replicas.
  - unfold free_locked in Hfree.
    destruct (segments M !! id0) as [s0|]; [|done].
    repeat match type of Hfree with
           | context [if ?c then _ else _] => destruct c; [done|]
           end.
    injection Hfree as <-. apply rpcAll_schedule.
    apply rpcAll_modifySegment; [|done]. intros s _ Hall. simpl.
    apply Forall_fmap. eapply Forall_impl; [exact Hall|].
    intros r Hr. simpl. apply rpcInv_cancelWrite.
    by apply (rpcInv_core s).
  - apply rpcAll_modifySegment; [|done]. intros s _.
    apply handleBackupFailure_seg_rpc.
  - intros id s'. simpl. rewrite lookup_fmap.
    destruct (segments M !! id) as [s|] eqn:Hs; [|done].
    intros [= <-]. by apply handleBackupFailure_seg_rpc, (HR id).
  - unfold taskQueue_performTask in Htask.
    destruct (segments M !! id0) as [s0|]; [|done].
    destruct (scheduled s0); [|by injection Htask as <-].
    eapply (performTask_rpcAll n); [| |exact Htask].
    + by apply managerInv_flags.
    + by apply rpcAll_flags.
  - by apply (rpcAll_same_segments M).
Qed.

Lemma reachable_rpcAll n M :
  reachable n M -> Z.of_nat n < 2 ^ 64 -> rpcAll M.
Proof.
  induction 1 as [|n M M' Hreach IH Hstep]; intros Hn.
  - intros id s Hs. simpl in Hs. by rewrite lookup_empty in Hs.
  - apply (step_rpcAll n M); [|apply IH; lia|done].
    apply reachable_inv; [done|lia].
Qed.

(** X13.  In every state that the master reaches, a replica without a
    write RPC has nothing sent that is not acknowledged, and the write RPC
    of a replica that has one is the RPC for this segment, to the backup
    of this active replica, a valid one, and covers exactly the bytes
    between [acked] and [sent]; it is an opening write exactly when the
    open of the replica is not committed. *)
Theorem write_rpc_of_replica n M id s r :
  reachable n M -> Z.of_nat n < 2 ^ 64 ->
  segments M !! id = Some s -> r ∈ replicas s ->
  match Replica.writeRpc r with
  | None => Replica.sent r = Replica.acked r
  | Some w =>
      Replica.isActive r = true
      /\ w_segmentId w = id /\ w_masterId w = masterId s
      /\ w_backupId w = Replica.backupId r
      /\ isValid (w_backupId w) = true
      /\ w_offset w = Progress.bytes (Replica.acked r)
      /\ w_offset w + w_length w = Progress.bytes (Replica.sent r)
      /\ w_open w = negb (Progress.open (Replica.committed r))
  end.
Proof.
  intros Hreach Hn Hs Hr.
  destruct (reachable_inv n M Hreach Hn id s Hs) as [Hid Hinv].
  pose proof (reachable_rpcAll n M Hreach Hn id s Hs) as Hrpc.
  destruct Hinv. rewrite Forall_forall in inv_replicas0, Hrpc.
  destruct (inv_replicas0 r Hr), (Hrpc r Hr).
  destruct (Replica.writeRpc r) as [w|] eqn:Hw; [|by apply inv_idle0].
  destruct (inv_rpc0 w eq_refl) as (Hwid & Hm & Hb & Ho & Hl & Hop).
  assert (Replica.isActive r = true) as Hact.
  { destruct (Replica.isActive r) eqn:Hact; [done|].
    by destruct (inv_inactive0 eq_refl) as (_ & _ & _ & ? & _). }
  repeat split; try done; try congruence.
  rewrite Hb. by apply inv_valid0.
Qed.

(** X14.  In every state that the master reaches, a replica has a free RPC
    only if the free of its segment is queued: the assertion at the head
    of [performWrite] holds for every replica of a segment that
    [performTask] writes to. *)
Theorem free_rpc_only_after_free n M id s r :
  reachable n M -> Z.of_nat n < 2 ^ 64 ->
  segments M !! id = Some s -> r ∈ replicas s ->
  freeQueued s = false -> Replica.freeRpc r = None.
Proof.
  intros Hreach Hn Hs Hr Hfq.
  pose proof (reachable_rpcAll n M Hreach Hn id s Hs) as Hrpc.
  rewrite Forall_forall in Hrpc. destruct (Hrpc r Hr). auto.
Qed.

(** *** A synced segment has nothing to do *)

Lemma performWrite_synced_loop id env M s : forall n i,
  segments M !! id = Some s ->
  (forall j r, replicas s !! j = Some r ->
               Replica.freeRpc r = None /\ Replica.isActive r = true
               /\ Replica.committed r = queued s) ->
  (i + n <= length (replicas s))%nat ->
  foreachReplica (fun i => performWrite id i (env i)) i n M = Ok M.
Proof.
  induction n as [|n IH]; intros i Hs Hall Hlen; simpl; [done|].
  destruct (replicas s !! i) as [r|] eqn:Hr;
    [|apply lookup_ge_None in Hr; lia].
  destruct (Hall i r Hr) as (Hf & Hact & Hc).
  unfold performWrite at 1.
  rewrite Hs, Hr, Hf, Hact, Hc, Progress_eqb_refl. simpl.
  apply IH; auto. lia.
Qed.

(** X15.  In a state that the master has reached, [performTask] on a
    segment that is synced and not freed changes nothing and sends
    nothing. *)
Theorem synced_segment_idle n M id s env :
  reachable n M -> Z.of_nat n < 2 ^ 64 ->
  segments M !! id = Some s ->
  isSynced s = true -> freeQueued s = false ->
  performTask id env M = Ok M.
Proof.
  intros Hreach Hn Hs Hsync Hfq.
  destruct (reachable_inv n M Hreach Hn id s Hs) as [Hid Hinv].
  pose proof (reachable_rpcAll n M Hreach Hn id s Hs) as Hrpc.
  unfold isSynced in Hsync.
  destruct (negb (Progress.bytes (queued s) =? appendedLength (segment s)));
    [done|].
  apply andb_true_iff in Hsync as [Hrec Hc].
  apply negb_true_iff in Hrec. apply Progress_eqb_eq in Hc.
  unfold performTask. rewrite Hs, Hfq. simpl.
  rewrite (performWrite_synced_loop id env M s); [|done| |simpl; lia].
  - simpl. unfold recoverFromLostOpenReplicas. by rewrite Hs, Hrec.
  - intros j r Hr. apply list_elem_of_lookup_2 in Hr.
    destruct Hinv. rewrite Forall_forall in inv_replicas0, Hrpc.
    destruct (inv_replicas0 r Hr), (Hrpc r Hr).
    pose proof (getCommitted_le s r Hr) as Hle. rewrite Hc in Hle.
    assert (Replica.committed r = queued s) as Heq.
    { unfold Progress.le in *.
      destruct inv_committed_acked0 as (? & ? & ? & ?).
      destruct inv_acked_sent0 as (? & ? & ? & ?).
      destruct inv_sent_queued0 as (? & ? & ? & ?).
      destruct Hle as (? & ? & ? & ?).
      destruct (Replica.committed r) as [co cb ce cc],
        (queued s) as [qo qb qe qc],
        (Replica.acked r) as [ao ab ae ac],
        (Replica.sent r) as [so sb se sc]. simpl in *.
      f_equal; try lia.
      - destruct co, qo; auto; symmetry; auto.
      - destruct cc, qc; auto; symmetry; auto. }
    split; [by apply inv_no_free0|]. split; [|done].
    destruct (Replica.isActive r) eqn:Hact; [done|].
    destruct (inv_inactive0 eq_refl) as (Hzero & _).
    rewrite Heq in Hzero. by rewrite Hzero in inv_queued_open0.
Qed.

(** ** What the following segment is told *)

Lemma schedule_seg_following s :
  followingSegment (schedule_seg s) = followingSegment s.
Proof. unfold schedule_seg. by destruct (replicas s). Qed.

Lemma writeRpcDone_lookup id i s r' M1 s1 f fs1 :
  segments M1 !! id = Some s1 -> segments M1 !! f = Some fs1 -> f <> id ->
  exists s',
    segments (writeRpcDone id i s r' M1) !! id = Some s'
    /\ segments (writeRpcDone id i s r' M1) !! f = Some fs1
    /\ replicas s' = alter (Replica.set_writeRpc None) i (replicas s1)
    /\ followingSegment s' = followingSegment s1.
Proof.
  intros Hs1 Hfs1 Hne. unfold writeRpcDone.
  destruct (_ || _); simpl.
  - rewrite !lookup_alter_eq, Hs1. simpl.
    rewrite !lookup_alter_ne, Hfs1 by done.
    eexists. split; [done|]. split; [done|].
    by rewrite schedule_seg_replicas, schedule_seg_following.
  - rewrite !lookup_alter_eq, Hs1. simpl.
    rewrite !lookup_alter_ne, Hfs1 by done.
    eexists. split; [done|]. split; [done|]. done.
Qed.

(** X16.  [performWrite] finds the write RPC of a replica of segment [id]
    completed successfully, and segment [f] follows [id] in the log. What
    is now committed for [id] is passed on: [f] learns that the open of
    its predecessor is committed as soon as it is, and likewise for the
    close; once the close is committed the link to [f] is cut. The flags
    of [f] are set on no other ground, and nothing else of [f] changes. *)
Theorem performWrite_tells_following id i env M M' s r w f fs :
  segments M !! id = Some s -> replicas s !! i = Some r ->
  Replica.isActive r = true -> Replica.writeRpc r = Some w ->
  Progress.eqb (Replica.committed r) (queued s) = false ->
  isReady env = true -> outcome env = RpcOk ->
  followingSegment s = Some f -> f <> id -> segments M !! f = Some fs ->
  performWrite id i env M = Ok M' ->
  exists s' fs',
    segments M' !! id = Some s' /\ segments M' !! f = Some fs'
    /\ getCommitted s'
       = getCommitted
           (set_replicas
              (alter (ackWrite (queued s) (openLen s)) i (replicas s)) s)
    /\ precedingSegmentOpenCommitted fs'
       = precedingSegmentOpenCommitted fs || Progress.open (getCommitted s')
    /\ precedingSegmentCloseCommitted fs'
       = precedingSegmentCloseCommitted fs
         || Progress.close (getCommitted s')
    /\ followingSegment s'
       = (if Progress.close (getCommitted s') then None else Some f)
    /\ core fs' = core fs /\ replicas fs' = replicas fs
    /\ followingSegment fs' = followingSegment fs
    /\ scheduled fs' = scheduled fs.
Proof.
  intros Hs Hr Hact Hw Hneq Hready Hout Hf Hne Hfs H.
  unfold performWrite in H. rewrite Hs, Hr, Hact, Hneq in H.
  destruct (Replica.freeRpc r); [done|]. simpl in H.
  unfold performWrite_active in H. rewrite Hw, Hready in H.
  unfold writeRpcReady in H. rewrite Hout in H.
  unfold propagateToFollowing in H. simpl in H.
  rewrite lookup_alter_eq, Hs in H. simpl in H. rewrite Hf in H.
  rewrite lookup_alter_ne, Hfs in H by done.
  set (sa := set_replicas
               (alter (ackWrite (queued s) (openLen s)) i (replicas s)) s)
    in *.
  assert (forall M1 s1 fs1,
            segments M1 !! id = Some s1 -> segments M1 !! f = Some fs1 ->
            replicas s1 = replicas sa ->
            exists s',
              segments
                (writeRpcDone id i s (ackWrite (queued s) (openLen s) r) M1)
                !! id = Some s'
              /\ segments
                   (writeRpcDone id i s
                      (ackWrite (queued s) (openLen s) r) M1)
                   !! f = Some fs1
              /\ getCommitted s' = getCommitted sa
              /\ followingSegment s' = followingSegment s1) as Hdone.
  { intros M1 s1 fs1 Hs1 Hfs1 E.
    destruct (writeRpcDone_lookup id i s
                (ackWrite (queued s) (openLen s) r) M1 s1 f fs1
                Hs1 Hfs1 Hne) as (s' & Hs' & Hfs' & Hrs & Hfol).
    exists s'. split; [done|]. split; [done|]. split; [|done].
    unfold getCommitted. rewrite Hrs, <- E.
    apply (getCommitted_alter (Replica.set_writeRpc None) i s1). done. }
  destruct (Progress.open (getCommitted sa)) eqn:Hopen; simpl in H.
  - rewrite lookup_alter_ne in H by done. simpl in H.
    rewrite lookup_alter_eq, Hs in H. simpl in H. fold sa in H.
    destruct (Progress.close (getCommitted sa)) eqn:Hclose; simpl in H.
    + rewrite Hf in H. rewrite lookup_alter_eq in H.
      rewrite lookup_alter_ne in H by done. rewrite Hfs in H. simpl in H.
      injection H as <-.
      match goal with
      | |- context [writeRpcDone _ _ _ _ ?M1] =>
          edestruct (Hdone M1 (set_followingSegment None sa)
                   (set_precedingSegmentCloseCommitted true
                      (set_precedingSegmentOpenCommitted true fs)))
        as (s' & Hs' & Hfs' & Hc & Hfol); [| |reflexivity|]
      end.
      { simpl. rewrite lookup_alter_eq. rewrite !lookup_alter_ne by done.
        by rewrite lookup_alter_eq, Hs. }
      { simpl. rewrite lookup_alter_ne by done. rewrite !lookup_alter_eq.
        rewrite lookup_alter_ne by done. by rewrite Hfs. }
      exists s'. eexists. split; [exact Hs'|]. split; [exact Hfs'|].
      rewrite Hc, Hopen, Hclose, Hfol, !orb_true_r. done.
    + injection H as <-.
      match goal with
      | |- context [writeRpcDone _ _ _ _ ?M1] =>
          edestruct (Hdone M1 sa (set_precedingSegmentOpenCommitted true fs))
        as (s' & Hs' & Hfs' & Hc & Hfol); [| |reflexivity|]
      end.
      { simpl. rewrite lookup_alter_ne by done.
        by rewrite lookup_alter_eq, Hs. }
      { simpl. rewrite lookup_alter_eq.
        rewrite lookup_alter_ne by done. by rewrite Hfs. }
      exists s'. eexists. split; [exact Hs'|]. split; [exact Hfs'|].
      rewrite Hc, Hopen, Hclose, Hfol, orb_true_r, orb_false_r. done.
  - rewrite lookup_alter_eq, Hs in H. simpl in H. fold sa in H.
    destruct (Progress.close (getCommitted sa)) eqn:Hclose; simpl in H.
    + rewrite Hf in H. rewrite lookup_alter_ne in H by done.
      rewrite Hfs in H. simpl in H. injection H as <-.
      match goal with
      | |- context [writeRpcDone _ _ _ _ ?M1] =>
          edestruct (Hdone M1 (set_followingSegment None sa)
                   (set_precedingSegmentCloseCommitted true fs))
        as (s' & Hs' & Hfs' & Hc & Hfol); [| |reflexivity|]
      end.
      { simpl. rewrite lookup_alter_eq. rewrite lookup_alter_ne by done.
        by rewrite lookup_alter_eq, Hs. }
      { simpl. rewrite lookup_alter_ne by done. rewrite lookup_alter_eq.
        rewrite lookup_alter_ne by done. by rewrite Hfs. }
      exists s'. eexists. split; [exact Hs'|]. split; [exact Hfs'|].
      rewrite Hc, Hopen, Hclose, Hfol, orb_true_r, orb_false_r. done.
    + injection H as <-.
      match goal with
      | |- context [writeRpcDone _ _ _ _ ?M1] =>
          edestruct (Hdone M1 sa fs)
        as (s' & Hs' & Hfs' & Hc & Hfol); [| |reflexivity|]
      end.
      { simpl. by rewrite lookup_alter_eq, Hs. }
      { simpl. rewrite lookup_alter_ne by done. by rewrite Hfs. }
      exists s'. eexists. split; [exact Hs'|]. split; [exact Hfs'|].
      rewrite Hc, Hopen, Hclose, Hfol, !orb_false_r. done.
Qed.

(** ** Where the replicas of a segment are *)

(** No two active replicas of the list are on the same backup. *)
Definition distinctBackups (rs : list Replica) : Prop :=
  forall j k rj rk,
    rs !! j = Some rj -> rs !! k = Some rk ->
    Replica.isActive rj = true -> Replica.isActive rk = true ->
    Replica.backupId rj = Replica.backupId rk -> j = k.

(** The constraints handed to the selector are the backups of the
    active replicas. *)
Lemma elem_of_constraints b rs :
  b ∈ constraints rs
  <-> exists r, r ∈ rs /\ Replica.isActive r = true
                /\ Replica.backupId r = b.
Proof.
  induction rs as [|r0 rs IH]; simpl.
  - split; [by intros ?%elem_of_nil|].
    by intros (r & ?%elem_of_nil & _).
  - destruct (Replica.isActive r0) eqn:Hact.
    + rewrite elem_of_cons, IH. split.
      * intros [->|(r & Hr & Ha & Hb)].
        -- exists r0. split; [apply list_elem_of_here|done].
        -- exists r. split; [by apply list_elem_of_further|done].
      * intros (r & [->|Hr]%elem_of_cons & Ha & Hb); [by left|].
        right. eauto.
    + rewrite IH. split.
      * intros (r & Hr & Ha & Hb).
        exists r. split; [by apply list_elem_of_further|done].
      * intros (r & [->|Hr]%elem_of_cons & Ha & Hb); [congruence|].
        eauto.
Qed.

(** An active replica that [performWrite] leaves is on the backup it
    was on, or on the backup the selector has just offered. *)
Lemma afterWrite_backup id i env s M r :
  Replica.isActive (fst (afterWrite id i env s M r)) = true ->
  (Replica.isActive r = true
   /\ Replica.backupId (fst (afterWrite id i env s M r))
      = Replica.backupId r)
  \/ (Replica.isActive r = false
      /\ Replica.backupId (fst (afterWrite id i env s M r))
         = selected i env s).
Proof.
  unfold afterWrite.
  assert (forall M1 r1,
            Replica.isActive (fst (afterActive i env s M1 r1)) = true ->
            Replica.isActive r1 = true
            /\ Replica.backupId (fst (afterActive i env s M1 r1))
               = Replica.backupId r1) as Hactive.
  { intros M1 r1. unfold afterActive, afterReady, afterSendOpen,
      afterSendWrite, ackWrite.
    repeat match goal with
           | |- context [match ?c with _ => _ end] => destruct c
           end; simpl; done. }
  destruct (Replica.isActive r) eqn:Hact; simpl.
  - destruct (Progress.eqb (Replica.committed r) (queued s)); simpl.
    + intros _. by left.
    + intros H. left. destruct (Hactive _ _ H). done.
  - destruct (isValid (selected i env s)); simpl.
    + intros H. right. by destruct (Hactive _ _ H).
    + by rewrite Hact.
Qed.

(** X17.  As long as the selector offers a backup that is not among the
    constraints it is given, [performWrite] keeps the active replicas of
    the segment on distinct backups. *)
Theorem performWrite_distinct_backups id i env M M' s r :
  segments M !! id = Some s -> replicas s !! i = Some r ->
  distinctBackups (replicas s) ->
  selected i env s ∉ constraints (replicas s) ->
  performWrite id i env M = Ok M' ->
  exists s', segments M' !! id = Some s'
             /\ distinctBackups (replicas s').
Proof.
  intros Hs Hr Hdist Hsel H.
  destruct (performWrite_upd _ _ _ _ _ _ _ Hs Hr H) as (_ & Hu & _).
  destruct (upd_lookup _ _ _ _ _ _ _ Hu Hs Hr) as (s' & Hs' & _ & Hrs & _).
  exists s'. split; [done|]. rewrite Hrs.
  set (r' := fst (afterWrite id i env s M r)).
  assert (forall k rk,
            k <> i -> replicas s !! k = Some rk ->
            Replica.isActive r' = true -> Replica.isActive rk = true ->
            Replica.backupId r' = Replica.backupId rk -> False) as Hclash.
  { intros k rk Hk Hrk Hact' Hactk Hb.
    destruct (afterWrite_backup id i env s M r Hact')
      as [[Hact Hsame]|[Hact Hnew]]; fold r' in Hsame || fold r' in Hnew.
    - apply Hk. symmetry. apply (Hdist i k r rk); auto. congruence.
    - apply Hsel, elem_of_constraints. exists rk.
      split; [by eapply list_elem_of_lookup_2|]. split; [done|congruence]. }
  apply lookup_lt_Some in Hr as Hlt.
  intros j k rj rk Hj Hk Hactj Hactk Hb.
  destruct (decide (j = i)) as [->|Hji], (decide (k = i)) as [->|Hki];
    try done.
  - rewrite list_lookup_insert_eq in Hj by done. injection Hj as <-.
    rewrite list_lookup_insert_ne in Hk by done.
    by destruct (Hclash k rk).
  - rewrite list_lookup_insert_eq in Hk by done. injection Hk as <-.
    rewrite list_lookup_insert_ne in Hj by done.
    by destruct (Hclash j rj).
  - rewrite list_lookup_insert_ne in Hj, Hk by done.
    by apply (Hdist j k rj rk).
Qed.

(** ** A task minds its own segment *)

(** Between [M] and [M'] the segments other than [id] have kept their
    core and their replicas. *)
Definition othersKept (id : Z) (M M' : ReplicaManager) : Prop :=
  forall id', id' <> id ->
    option_Forall2
      (fun s s' => core s' = core s /\ replicas s' = replicas s)
      (segments M !! id') (segments M' !! id').

Lemma othersKept_refl id M : othersKept id M M.
Proof. intros id' _. by destruct (segments M !! id'); constructor. Qed.

Lemma othersKept_trans id M1 M2 M3 :
  othersKept id M1 M2 -> othersKept id M2 M3 -> othersKept id M1 M3.
Proof.
  intros H12 H23 id' Hne. specialize (H12 id' Hne).
  specialize (H23 id' Hne).
  destruct H12 as [s1 s2 [? ?]|]; inversion H23 as [? s3 [? ?]|]; subst;
    constructor.
  split; congruence.
Qed.

Lemma othersKept_upd id i f M M' : upd id i f M M' -> othersKept id M M'.
Proof.
  intros Hu id' Hne. specialize (Hu id').
  destruct Hu as [s s' [Hc Hr]|]; constructor.
  by rewrite decide_False in Hr.
Qed.

Lemma othersKept_same id M M' :
  (forall id', id' <> id -> segments M' !! id' = segments M !! id') ->
  othersKept id M M'.
Proof.
  intros E id' Hne. rewrite (E id' Hne).
  by destruct (segments M !! id'); constructor.
Qed.

Lemma othersKept_recover id M :
  othersKept id M (recoverFromLostOpenReplicas id M).
Proof.
  apply othersKept_same. intros id' Hne.
  unfold recoverFromLostOpenReplicas.
  repeat match goal with
         | |- context [match ?c with _ => _ end] => destruct c
         end; simpl; by rewrite ?lookup_alter_ne.
Qed.

(** X18.  [performTask] on segment [id] leaves the core and the replicas
    of every other segment as they are (of the following segment it sets
    the two flags about its predecessor, nothing else), and every RPC it
    constructs and every segment it destroys is [id]. *)
Theorem performTask_minds_its_own id env M M' s :
  segments M !! id = Some s -> segmentId s = id ->
  performTask id env M = Ok M' ->
  (forall id', id' <> id ->
     option_Forall2
       (fun s1 s1' => core s1' = core s1 /\ replicas s1' = replicas s1)
       (segments M !! id') (segments M' !! id'))
  /\ exists events,
       trace M' = trace M ++ events
       /\ forall e, e ∈ events -> eventSegment e = id.
Proof.
  intros Hs Hid H. split.
  - unfold performTask in H. rewrite Hs in H.
    assert (forall M1,
              foreachReplica (fun i => performFree id i (env i)) 0
                (length (replicas s)) M = Ok M1 ->
              othersKept id M M1) as Hfree.
    { intros M1 Hloop.
      eapply (foreachReplica_inv (othersKept id M));
        [|apply othersKept_refl|exact Hloop].
      intros i M2 M3 HM2 H23. eapply othersKept_trans; [exact HM2|].
      simpl in H23.
      destruct (segments M2 !! id) as [s2|] eqn:Hs2;
        [|unfold performFree in H23; by rewrite Hs2 in H23].
      destruct (replicas s2 !! i) as [r2|] eqn:Hr2;
        [|unfold performFree in H23; by rewrite Hs2, Hr2 in H23].
      destruct (performFree_upd _ _ _ _ _ _ _ Hs2 Hr2 H23) as (Hu & _).
      by eapply othersKept_upd. }
    assert (forall M1,
              foreachReplica (fun i => performWrite id i (env i)) 0
                (length (replicas s)) M = Ok M1 ->
              othersKept id M M1) as Hwrite.
    { intros M1 Hloop.
      eapply (foreachReplica_inv (othersKept id M));
        [|apply othersKept_refl|exact Hloop].
      intros i M2 M3 HM2 H23. eapply othersKept_trans; [exact HM2|].
      simpl in H23.
      destruct (segments M2 !! id) as [s2|] eqn:Hs2;
        [|unfold performWrite in H23; by rewrite Hs2 in H23].
      destruct (replicas s2 !! i) as [r2|] eqn:Hr2;
        [|unfold performWrite in H23; by rewrite Hs2, Hr2 in H23].
      destruct (performWrite_upd _ _ _ _ _ _ _ Hs2 Hr2 H23)
        as (_ & Hu & _).
      by eapply othersKept_upd. }
    destruct (freeQueued s && negb (recoveringFromLostOpenReplicas s)).
    + destruct (foreachReplica _ _ _ _) as [M1|] eqn:Hloop; [|done].
      simpl in H. pose proof (Hfree M1 eq_refl) as HM1.
      destruct (segments M1 !! id) as [s1|]; [|done].
      destruct (negb (scheduled s1)); simpl in H; injection H as <-.
      * eapply othersKept_trans; [exact HM1|].
        eapply othersKept_trans; [|apply othersKept_recover].
        apply othersKept_same. intros id' Hne. simpl.
        by rewrite lookup_delete_ne.
      * eapply othersKept_trans; [exact HM1|apply othersKept_recover].
    + destruct (negb (freeQueued s)).
      * destruct (foreachReplica _ _ _ _) as [M1|] eqn:Hloop; [|done].
        simpl in H. injection H as <-.
        eapply othersKept_trans; [by apply Hwrite|].
        apply othersKept_recover.
      * simpl in H. injection H as <-. apply othersKept_recover.
  - destruct (performTask_effect _ _ _ _ _ Hs H)
      as (events & Ht & _ & _ & Hkind).
    exists events. split; [done|]. intros e He. rewrite Hid in Hkind.
    destruct (freeQueued s); rewrite Forall_forall in Hkind;
      specialize (Hkind e He).
    + destruct Hkind as [(fr & -> & Hfr)| ->]; done.
    + destruct Hkind as (w & -> & Hw). done.
Qed.

(** ** C1: the acknowledgement of a write, in every state *)

(** What holds of the certificate of the write RPC of a replica of
    segment [s] in every state that the master reaches.  Progress that
    is open includes the opening bytes.  An opening write carries the
    opening certificate unless the replica is replicated atomically.  A
    write that is not the opening one and carries no certificate ends
    before the end of the queued data and, when a write may carry bytes
    at all, behind the opening bytes. *)
Record certInv (s : ReplicatedSegment) (r : Replica) : Prop := mkCertInv {
  inv_open_committed :
    Progress.open (Replica.committed r) = true ->
    openLen s <= Progress.bytes (Replica.committed r);
  inv_open_acked :
    Progress.open (Replica.acked r) = true ->
    openLen s <= Progress.bytes (Replica.acked r);
  inv_open_sent :
    Progress.open (Replica.sent r) = true ->
    openLen s <= Progress.bytes (Replica.sent r);
  inv_cert_open :
    forall w, Replica.writeRpc r = Some w -> w_open w = true ->
      w_certificate w
      = if Replica.replicateAtomically r then None
        else Some (openingWriteCertificate s);
  inv_cert_data :
    forall w, Replica.writeRpc r = Some w -> w_open w = false ->
      w_certificate w = None ->
      Progress.bytes (Replica.sent r) < Progress.bytes (queued s)
      /\ (0 < maxBytesPerWriteRpc s ->
          openLen s < Progress.bytes (Replica.sent r))
}.

Definition certAll (M : ReplicaManager) : Prop :=
  forall id s, segments M !! id = Some s -> Forall (certInv s) (replicas s).

(** The part of the segment that [certInv] reads; what is queued may
    have grown. *)
Lemma certInv_core s s' r :
  openLen s' = openLen s ->
  maxBytesPerWriteRpc s' = maxBytesPerWriteRpc s ->
  openingWriteCertificate s' = openingWriteCertificate s ->
  Progress.bytes (queued s) <= Progress.bytes (queued s') ->
  certInv s r -> certInv s' r.
Proof.
  intros Hol Hmax Hcert Hq []. constructor; rewrite ?Hol, ?Hmax, ?Hcert;
    auto.
  intros w Hw Hopen Hnone.
  destruct (inv_cert_data0 w Hw Hopen Hnone) as [Hlt Hbehind].
  split; [lia|done].
Qed.

Lemma certInv_fresh s : certInv s Replica.fresh.
Proof. by constructor. Qed.

Lemma certInv_failed s r : certInv s (Replica.failed r).
Proof. by constructor. Qed.

Lemma certInv_start s r b : certInv s r -> certInv s (Replica.start b r).
Proof. intros []. by constructor. Qed.

Lemma certInv_ack s r :
  certInv s r ->
  certInv s (Replica.set_writeRpc None (ackWrite (queued s) (openLen s) r)).
Proof.
  intros []. unfold ackWrite.
  destruct (_ || _); constructor; simpl; done.
Qed.

Lemma certInv_notup s r :
  certInv s r ->
  certInv s (Replica.set_writeRpc None
               (Replica.set_sent (Replica.acked r) r)).
Proof. intros []. constructor; simpl; done. Qed.

Lemma certInv_sendOpen i s r :
  certInv s r ->
  certInv s (Replica.set_sent (sentAfterOpen s (Replica.sent r))
               (Replica.set_writeRpc (Some (openingWrite i s r)) r)).
Proof.
  intros []. constructor; simpl; try done.
  - by intros w [= <-] _.
  - by intros w [= <-].
Qed.

Lemma certInv_sendWrite n i s r :
  segInv n s -> repInv s r -> certInv s r ->
  Progress.open (Replica.committed r) = true ->
  certInv s (Replica.set_sent (sentAfterWrite s r (Replica.sent r))
               (Replica.set_writeRpc (Some (dataWrite i s r)) r)).
Proof.
  intros Hs Hr [] Hopen.
  destruct (chunk_bounds n s r Hs Hr Hopen) as (Hsb & Hlen & Hqb).
  assert (openLen s <= Progress.bytes (Replica.sent r)) as Hol.
  { destruct Hr.
    destruct inv_committed_acked0 as (_ & ? & _).
    destruct inv_acked_sent0 as (_ & ? & _).
    specialize (inv_open_committed0 Hopen). lia. }
  constructor; simpl; try done.
  - intros _. rewrite wrap32_small by lia. lia.
  - by intros w [= <-].
  - intros w [= <-] _. simpl. unfold chunk in *.
    rewrite (wrap32_small (Progress.bytes (queued s)
                           - Progress.bytes (Replica.sent r))) in * by lia.
    destruct (Z.gtb_spec
                (Progress.bytes (queued s) - Progress.bytes (Replica.sent r))
                (maxBytesPerWriteRpc s)) as [Hgt|Hle]; simpl in *; [|done].
    intros _. destruct Hs. rewrite wrap32_small by lia. lia.
Qed.

Lemma certInv_afterWrite n id i env s M r :
  segInv n s -> repInv s r -> certInv s r ->
  certInv s (fst (afterWrite id i env s M r)).
Proof.
  intros Hs Hr Hcert. unfold afterWrite.
  assert (forall M1 r1,
            repInv s r1 -> certInv s r1 ->
            certInv s (fst (afterActive i env s M1 r1))) as Hactive.
  { intros M1 r1 Hr1 Hcert1. unfold afterActive.
    destruct (Replica.writeRpc r1) as [w|] eqn:Hw.
    - destruct (isReady env); [|done]. simpl. unfold afterReady.
      destruct (outcome env).
      + by apply certInv_ack.
      + by apply certInv_notup.
      + by constructor.
    - destruct (negb (Progress.open (Replica.committed r1))) eqn:Hopen.
      + unfold afterSendOpen.
        destruct (negb (precedingSegmentOpenCommitted s)); [done|].
        destruct (writeRpcsInFlight M1 =? MAX_WRITE_RPCS_IN_FLIGHT); [done|].
        simpl. by apply certInv_sendOpen.
      + unfold afterSendWrite.
        destruct (negb (precedingSegmentCloseCommitted s)); [done|].
        destruct (sendClose s r1 && followingNotOpen M1 s); [done|].
        destruct (writeRpcsInFlight M1 =? MAX_WRITE_RPCS_IN_FLIGHT); [done|].
        simpl. apply (certInv_sendWrite n); auto.
        by apply negb_false_iff. }
  destruct (Replica.isActive r) eqn:Hact; simpl.
  - destruct (Progress.eqb (Replica.committed r) (queued s)); [done|].
    by apply Hactive.
  - destruct (isValid (selected i env s)) eqn:Hvalid; simpl; [|done].
    apply Hactive; [by apply repInv_start|by apply certInv_start].
Qed.

Lemma certInv_afterFree env s r :
  certInv s r -> certInv s (fst (afterFree env s r)).
Proof.
  intros Hr. unfold afterFree.
  destruct (negb (Replica.isActive r)); [done|].
  destruct (Replica.freeRpc r).
  - destruct (isReady env); [|done]. simpl. apply certInv_fresh.
  - simpl. destruct Hr. by constructor.
Qed.

Lemma certInv_cancelWrite s r : certInv s r -> certInv s (cancelWrite r).
Proof.
  intros Hr. unfold cancelWrite.
  destruct (negb (Replica.isActive r)); [done|].
  destruct (Replica.writeRpc r) as [w|] eqn:Hw; [|done].
  destruct Hr. constructor; simpl; try done.
  - intros w' [= <-]. simpl. by apply inv_cert_open0.
  - intros w' [= <-]. simpl. by apply inv_cert_data0.
Qed.

Lemma certAll_upd n id i f M M' :
  upd id i f M M' -> managerInv n M -> certAll M ->
  (forall s r, segments M !! id = Some s -> replicas s !! i = Some r ->
               segInv n s -> repInv s r -> certInv s r -> certInv s (f r)) ->
  certAll M'.
Proof.
  intros Hu HM HR Hf id' s' Hs'.
  destruct (upd_lookup_inv _ _ _ _ _ _ _ Hu Hs') as (s & Hs & Hc & Hr).
  destruct (HM id' s Hs) as [_ Hinv]. specialize (HR id' s Hs).
  assert (forall r, certInv s r -> certInv s' r) as Hcore.
  { intros r. unfold core in Hc. injection Hc as _ _ _ _ Hmax Hq _ Hol Hcert.
    apply certInv_core; auto. rewrite Hq. lia. }
  rewrite Hr. case_decide; subst.
  - apply Forall_alter.
    + eapply Forall_impl; [exact HR|]. done.
    + intros r Hri _. apply Hcore, (Hf s r); auto.
      * eapply Forall_lookup_1; [apply Hinv|done].
      * eapply Forall_lookup_1; [exact HR|done].
  - eapply Forall_impl; [exact HR|]. done.
Qed.

Lemma certAll_modifySegment id h M :
  (forall s, segments M !! id = Some s ->
             Forall (certInv s) (replicas s) ->
             Forall (certInv (h s)) (replicas (h s))) ->
  certAll M -> certAll (modifySegment id h M).
Proof.
  intros Hh HR id' s'. simpl.
  destruct (decide (id = id')) as [<-|Hne].
  - rewrite lookup_alter_eq.
    destruct (segments M !! id) as [s|] eqn:Hs; [|done].
    intros [= <-]. apply Hh; [done|]. by apply (HR id).
  - rewrite lookup_alter_ne by done. apply (HR id').
Qed.

(** A change that leaves the replicas alone and lets the queued bytes
    grow at most. *)
Lemma certAll_flags id h M :
  (forall s, segments M !! id = Some s ->
             openLen (h s) = openLen s
             /\ maxBytesPerWriteRpc (h s) = maxBytesPerWriteRpc s
             /\ openingWriteCertificate (h s) = openingWriteCertificate s
             /\ Progress.bytes (queued s) <= Progress.bytes (queued (h s))
             /\ replicas (h s) = replicas s) ->
  certAll M -> certAll (modifySegment id h M).
Proof.
  intros Hh. apply certAll_modifySegment. intros s Hs Hall.
  destruct (Hh s Hs) as (Hol & Hmax & Hcert & Hq & Hr). rewrite Hr.
  eapply Forall_impl; [exact Hall|]. intros r.
  by apply certInv_core.
Qed.

Lemma schedule_seg_certificate s :
  openingWriteCertificate (schedule_seg s) = openingWriteCertificate s.
Proof. unfold schedule_seg. by destruct (replicas s). Qed.

Lemma certAll_schedule id M : certAll M -> certAll (schedule id M).
Proof.
  apply certAll_flags. intros s _.
  destruct (schedule_seg_fields s) as (_ & _ & Hmax & Hol & _).
  rewrite schedule_seg_certificate, schedule_seg_replicas,
    schedule_seg_queued.
  repeat split; first [done|lia].
Qed.

Lemma certAll_same_segments M M' :
  segments M' = segments M -> certAll M -> certAll M'.
Proof. intros E H id s. rewrite E. apply H. Qed.

Lemma certAll_recover id M :
  certAll M -> certAll (recoverFromLostOpenReplicas id M).
Proof.
  intros HR. unfold recoverFromLostOpenReplicas.
  destruct (segments M !! id) as [s|]; [|done].
  destruct (recoveringFromLostOpenReplicas s); [|done].
  destruct (Progress.eqb (getCommitted s) (queued s)).
  - destruct (isAtLeast _ _ _).
    + apply certAll_flags; [|done]. intros s0 _. simpl.
      repeat split; first [done|lia].
    + by apply certAll_schedule, (certAll_same_segments M).
  - by apply certAll_schedule.
Qed.

Lemma certAll_destroy id M : certAll M -> certAll (destroy id M).
Proof.
  intros HR id' s'. simpl. rewrite lookup_delete_Some.
  intros [_ Hs']. by apply (HR id').
Qed.

Lemma performWrite_certAll n id i env M M' :
  managerInv n M -> certAll M -> performWrite id i env M = Ok M' ->
  certAll M'.
Proof.
  intros HM HR H.
  destruct (segments M !! id) as [s|] eqn:Hs;
    [|unfold performWrite in H; by rewrite Hs in H].
  destruct (replicas s !! i) as [r|] eqn:Hr;
    [|unfold performWrite in H; by rewrite Hs, Hr in H].
  destruct (performWrite_upd _ _ _ _ _ _ _ Hs Hr H) as (_ & Hu & _).
  eapply (certAll_upd n); [exact Hu|exact HM|exact HR|].
  intros s0 r0 Hs0 Hr0 Hinv Hrinv Hrpc. simplify_eq.
  by apply (certInv_afterWrite n).
Qed.

Lemma performFree_certAll n id i env M M' :
  managerInv n M -> certAll M -> performFree id i env M = Ok M' ->
  certAll M'.
Proof.
  intros HM HR H.
  destruct (segments M !! id) as [s|] eqn:Hs;
    [|unfold performFree in H; by rewrite Hs in H].
  destruct (replicas s !! i) as [r|] eqn:Hr;
    [|unfold performFree in H; by rewrite Hs, Hr in H].
  destruct (performFree_upd _ _ _ _ _ _ _ Hs Hr H) as (Hu & _).
  eapply (certAll_upd n); [exact Hu|exact HM|exact HR|].
  intros s0 r0 Hs0 Hr0 Hinv Hrinv Hrpc. simplify_eq.
  by apply certInv_afterFree.
Qed.

Lemma performTask_certAll n id env M M' :
  managerInv n M -> certAll M -> performTask id env M = Ok M' -> certAll M'.
Proof.
  intros HM HR H. unfold performTask in H.
  destruct (segments M !! id) as [s|] eqn:Hs; [|done].
  destruct (freeQueued s) eqn:Hfq; simpl in H.
  - destruct (negb (recoveringFromLostOpenReplicas s)); simpl in H;
      [|injection H as <-; by apply certAll_recover].
    destruct (foreachReplica _ _ _ _) as [M1|] eqn:Hloop; [|done].
    simpl in H.
    assert (managerInv n M1 /\ certAll M1) as [_ HR1].
    { eapply (foreachReplica_inv
                (fun M1 => managerInv n M1 /\ certAll M1));
        [|by eauto|exact Hloop].
      intros i M2 M3 [HM2 HR2] H23.
      split; [by eapply performFree_inv|by eapply performFree_certAll]. }
    destruct (segments M1 !! id) as [s1|]; [|done].
    destruct (negb (scheduled s1)); simpl in H; injection H as <-;
      auto using certAll_recover, certAll_destroy.
  - destruct (foreachReplica _ _ _ _) as [M1|] eqn:Hloop; [|done].
    simpl in H. injection H as <-. apply certAll_recover.
    assert (managerInv n M1 /\ certAll M1) as [_ HR1]; [|done].
    eapply (foreachReplica_inv (fun M1 => managerInv n M1 /\ certAll M1));
      [|by eauto|exact Hloop].
    intros i M2 M3 [HM2 HR2] H23.
    split; [by eapply performWrite_inv|by eapply performWrite_certAll].
Qed.

Lemma handleBackupFailure_seg_cert failedId s :
  Forall (certInv s) (replicas s) ->
  Forall (certInv (handleBackupFailure_seg failedId s))
    (replicas (handleBackupFailure_seg failedId s)).
Proof.
  intros Hall.
  assert (replicas (handleBackupFailure_seg failedId s)
          = map (fun r => if lostReplica failedId r then Replica.failed r
                          else r) (replicas s)) as ->.
  { unfold handleBackupFailure_seg.
    rewrite handleBackupFailure_loop_spec. simpl.
    destruct (existsb (lostOpenReplica failedId) (replicas s)),
      (existsb (lostReplica failedId) (replicas s)); simpl;
      by rewrite ?schedule_seg_replicas. }
  assert (openLen (handleBackupFailure_seg failedId s) = openLen s
          /\ maxBytesPerWriteRpc (handleBackupFailure_seg failedId s)
             = maxBytesPerWriteRpc s
          /\ openingWriteCertificate (handleBackupFailure_seg failedId s)
             = openingWriteCertificate s
          /\ Progress.bytes (queued (handleBackupFailure_seg failedId s))
             = Progress.bytes (queued s)) as (Hol & Hmax & Hcert & Hq).
  { unfold handleBackupFailure_seg.
    destruct (handleBackupFailure_loop _ _ _ _) as [[rs lost] sched].
    destruct (schedule_seg_fields (set_replicas rs s))
      as (_ & _ & Hmax & Hol & _).
    destruct lost, sched; simpl;
      rewrite ?schedule_seg_certificate, ?schedule_seg_queued, ?Hmax, ?Hol;
      done. }
  apply Forall_fmap. eapply Forall_impl; [exact Hall|].
  intros r Hr. simpl.
  apply (certInv_core s); auto; [lia|].
  destruct (lostReplica failedId r); [apply certInv_failed|done].
Qed.

Lemma step_certAll n M M' :
  managerInv n M -> certAll M -> step M M' -> certAll M'.
Proof.
  intros HM HR Hstep. destruct Hstep as
    [M M' prev seg normal master id0 numReplicas maxBytes Hnone _ _ _ Hopen
    |M id0 s0 seg Hs0 _ Happ
    |M M' id0 Hclose
    |M id0
    |M M' id0 Hfree
    |M failedId id0
    |M failedId
    |M M' id0 env Htask
    |M id0].
  - (* openSegment *)
    assert (forall new,
              replicas new = replicate numReplicas Replica.fresh ->
              Forall (certInv new) (replicas new)) as Hnew.
    { intros new ->. apply Forall_replicate, certInv_fresh. }
    unfold openSegment in Hopen. destruct prev as [p|].
    + destruct (segments M !! p) as [ps|]; [|done]. injection Hopen as <-.
      intros id s. simpl.
      destruct (decide (id0 = id)) as [<-|Hne].
      * rewrite lookup_insert_eq. intros [= <-]. by apply Hnew.
      * rewrite lookup_insert_ne by done.
        apply (certAll_flags p (set_followingSegment (Some id0)) M);
          [|done].
        intros s1 _. simpl. repeat split; first [done|lia].
    + injection Hopen as <-. intros id s. simpl.
      destruct (decide (id0 = id)) as [<-|Hne].
      * rewrite lookup_insert_eq. intros [= <-]. by apply Hnew.
      * rewrite lookup_insert_ne by done. apply (HR id).
  - (* append *)
    apply certAll_flags; [|done]. intros s1 _. simpl.
    repeat split; first [done|lia].
  - (* close *)
    unfold close in Hclose.
    destruct (segments M !! id0) as [s0|] eqn:Hs0; [|done].
    destruct (Progress.close (queued s0)); [done|]. injection Hclose as <-.
    apply certAll_flags; [|done]. intros s Hs.
    destruct (HM id0 s Hs) as [_ []].
    rewrite schedule_seg_certificate, schedule_seg_replicas,
      schedule_seg_queued.
    destruct (schedule_seg_fields
                (set_queuedCertificate (appendedCertificate (segment s))
                   (set_queued
                      (Progress.set_bytes (appendedLength (segment s))
                         (Progress.set_close true (queued s))) s)))
      as (_ & _ & Hmax & Hol & _).
    rewrite Hmax, Hol. simpl. repeat split; first [done|lia].
  - (* sync picks up what was appended *)
    apply certAll_flags; [|done]. intros s _.
    destruct (Z.gtb_spec (appendedLength (segment s))
                (Progress.bytes (queued s))) as [Hgt|Hle];
      [|repeat split; first [done|lia]].
    rewrite schedule_seg_certificate, schedule_seg_replicas,
      schedule_seg_queued.
    destruct (schedule_seg_fields
                (set_queuedCertificate (appendedCertificate (segment s))
                   (set_queued
                      (Progress.set_bytes (appendedLength (segment s))
                         (queued s)) s)))
      as (_ & _ & Hmax & Hol & _).
    rewrite Hmax, Hol. simpl. repeat split; first [done|lia].
  - (* free *)
    unfold free_locked in Hfree.
    destruct (segments M !! id0) as [s0|]; [|done].
    repeat match type of Hfree with
           | context [if ?c then _ else _] => destruct c; [done|]
           end.
    injection Hfree as <-. apply certAll_schedule.
    apply certAll_modifySegment; [|done]. intros s _ Hall. simpl.
    apply Forall_fmap. eapply Forall_impl; [exact Hall|].
    intros r Hr. simpl. apply certInv_cancelWrite.
    apply (certInv_core s); auto. simpl. lia.
  - apply certAll_modifySegment; [|done]. intros s _.
    apply handleBackupFailure_seg_cert.
  - intros id s'. simpl. rewrite lookup_fmap.
    destruct (segments M !! id) as [s|] eqn:Hs; [|done].
    intros [= <-]. by apply handleBackupFailure_seg_cert, (HR id).
  - unfold taskQueue_performTask in Htask.
    destruct (segments M !! id0) as [s0|]; [|done].
    destruct (scheduled s0); [|by injection Htask as <-].
    eapply (performTask_certAll n); [| |exact Htask].
    + by apply managerInv_flags.
    + apply certAll_flags; [|done]. intros s1 _. simpl.
      repeat split; first [done|lia].
  - by apply (certAll_same_segments M).
Qed.

Lemma reachable_certAll n M :
  reachable n M -> Z.of_nat n < 2 ^ 64 -> certAll M.
Proof.
  induction 1 as [|n M M' Hreach IH Hstep]; intros Hn.
  - intros id s Hs. simpl in Hs. by rewrite lookup_empty in Hs.
  - apply (step_certAll n M); [|apply IH; lia|done].
    apply reachable_inv; [done|lia].
Qed.

(** C1, as amended.  In every state that the master reaches, when
    [performWrite] finds the outstanding write RPC [w] of a replica
    completed successfully, it sets [acked] to [sent], and sets
    [committed] to [acked] exactly when [acked == queued] or
    [acked.bytes == openLen], as [queued] is when the acknowledgement is
    seen.  If a write RPC may carry bytes at all and [committed]
    advances, then [w] carried a certificate or was the opening write of
    a replica that is replicated atomically.  The acknowledgement of an
    opening write always advances [committed], and the opening write
    carries no certificate exactly when the replica is replicated
    atomically.  The state is any state reached in fewer than [2^64]
    steps, whatever happened since the write was issued. *)
Theorem C1_ack_advances_committed n id i env M s r w :
  reachable n M -> Z.of_nat n < 2 ^ 64 ->
  segments M !! id = Some s -> replicas s !! i = Some r ->
  freeQueued s = false -> followingAlive M s ->
  Replica.writeRpc r = Some w ->
  Progress.eqb (Replica.committed r) (queued s) = false ->
  isReady env = true -> outcome env = RpcOk ->
  exists M' s' r',
    performWrite id i env M = Ok M'
    /\ segments M' !! id = Some s' /\ replicas s' !! i = Some r'
    /\ Replica.writeRpc r' = None
    /\ Replica.acked r' = Replica.sent r
    /\ Replica.committed r'
       = (if ackCommits s (Replica.sent r) then Replica.sent r
          else Replica.committed r)
    /\ (0 < maxBytesPerWriteRpc s ->
        ackCommits s (Replica.sent r) = true ->
        is_Some (w_certificate w)
        \/ (w_open w = true /\ Replica.replicateAtomically r = true
            /\ w_certificate w = None))
    /\ (w_open w = true ->
        ackCommits s (Replica.sent r) = true
        /\ (w_certificate w = None
            <-> Replica.replicateAtomically r = true)).
Proof.
  intros Hreach Hn Hs Hr Hfq Halive Hw Hne Hready Hout.
  pose proof (reachable_inv n M Hreach Hn id s Hs) as [_ Hseg].
  pose proof (Forall_lookup_1 _ _ _ _ (inv_replicas _ _ Hseg) Hr) as Hrep.
  pose proof (Forall_lookup_1 _ _ _ _
                (reachable_rpcAll n M Hreach Hn id s Hs) Hr) as Hrpc.
  pose proof (Forall_lookup_1 _ _ _ _
                (reachable_certAll n M Hreach Hn id s Hs) Hr) as Hcert.
  assert (Replica.isActive r = true) as Hact.
  { destruct (Replica.isActive r) eqn:E; [done|].
    destruct (inv_inactive _ _ Hrep E) as (_ & _ & _ & Hnone & _).
    congruence. }
  pose proof (inv_no_free _ _ Hrpc Hfq) as Hfree.
  destruct (performWrite_ack_ok id i env M s r w Hs Hr Halive Hfree Hact
              Hne Hw Hready Hout) as (M' & H & Hafter).
  destruct (performWrite_upd _ _ _ _ _ _ _ Hs Hr H) as (_ & Hupd & _ & _).
  destruct (upd_lookup _ _ _ _ _ _ _ Hupd Hs Hr)
    as (s' & Hs' & _ & _ & Hr').
  rewrite Hafter in Hr'. simpl in Hr'.
  exists M', s',
    (Replica.set_writeRpc None (ackWrite (queued s) (openLen s) r)).
  split; [done|]. split; [done|]. split; [done|].
  destruct (inv_rpc _ _ Hrpc w Hw) as (_ & _ & _ & _ & _ & Hwopen).
  assert (w_open w = true -> Progress.bytes (Replica.sent r) = openLen s)
    as Hopening.
  { intros Ho. rewrite Hwopen in Ho. apply negb_true_iff in Ho.
    apply (inv_not_open_busy _ _ Hrep Ho). congruence. }
  assert (w_open w = true -> ackCommits s (Replica.sent r) = true)
    as Hcommits.
  { intros Ho. unfold ackCommits.
    rewrite (Hopening Ho), Z.eqb_refl. apply orb_true_r. }
  unfold ackWrite, ackCommits in *. simpl.
  destruct (Progress.eqb (Replica.sent r) (queued s)
            || (Progress.bytes (Replica.sent r) =? openLen s)) eqn:Hc;
    simpl;
    (split; [done|]; split; [done|]; split; [done|]; split).
  - intros Hmax _.
    destruct (w_open w) eqn:Ho.
    + rewrite (inv_cert_open _ _ Hcert w Hw Ho).
      destruct (Replica.replicateAtomically r); [right|left]; eauto.
    + destruct (w_certificate w) as [c|] eqn:Hc0; [left; eauto|].
      destruct (inv_cert_data _ _ Hcert w Hw Ho Hc0) as [Hlt Hbehind].
      specialize (Hbehind Hmax).
      apply orb_true_iff in Hc as [Heq%Progress_eqb_eq|Heq%Z.eqb_eq].
      * rewrite Heq in Hlt. lia.
      * lia.
  - intros Ho. split; [done|].
    rewrite (inv_cert_open _ _ Hcert w Hw Ho).
    by destruct (Replica.replicateAtomically r).
  - by intros _ [=].
  - intros Ho. split; [by apply Hcommits|].
    rewrite (inv_cert_open _ _ Hcert w Hw Ho).
    by destruct (Replica.replicateAtomically r).
Qed.

(** ** C6: the close of a segment and the open of the following one *)











(** *** Steps that send nothing *)










(** *** What performWrite does to the link and to the close *)

































End ReplicatedSegment.

(** ** The operations run on concrete states *)

(** The parameters used to run the examples: four write RPCs in flight at
    most, slot 0 as the primary, and an order in which a progress is below
    another as soon as one of its fields is. *)
Definition example_MAX : Z := 4.

Definition example_lt (a b : Progress) : bool :=
  (negb (Progress.open a) && Progress.open b)
  || (Progress.bytes a <? Progress.bytes b)
  || (Progress.epoch a <? Progress.epoch b)
  || (negb (Progress.close a) && Progress.close b).

Definition example_isPrimary (i : nat) : bool := Nat.eqb i 0.

Definition backup1 : ServerId := MkServerId 1 0.
Definition backup2 : ServerId := MkServerId 2 0.
Definition master99 : ServerId := MkServerId 99 0.

Definition example_certificate : Certificate := mkCertificate 100 7.

(** The world as a replica sees it when its RPC is ready and succeeded,
    with [backup2] on offer. *)
Definition env_ok : ReplicaEnv :=
  mkReplicaEnv (fun _ => backup2) (fun _ => backup2) true RpcOk.

(** The same for every replica slot. *)
Definition env_all (i : nat) : ReplicaEnv := env_ok.

(** Segment 88 of master 99: 100 bytes queued, of which the first 10
    are the opening write; its replicas are [rs]. *)
Definition segment88 (rs : list Replica) (recovering : bool)
    : ReplicatedSegment :=
  mkReplicatedSegment (mkSegment 100 example_certificate) true master99 88
    1000 (Progress.mk true 100 0 false) example_certificate 10
    (mkCertificate 10 3) false None true true recovering rs true.

Definition manager88 (rs : list Replica) (recovering : bool)
    : ReplicaManager :=
  mkReplicaManager {[ 88 := segment88 rs recovering ]} 0
    (mkUpdateReplicationEpochTask ∅ ∅) [].

(** An active replica on [backup1] with nothing sent, replicated
    atomically or not. *)
Definition unopened (atomically : bool) : Replica :=
  Replica.mk true backup1 Progress.zero Progress.zero Progress.zero
    None None atomically.

(** An active replica on [backup1] whose opening write is committed. *)
Definition opened : Replica :=
  Replica.mk true backup1 (Progress.mk true 10 0 false)
    (Progress.mk true 10 0 false) (Progress.mk true 10 0 false)
    None None false.

Definition run_performWrite (M : ReplicaManager) : ReplicaManager :=
  match performWrite example_MAX example_lt example_isPrimary 88 0 env_ok M
  with
  | Ok M' => M'
  | Abort => M
  end.

(** Segment 88 of a manager and its first replica, for reading results. *)
Definition segment_of (M : ReplicaManager) : ReplicatedSegment :=
  default (segment88 [] false) (segments M !! 88).

Definition replica_of (M : ReplicaManager) : Replica :=
  default Replica.fresh (replicas (segment_of M) !! 0%nat).


(** *** C1 on a replica that is re-replicated atomically *)

(** The opening write of an atomically replicated replica has been
    issued ([M_atomic1]) and then acknowledged ([M_atomic2]). *)
Definition M_atomic0 : ReplicaManager := manager88 [unopened true] false.
Definition M_atomic1 : ReplicaManager := run_performWrite M_atomic0.
Definition M_atomic2 : ReplicaManager := run_performWrite M_atomic1.

Definition atomicOpeningWrite : WriteSegmentRpc :=
  mkWriteSegmentRpc backup1 master99 88 0 0 10 None true false true false.

(** *** C2 on a segment with two replicas on the failed backup *)

Definition replica_on (b : ServerId) : Replica :=
  Replica.mk true b (Progress.mk true 10 0 false)
    (Progress.mk true 10 0 false) (Progress.mk true 10 0 false)
    None None false.

Lemma C2_witness :
  replicas (handleBackupFailure_seg backup1
              (segment88 [replica_on backup1; replica_on backup2;
                          replica_on backup1] false))
  = [Replica.failed (replica_on backup1); replica_on backup2;
     Replica.failed (replica_on backup1)]
  /\ Progress.epoch
       (queued (handleBackupFailure_seg backup1
                  (segment88 [replica_on backup1; replica_on backup2;
                              replica_on backup1] false))) = 1
  /\ recoveringFromLostOpenReplicas
       (handleBackupFailure_seg backup1
          (segment88 [replica_on backup1; replica_on backup2;
                      replica_on backup1] false)) = true.
Proof.
  pose proof (C2_handleBackupFailure backup1
                (segment88 [replica_on backup1; replica_on backup2;
                            replica_on backup1] false)) as (Hr & _ & Hq).
  split; [exact Hr|].
  change (existsb (lostOpenReplica backup1)
            (replicas (segment88 [replica_on backup1; replica_on backup2;
                                  replica_on backup1] false)))
    with true in Hq.
  destruct Hq as (_ & He & Hrec). split; [|exact Hrec].
  apply He. simpl. lia.
Defined.

(** *** C3: two syncs that wait although the specified condition holds *)

(** A replica that has committed all that is queued. *)
Definition synced : Replica :=
  Replica.mk true backup1 (Progress.mk true 100 0 false)
    (Progress.mk true 100 0 false) (Progress.mk true 100 0 false)
    None None false.

(** The same after a backup failure has moved the segment to epoch 1. *)
Definition synced1 : Replica :=
  Replica.mk true backup1 (Progress.mk true 100 1 false)
    (Progress.mk true 100 1 false) (Progress.mk true 100 1 false)
    None None false.

(** Segment 88 recovering from a lost open replica: all its data is
    committed again, the coordinator has not confirmed epoch 1 yet. *)
Definition recovering88 : ReplicatedSegment :=
  set_queued (Progress.mk true 100 1 false) (segment88 [synced1] true).

Definition M_recovering : ReplicaManager :=
  mkReplicaManager {[ 88 := recovering88 ]} 0
    (mkUpdateReplicationEpochTask ∅ ∅) [].

(** The rounds of the loop of [sync]: the task queue runs segment 88. *)
Definition example_round (k : nat) (M : ReplicaManager)
    : Result ReplicaManager :=
  taskQueue_performTask example_MAX example_lt example_isPrimary
    88 env_all M.

(** While the segment recovers, [sync(50)] waits although 100 bytes are
    committed: each round asks for epoch 1 again and the flag stays.
    Without recovery, [sync(200)] waits although all 100 queued bytes
    are committed, which is [min(200, queued.bytes)]. *)
Lemma C3_counterexample :
  specifiedSyncCondition recovering88 50 = true
  /\ sync example_round 88 50 5 M_recovering
     = StillWaiting
         (mkReplicaManager {[ 88 := recovering88 ]} 0
            (mkUpdateReplicationEpochTask {[ 88 := 1 ]} ∅) [])
  /\ specifiedSyncCondition (segment88 [synced] false) 200 = true
  /\ sync example_round 88 200 5 (manager88 [synced] false)
     = StillWaiting
         (modifySegment 88 (set_scheduled false)
            (manager88 [synced] false)).
Proof. vm_compute. repeat split; reflexivity. Qed.

Lemma C3_witness :
  sync example_round 88 50 5 (manager88 [synced] false)
  = Returned (manager88 [synced] false).
Proof.
  apply (C3_sync_returns example_round 88 50 5 (manager88 [synced] false)).
  exists (segment88 [synced] false). split; [reflexivity|].
  split; [reflexivity|]. simpl. lia.
Defined.

(** *** C6 on a closed segment whose follower is not open *)




(** *** C10 on a segment that recovers with its free queued *)

Definition segment88_freeing : ReplicatedSegment :=
  set_freeQueued true (segment88 [synced] true).

Definition M_freeing : ReplicaManager :=
  mkReplicaManager {[ 88 := segment88_freeing ]} 0
    (mkUpdateReplicationEpochTask ∅ ∅) [].

Lemma C10_witness :
  performTask example_MAX example_lt example_isPrimary 88 env_all M_freeing
  = Ok (recoverFromLostOpenReplicas 88 M_freeing).
Proof.
  apply (C10_recovery_before_free example_MAX example_lt example_isPrimary
           88 env_all M_freeing segment88_freeing).
  - reflexivity.
  - reflexivity.
  - reflexivity.
Defined.

(** *** The life of a segment, from the initial state *)

Definition getOk (r : Result ReplicaManager) : ReplicaManager :=
  match r with
  | Ok M => M
  | Abort => initial
  end.

Definition example_task (M : ReplicaManager) : ReplicaManager :=
  getOk (taskQueue_performTask example_MAX example_lt example_isPrimary
           88 env_all M).

Definition tinySegment : Segment := mkSegment 10 (mkCertificate 10 3).

(** Segment 88 is opened with one replica; its opening write is sent and
    acknowledged; it is closed, the closing write is sent and
    acknowledged; it is freed, the free is sent and acknowledged. *)
Definition M_life1 : ReplicaManager :=
  getOk (openSegment None tinySegment true master99 88 1 1000 initial).
Definition M_life2 : ReplicaManager := example_task M_life1.
Definition M_life3 : ReplicaManager := example_task M_life2.
Definition M_life4 : ReplicaManager := getOk (close 88 M_life3).
Definition M_life5 : ReplicaManager := example_task M_life4.
Definition M_life6 : ReplicaManager := example_task M_life5.
Definition M_life7 : ReplicaManager := getOk (free_locked 88 M_life6).
Definition M_life8 : ReplicaManager := example_task M_life7.
Definition M_life9 : ReplicaManager := example_task M_life8.

Definition example_reachable : nat -> ReplicaManager -> Prop :=
  reachable example_MAX example_lt example_isPrimary.

Definition example_steps : nat -> ReplicaManager -> ReplicaManager -> Prop :=
  steps example_MAX example_lt example_isPrimary.

Lemma example_task_step M M' :
  taskQueue_performTask example_MAX example_lt example_isPrimary
    88 env_all M = Ok M' ->
  step example_MAX example_lt example_isPrimary M M'.
Proof. apply step_performTask. Qed.

Lemma M_life1_reachable : example_reachable 1 M_life1.
Proof.
  eapply reachable_step; [apply reachable_initial|].
  apply (step_openSegment _ _ _ initial M_life1 None tinySegment true
           master99 88 1 1000).
  - reflexivity.
  - intros e He. simpl in He. by apply elem_of_nil in He.
  - unfold uint32. simpl. lia.
  - unfold uint32. lia.
  - reflexivity.
Qed.

Lemma M_life2_reachable : example_reachable 2 M_life2.
Proof.
  apply (reachable_step _ _ _ 1 M_life1 M_life2
           M_life1_reachable).
  apply example_task_step. vm_compute. reflexivity.
Qed.

Lemma M_life3_reachable : example_reachable 3 M_life3.
Proof.
  apply (reachable_step _ _ _ 2 M_life2 M_life3
           M_life2_reachable).
  apply example_task_step. vm_compute. reflexivity.
Qed.

Lemma M_life4_reachable : example_reachable 4 M_life4.
Proof.
  apply (reachable_step _ _ _ 3 M_life3 M_life4 M_life3_reachable).
  apply (step_close _ _ _ M_life3 M_life4 88). vm_compute. reflexivity.
Qed.

Lemma M_life5_reachable : example_reachable 5 M_life5.
Proof.
  apply (reachable_step _ _ _ 4 M_life4 M_life5
           M_life4_reachable).
  apply example_task_step. vm_compute. reflexivity.
Qed.

Lemma M_life6_reachable : example_reachable 6 M_life6.
Proof.
  apply (reachable_step _ _ _ 5 M_life5 M_life6
           M_life5_reachable).
  apply example_task_step. vm_compute. reflexivity.
Qed.

Lemma M_life7_reachable : example_reachable 7 M_life7.
Proof.
  apply (reachable_step _ _ _ 6 M_life6 M_life7 M_life6_reachable).
  apply (step_free _ _ _ M_life6 M_life7 88). vm_compute. reflexivity.
Qed.

Lemma M_life9_steps : example_steps 2 M_life7 M_life9.
Proof.
  apply (steps_step _ _ _ 1 M_life7 M_life8 M_life9).
  - apply (steps_step _ _ _ 0 M_life7 M_life7 M_life8).
    + apply steps_refl.
    + apply example_task_step. vm_compute. reflexivity.
  - apply example_task_step. vm_compute. reflexivity.
Qed.

(** *** C5 while the closing write is in flight *)

Lemma C5_witness :
  Progress.le (Replica.committed (replica_of M_life5))
    (Replica.acked (replica_of M_life5))
  /\ Progress.le (Replica.acked (replica_of M_life5))
       (Replica.sent (replica_of M_life5))
  /\ Progress.le (Replica.sent (replica_of M_life5))
       (queued (segment_of M_life5)).
Proof.
  apply (C5_progress_order example_MAX example_lt example_isPrimary
           5 M_life5 88 (segment_of M_life5) (replica_of M_life5)).
  - apply M_life5_reachable.
  - vm_compute. reflexivity.
  - vm_compute. reflexivity.
  - vm_compute. apply list_elem_of_here.
Defined.

(** *** C7 once the free of segment 88 is queued *)

Lemma C7_witness :
  exists events,
    trace M_life9 = trace M_life7 ++ events
    /\ forall w, WriteIssued w ∈ events -> w_segmentId w <> 88.
Proof.
  assert (segments M_life7 !! 88 = Some (segment_of M_life7)) as Hs.
  { vm_compute. reflexivity. }
  apply (C7_no_write_after_free example_MAX example_lt example_isPrimary
           7 M_life7 88 (segment_of M_life7)
           M_life7_reachable Hs) with (k := 2%nat).
  - vm_compute. reflexivity.
  - apply M_life9_steps.
Defined.

(** ** The backup's write path: facts *)

Section BackupServiceFacts.

Import BackupService.

Lemma list_inserts_idemp {A} (i : nat) (k l : list A) :
  list_inserts i k (list_inserts i k l) = list_inserts i k l.
Proof.
  apply list_eq. intros j.
  destruct (decide (j < i)%nat).
  { by rewrite !list_lookup_inserts_lt. }
  destruct (decide (i + length k <= j)%nat).
  { by rewrite !list_lookup_inserts_ge. }
  destruct (decide (j < length l)%nat).
  - rewrite !list_lookup_inserts; rewrite ?length_inserts; auto; lia.
  - transitivity (@None A); [|symmetry]; apply lookup_ge_None;
      rewrite ?length_inserts; lia.
Qed.

Lemma applyWrite_idemp req f :
  applyWrite req (applyWrite req f) = applyWrite req f.
Proof.
  unfold applyWrite. simpl. rewrite list_inserts_idemp.
  by destruct (req_certificate req).
Qed.

(** A write that succeeds has stored [applyWrite req f] for a frame [f]
    written by this process, within the capacity. *)
Lemma writeSegment_ok req b b1 :
  writeSegment req b = (STATUS_OK, b1) ->
  exists f,
    b1 = set_frames
           (<[(req_masterId req, req_segmentId req) := applyWrite req f]>
              (frames b)) b
    /\ fromStorage f = false /\ closed f = false
    /\ (req_offset req + length (req_payload req) <=? segmentSize b)%nat
       = true.
Proof.
  unfold writeSegment. intros H.
  assert (forall f,
            fromStorage f = false ->
            (if closed f then (BackupBadSegmentId, b)
             else if negb (req_offset req + length (req_payload req)
                           <=? segmentSize b)%nat
             then (BackupSegmentOverflow, b)
             else (STATUS_OK,
                   set_frames
                     (<[(req_masterId req, req_segmentId req)
                        := applyWrite req f]> (frames b)) b))
            = (STATUS_OK, b1) ->
            exists f,
              b1 = set_frames
                     (<[(req_masterId req, req_segmentId req)
                        := applyWrite req f]> (frames b)) b
              /\ fromStorage f = false /\ closed f = false
              /\ (req_offset req + length (req_payload req)
                  <=? segmentSize b)%nat = true) as Hstore.
  { intros f Hfs Hf. destruct (closed f) eqn:Hc; [done|].
    destruct (_ <=? _)%nat eqn:Hb; simpl in Hf; [|done].
    injection Hf as <-. eauto. }
  destruct (frames b !! _) as [f|].
  - destruct (fromStorage f) eqn:Hfs; [done|]. eauto.
  - destruct (req_open req); [|done].
    destruct (_ <=? _)%nat; [done|].
    apply (Hstore (newFrame b (req_primary req) (req_epoch req)));
      [done|exact H].
Qed.

Lemma writeSegment_sealed key req b :
  sealed key b -> sealed key (snd (writeSegment req b)).
Proof.
  intros (f & Hf & Hc & Hfs). unfold writeSegment.
  destruct (decide ((req_masterId req, req_segmentId req) = key))
    as [Heq|Hne].
  - rewrite Heq, Hf, Hfs, Hc. simpl. by exists f.
  - repeat match goal with
           | |- context [match ?x with _ => _ end] => destruct x
           end; simpl; try by exists f.
    all: exists f; simpl; by rewrite lookup_insert_ne.
Qed.

Lemma writes_sealed key reqs : forall b,
  sealed key b -> sealed key (writes reqs b).
Proof.
  induction reqs as [|req reqs IH]; intros b Hb; simpl; [done|].
  by apply IH, writeSegment_sealed.
Qed.

(** C8.  A write to a segment that is not open on the backup fails with
    bad segment id.  Once a write carrying [close] has succeeded, every
    later write to that segment fails so, whatever its offset, payload
    and flags (a retry carrying [close] included) and whatever other
    writes the backup has served in between, and leaves the store as it
    was; and a write that does not carry [open] to a segment the backup
    has no frame for fails so too. *)
Theorem C8_write_to_closed_or_unopened :
  (forall req b b1 later req',
     writeSegment req b = (STATUS_OK, b1) ->
     req_close req = true ->
     req_masterId req' = req_masterId req ->
     req_segmentId req' = req_segmentId req ->
     writeSegment req' (writes later b1)
     = (BackupBadSegmentId, writes later b1))
  /\ (forall req' b,
        frames b !! (req_masterId req', req_segmentId req') = None ->
        req_open req' = false ->
        writeSegment req' b = (BackupBadSegmentId, b)).
Proof.
  split.
  - intros req b b1 later req' Hok Hclose Hm Hs.
    destruct (writeSegment_ok req b b1 Hok) as (f & -> & Hfs & _ & _).
    assert (sealed (req_masterId req, req_segmentId req)
              (set_frames
                 (<[(req_masterId req, req_segmentId req)
                    := applyWrite req f]> (frames b)) b)) as Hsealed.
    { exists (applyWrite req f). simpl. rewrite lookup_insert_eq.
      by rewrite Hclose. }
    apply (writes_sealed _ later) in Hsealed.
    destruct Hsealed as (f' & Hf' & Hc' & Hfs').
    unfold writeSegment. by rewrite Hm, Hs, Hf', Hfs', Hc'.
  - intros req' b Hnone Hopen. unfold writeSegment.
    by rewrite Hnone, Hopen.
Qed.

(** C9.  A write that succeeded and did not close the frame can be
    repeated any number of times: every repetition succeeds and leaves
    the store, and so the bytes of the replica, exactly as the first
    call left it. *)
Theorem C9_write_idempotent req b b1 n :
  writeSegment req b = (STATUS_OK, b1) ->
  req_close req = false ->
  retry n req b1 = (replicate n STATUS_OK, b1).
Proof.
  intros Hok Hclose.
  destruct (writeSegment_ok req b b1 Hok) as (f & -> & Hfs & _ & Hbound).
  assert (writeSegment req
            (set_frames
               (<[(req_masterId req, req_segmentId req)
                  := applyWrite req f]> (frames b)) b)
          = (STATUS_OK,
             set_frames
               (<[(req_masterId req, req_segmentId req)
                  := applyWrite req f]> (frames b)) b)) as Hagain.
  { unfold writeSegment. simpl. rewrite lookup_insert_eq. simpl.
    rewrite Hfs, Hclose, Hbound. simpl.
    by rewrite insert_insert_eq, applyWrite_idemp. }
  induction n as [|n IH]; simpl; [done|].
  by rewrite Hagain, IH.
Qed.

End BackupServiceFacts.

(** ** The backup's write path on a concrete store *)

Module BackupExamples.
Import BackupService.

(** A backup with five frames of 64 bytes, all unused. *)
Definition emptyBackup : BackupService.t := BackupService.mk ∅ 64 5 [].

(** The opening write of segment 88: four bytes at offset 10. *)
Definition openingRequest : WriteRequest :=
  mkWriteRequest master99 88 0 10
    [Byte.x74; Byte.x65; Byte.x73; Byte.x74] None true false true.

(** The write that closes it. *)
Definition closingRequest : WriteRequest :=
  mkWriteRequest master99 88 0 14 [] (Some (mkCertificate 14 3))
    false true true.

(** A later write without the open flag. *)
Definition dataRequest : WriteRequest :=
  mkWriteRequest master99 88 0 14 [Byte.x21] None false false true.

Definition openedBackup : BackupService.t :=
  snd (writeSegment openingRequest emptyBackup).

Definition closedBackup : BackupService.t :=
  snd (writeSegment closingRequest openedBackup).

End BackupExamples.

Lemma C8_witness :
  BackupService.writeSegment BackupExamples.dataRequest
    BackupExamples.closedBackup
  = (BackupService.BackupBadSegmentId, BackupExamples.closedBackup)
  /\ BackupService.writeSegment BackupExamples.dataRequest
       BackupExamples.emptyBackup
     = (BackupService.BackupBadSegmentId, BackupExamples.emptyBackup).
Proof.
  destruct C8_write_to_closed_or_unopened as [Hclosed Hunopened]. split.
  - apply (Hclosed BackupExamples.closingRequest
             BackupExamples.openedBackup BackupExamples.closedBackup []
             BackupExamples.dataRequest).
    + vm_compute. reflexivity.
    + reflexivity.
    + reflexivity.
    + reflexivity.
  - apply Hunopened.
    + vm_compute. reflexivity.
    + reflexivity.
Defined.

Lemma C9_witness :
  BackupService.retry 3 BackupExamples.openingRequest
    BackupExamples.openedBackup
  = (replicate 3 BackupService.STATUS_OK, BackupExamples.openedBackup).
Proof.
  apply (C9_write_idempotent BackupExamples.openingRequest
           BackupExamples.emptyBackup BackupExamples.openedBackup 3).
  - vm_compute. reflexivity.
  - reflexivity.
Defined.

(** ** The ordering check of RecoveryTest *)

Module RecoveryTest.

(** An entry of [recovery.backups] with the two integer fields that the
    tests read: [segment_id()] and [user_data()].  The test below takes
    an entry whose [user_data()] is zero for a secondary replica. *)
Record Entry : Type := mkEntry {
  segment_id : Z;
  user_data : Z
}.

(** The loop of [buildSegmentIdToBackups_secondariesEarlyInSomeList]
    from [sawSecondary] on; the result tells whether every
    [EXPECT_FALSE(sawSecondary)] held. *)
Fixpoint expectationsHold (entries : list Entry) (sawSecondary : bool)
    : bool :=
  match entries with
  | [] => true
  | backup :: rest =>
      if user_data backup =? 0 then expectationsHold rest true
      else negb sawSecondary && expectationsHold rest sawSecondary
  end.

Definition isSecondary (e : Entry) : Prop := user_data e = 0.
Definition isPrimary (e : Entry) : Prop := user_data e <> 0.

End RecoveryTest.

Lemma expectationsHold_after_secondary entries :
  RecoveryTest.expectationsHold entries true = true
  <-> Forall RecoveryTest.isSecondary entries.
Proof.
  induction entries as [|e rest IH]; simpl; [done|].
  rewrite Forall_cons. unfold RecoveryTest.isSecondary at 1.
  destruct (Z.eqb_spec (RecoveryTest.user_data e) 0) as [Hz|Hnz].
  - rewrite IH. split; [done|]. by intros [_ ?].
  - simpl. split; [done|]. by intros [? _].
Qed.

(** X19.  The check of the test passes exactly on the lists that are made
    of primaries followed by secondaries only: no secondary before any
    primary. *)
Theorem ordering_check_exact entries :
  RecoveryTest.expectationsHold entries false = true
  <-> exists k, Forall RecoveryTest.isPrimary (take k entries)
                /\ Forall RecoveryTest.isSecondary (drop k entries).
Proof.
  induction entries as [|e rest IH]; simpl.
  - split; [|done]. intros _. exists O. by split.
  - destruct (Z.eqb_spec (RecoveryTest.user_data e) 0) as [Hz|Hnz].
    + rewrite expectationsHold_after_secondary. split.
      * intros Hrest. exists O. split; [done|]. simpl.
        by apply Forall_cons.
      * intros ([|k] & Hp & Hs); simpl in *.
        -- by apply Forall_cons in Hs as [_ ?].
        -- by apply Forall_cons in Hp as [? _].
    + simpl. rewrite IH. split.
      * intros (k & Hp & Hs). exists (S k). simpl.
        split; [by apply Forall_cons|done].
      * intros ([|k] & Hp & Hs); simpl in *.
        -- by apply Forall_cons in Hs as [? _].
        -- apply Forall_cons in Hp as [_ ?]. eauto.
Qed.

(** ** Further runs on concrete states *)

(** The opening write and the closing write of segment 88 in the life
    above, both to [backup2]. *)
Definition openingWrite88 : WriteSegmentRpc :=
  mkWriteSegmentRpc backup2 master99 88 0 0 10 (Some (mkCertificate 10 3))
    true false true false.

Definition closingWrite88 : WriteSegmentRpc :=
  mkWriteSegmentRpc backup2 master99 88 0 10 0 (Some (mkCertificate 10 3))
    false true true false.

(** The backup of the outstanding RPC has gone away. *)
Definition env_down : ReplicaEnv :=
  mkReplicaEnv (fun _ => backup2) (fun _ => backup2) true
    ServerNotUpException.

(** Segment 89 is opened after segment 88 while the opening write of
    segment 88 is in flight. *)
Definition M_pair : ReplicaManager :=
  getOk (openSegment (Some 88) tinySegment true master99 89 1 1000 M_life2).

Definition segment_at (id : Z) (M : ReplicaManager) : ReplicatedSegment :=
  default (segment88 [] false) (segments M !! id).

Definition example_performWrite (env : ReplicaEnv) (M : ReplicaManager)
    : ReplicaManager :=
  getOk (performWrite example_MAX example_lt example_isPrimary 88 0 env M).

Definition example_performTask (M : ReplicaManager) : ReplicaManager :=
  getOk (performTask example_MAX example_lt example_isPrimary 88 env_all M).

Lemma M_life5_steps : example_steps 2 M_life3 M_life5.
Proof.
  apply (steps_step _ _ _ 1 M_life3 M_life4 M_life5).
  - apply (steps_step _ _ _ 0 M_life3 M_life3 M_life4).
    + apply steps_refl.
    + apply (step_close _ _ _ M_life3 M_life4 88). vm_compute. reflexivity.
  - apply example_task_step. vm_compute. reflexivity.
Qed.

Lemma handleBackupFailure_other_backup_witness :
  handleBackupFailure backup2 88 (manager88 [opened] false)
  = manager88 [opened] false.
Proof.
  apply (handleBackupFailure_other_backup backup2 88
           (manager88 [opened] false)).
  intros s r Hs Hr _. vm_compute in Hs. injection Hs as <-.
  simpl in Hr. apply list_elem_of_singleton in Hr as ->.
  discriminate.
Defined.

Lemma writeRpcsInFlight_bounded_witness :
  Z.of_nat (outstanding (segments M_life5)) <= writeRpcsInFlight M_life5
  /\ writeRpcsInFlight M_life5 <= example_MAX.
Proof.
  apply (writeRpcsInFlight_bounded example_MAX example_lt example_isPrimary
           5 M_life5).
  - unfold example_MAX. lia.
  - apply M_life5_reachable.
Defined.

Lemma performWrite_throttle_witness :
  exists events,
    trace (example_performWrite env_ok M_life1) = trace M_life1 ++ events
    /\ (length events <= 1)%nat
    /\ (writeRpcsInFlight M_life1 = example_MAX -> events = [])
    /\ (Replica.writeRpc (replica_of M_life1) <> None -> events = [])
    /\ (events <> []
        -> writeRpcsInFlight (example_performWrite env_ok M_life1)
           = wrap32 (writeRpcsInFlight M_life1 + 1)).
Proof.
  apply (performWrite_throttle example_MAX example_lt example_isPrimary
           88 0%nat env_ok M_life1 (example_performWrite env_ok M_life1)
           (segment_of M_life1) (replica_of M_life1)).
  - vm_compute. reflexivity.
  - vm_compute. reflexivity.
  - vm_compute. reflexivity.
Defined.

Lemma performWrite_segment_order_witness :
  if w_open closingWrite88
  then precedingSegmentOpenCommitted (segment_of M_life4) = true
       /\ Progress.open (Replica.committed (replica_of M_life4)) = false
  else precedingSegmentCloseCommitted (segment_of M_life4) = true
       /\ Progress.open (Replica.committed (replica_of M_life4)) = true.
Proof.
  apply (performWrite_segment_order example_MAX example_lt
           example_isPrimary 88 0%nat env_ok M_life4
           (example_performWrite env_ok M_life4)
           (segment_of M_life4) (replica_of M_life4) closingWrite88).
  - vm_compute. reflexivity.
  - vm_compute. reflexivity.
  - vm_compute. reflexivity.
  - vm_compute. apply list_elem_of_here.
Defined.

Lemma performWrite_rpc_contents_witness :
  w_masterId openingWrite88 = masterId (segment_of M_life1)
  /\ w_segmentId openingWrite88 = 88
  /\ w_epoch openingWrite88 = Progress.epoch (queued (segment_of M_life1))
  /\ w_primary openingWrite88 = example_isPrimary 0
  /\ w_cancelled openingWrite88 = false
  /\ w_backupId openingWrite88
     = (if Replica.isActive (replica_of M_life1)
        then Replica.backupId (replica_of M_life1)
        else selected example_isPrimary 0 env_ok (segment_of M_life1))
  /\ (if w_open openingWrite88
      then w_offset openingWrite88 = 0
           /\ w_length openingWrite88 = openLen (segment_of M_life1)
           /\ w_close openingWrite88 = false
           /\ w_certificate openingWrite88
              = (if Replica.replicateAtomically (replica_of M_life1)
                 then None
                 else Some (openingWriteCertificate (segment_of M_life1)))
      else w_offset openingWrite88
           = Progress.bytes (Replica.sent (replica_of M_life1))
           /\ 0 <= w_length openingWrite88
              <= maxBytesPerWriteRpc (segment_of M_life1)
           /\ w_offset openingWrite88 + w_length openingWrite88
              <= Progress.bytes (queued (segment_of M_life1))
           /\ w_certificate openingWrite88
              = (if w_offset openingWrite88 + w_length openingWrite88
                    =? Progress.bytes (queued (segment_of M_life1))
                 then Some (queuedCertificate (segment_of M_life1))
                 else None)
           /\ w_close openingWrite88
              = Progress.close (queued (segment_of M_life1))
                && (w_offset openingWrite88 + w_length openingWrite88
                    =? Progress.bytes (queued (segment_of M_life1))))
  /\ exists s' r',
       segments (example_performWrite env_ok M_life1) !! 88 = Some s'
       /\ replicas s' !! 0%nat = Some r'
       /\ Replica.writeRpc r' = Some openingWrite88
       /\ Progress.bytes (Replica.sent r')
          = w_offset openingWrite88 + w_length openingWrite88.
Proof.
  apply (performWrite_rpc_contents example_MAX example_lt example_isPrimary
           1 88 0%nat env_ok M_life1 (example_performWrite env_ok M_life1)
           (segment_of M_life1) (replica_of M_life1) openingWrite88).
  - apply M_life1_reachable.
  - simpl. lia.
  - vm_compute. reflexivity.
  - vm_compute. reflexivity.
  - vm_compute. reflexivity.
  - vm_compute. reflexivity.
Defined.

Lemma performWrite_rpc_failed_witness :
  trace (example_performWrite env_down M_life2) = trace M_life2
  /\ writeRpcsInFlight (example_performWrite env_down M_life2)
     = wrap32 (writeRpcsInFlight M_life2 - 1)
  /\ exists s' r',
       segments (example_performWrite env_down M_life2) !! 88 = Some s'
       /\ replicas s' !! 0%nat = Some r'
       /\ scheduled s' = true
       /\ Replica.writeRpc r' = None
       /\ Replica.sent r' = Replica.acked r'
       /\ match outcome env_down with
          | ServerNotUpException =>
              Replica.isActive r' = true
              /\ Replica.backupId r' = Replica.backupId (replica_of M_life2)
              /\ Replica.acked r' = Replica.acked (replica_of M_life2)
              /\ Replica.committed r'
                 = Replica.committed (replica_of M_life2)
          | _ => Replica.isActive r' = false
          end.
Proof.
  apply (performWrite_rpc_failed example_MAX example_lt example_isPrimary
           88 0%nat env_down M_life2 (example_performWrite env_down M_life2)
           (segment_of M_life2) (replica_of M_life2) openingWrite88).
  - vm_compute. reflexivity.
  - vm_compute. reflexivity.
  - vm_compute. reflexivity.
  - vm_compute. reflexivity.
  - vm_compute. reflexivity.
  - vm_compute. reflexivity.
  - reflexivity.
  - discriminate.
  - vm_compute. reflexivity.
Defined.

Lemma segment_grows_witness :
  segmentId (segment_of M_life5) = segmentId (segment_of M_life3)
  /\ masterId (segment_of M_life5) = masterId (segment_of M_life3)
  /\ normalLogSegment (segment_of M_life5)
     = normalLogSegment (segment_of M_life3)
  /\ maxBytesPerWriteRpc (segment_of M_life5)
     = maxBytesPerWriteRpc (segment_of M_life3)
  /\ openLen (segment_of M_life5) = openLen (segment_of M_life3)
  /\ openingWriteCertificate (segment_of M_life5)
     = openingWriteCertificate (segment_of M_life3)
  /\ length (replicas (segment_of M_life5))
     = length (replicas (segment_of M_life3))
  /\ appendedLength (segment (segment_of M_life3))
     <= appendedLength (segment (segment_of M_life5))
  /\ Progress.le (queued (segment_of M_life3)) (queued (segment_of M_life5))
  /\ (freeQueued (segment_of M_life3) = true
      -> freeQueued (segment_of M_life5) = true).
Proof.
  apply (segment_grows example_MAX example_lt example_isPrimary
           3 2 M_life3 M_life5 88 (segment_of M_life3) (segment_of M_life5)).
  - apply M_life3_reachable.
  - apply M_life5_steps.
  - simpl. lia.
  - vm_compute. reflexivity.
  - vm_compute. reflexivity.
Defined.

Lemma close_needs_sync_witness :
  exists s',
    segments M_life4 !! 88 = Some s'
    /\ queued s'
       = Progress.mk true (appendedLength (segment (segment_of M_life3)))
           (Progress.epoch (queued (segment_of M_life3))) true
    /\ queuedCertificate s'
       = appendedCertificate (segment (segment_of M_life3))
    /\ replicas s' = replicas (segment_of M_life3)
    /\ scheduled s' = true
    /\ isSynced s' = false
    /\ syncDone 88 NO_OFFSET M_life4 = false
    /\ close 88 M_life4 = Abort.
Proof.
  apply (close_needs_sync example_MAX example_lt example_isPrimary
           3 88 M_life3 M_life4 (segment_of M_life3)).
  - apply M_life3_reachable.
  - simpl. lia.
  - vm_compute. reflexivity.
  - vm_compute. discriminate.
  - vm_compute. reflexivity.
Defined.

Lemma free_after_sync_witness :
  (followingSegment (segment_of M_life6) = None
   -> exists M' s',
        free_locked 88 M_life6 = Ok M'
        /\ segments M' !! 88 = Some s'
        /\ freeQueued s' = true /\ scheduled s' = true)
  /\ (followingSegment (segment_of M_life6) <> None
      -> free_locked 88 M_life6 = Abort).
Proof.
  apply (free_after_sync example_MAX example_lt example_isPrimary
           6 88 M_life6 (segment_of M_life6)).
  - apply M_life6_reachable.
  - simpl. lia.
  - vm_compute. reflexivity.
  - vm_compute. discriminate.
  - vm_compute. reflexivity.
Defined.

Lemma free_round_witness :
  (forall id', id' <> 88 -> segments M_life8 !! id' = segments M_life7 !! id')
  /\ writeRpcsInFlight M_life8 = writeRpcsInFlight M_life7
  /\ if allFreed env_all 0 (replicas (segment_of M_life7))
     then segments M_life8 !! 88 = None
          /\ trace M_life8 = trace M_life7 ++ [Destroyed 88]
     else trace M_life8
          = trace M_life7
            ++ freeEvents (masterId (segment_of M_life7))
                 (segmentId (segment_of M_life7))
                 (replicas (segment_of M_life7))
          /\ exists s',
               segments M_life8 !! 88 = Some s'
               /\ scheduled s' = true /\ freeQueued s' = true.
Proof.
  apply (free_round example_MAX example_lt example_isPrimary
           88 env_all M_life7 M_life8 (segment_of M_life7)).
  - vm_compute. reflexivity.
  - vm_compute. reflexivity.
  - vm_compute. reflexivity.
  - vm_compute. reflexivity.
  - vm_compute. reflexivity.
Defined.

Lemma write_rpc_of_replica_witness :
  match Replica.writeRpc (replica_of M_life5) with
  | Some w =>
      Replica.isActive (replica_of M_life5) = true
      /\ w_segmentId w = 88
      /\ w_masterId w = masterId (segment_of M_life5)
      /\ w_backupId w = Replica.backupId (replica_of M_life5)
      /\ isValid (w_backupId w) = true
      /\ w_offset w = Progress.bytes (Replica.acked (replica_of M_life5))
      /\ w_offset w + w_length w
         = Progress.bytes (Replica.sent (replica_of M_life5))
      /\ w_open w
         = negb (Progress.open (Replica.committed (replica_of M_life5)))
  | None => Replica.sent (replica_of M_life5)
            = Replica.acked (replica_of M_life5)
  end.
Proof.
  apply (write_rpc_of_replica example_MAX example_lt example_isPrimary
           5 M_life5 88 (segment_of M_life5) (replica_of M_life5)).
  - apply M_life5_reachable.
  - simpl. lia.
  - vm_compute. reflexivity.
  - vm_compute. apply list_elem_of_here.
Defined.

Lemma free_rpc_only_after_free_witness :
  Replica.freeRpc (replica_of M_life6) = None.
Proof.
  apply (free_rpc_only_after_free example_MAX example_lt example_isPrimary
           6 M_life6 88 (segment_of M_life6) (replica_of M_life6)).
  - apply M_life6_reachable.
  - simpl. lia.
  - vm_compute. reflexivity.
  - vm_compute. apply list_elem_of_here.
  - vm_compute. reflexivity.
Defined.

Lemma synced_segment_idle_witness :
  performTask example_MAX example_lt example_isPrimary 88 env_all M_life3
  = Ok M_life3.
Proof.
  apply (synced_segment_idle example_MAX example_lt example_isPrimary
           3 M_life3 88 (segment_of M_life3) env_all).
  - apply M_life3_reachable.
  - simpl. lia.
  - vm_compute. reflexivity.
  - vm_compute. reflexivity.
  - vm_compute. reflexivity.
Defined.

Lemma performWrite_tells_following_witness :
  exists s' fs',
    segments (example_performWrite env_ok M_pair) !! 88 = Some s'
    /\ segments (example_performWrite env_ok M_pair) !! 89 = Some fs'
    /\ getCommitted s'
       = getCommitted
           (set_replicas
              (alter (ackWrite (queued (segment_at 88 M_pair))
                        (openLen (segment_at 88 M_pair))) 0%nat
                 (replicas (segment_at 88 M_pair)))
              (segment_at 88 M_pair))
    /\ precedingSegmentOpenCommitted fs'
       = precedingSegmentOpenCommitted (segment_at 89 M_pair)
         || Progress.open (getCommitted s')
    /\ precedingSegmentCloseCommitted fs'
       = precedingSegmentCloseCommitted (segment_at 89 M_pair)
         || Progress.close (getCommitted s')
    /\ followingSegment s'
       = (if Progress.close (getCommitted s') then None else Some 89)
    /\ core fs' = core (segment_at 89 M_pair)
    /\ replicas fs' = replicas (segment_at 89 M_pair)
    /\ followingSegment fs' = followingSegment (segment_at 89 M_pair)
    /\ scheduled fs' = scheduled (segment_at 89 M_pair).
Proof.
  apply (performWrite_tells_following example_MAX example_lt
           example_isPrimary 88 0%nat env_ok M_pair
           (example_performWrite env_ok M_pair) (segment_at 88 M_pair)
           (replica_of M_pair) openingWrite88 89 (segment_at 89 M_pair)).
  - vm_compute. reflexivity.
  - vm_compute. reflexivity.
  - vm_compute. reflexivity.
  - vm_compute. reflexivity.
  - vm_compute. reflexivity.
  - reflexivity.
  - reflexivity.
  - vm_compute. reflexivity.
  - discriminate.
  - vm_compute. reflexivity.
  - vm_compute. reflexivity.
Defined.

(** Segment 88 with a replica on [backup1] and a second replica that has
    no backup yet. *)
Definition M_two : ReplicaManager :=
  manager88 [replica_on backup1; Replica.fresh] false.

Lemma performWrite_distinct_backups_witness :
  exists s',
    segments
      (getOk (performWrite example_MAX example_lt example_isPrimary 88 1
                env_ok M_two)) !! 88 = Some s'
    /\ distinctBackups (replicas s').
Proof.
  apply (performWrite_distinct_backups example_MAX example_lt
           example_isPrimary 88 1%nat env_ok M_two
           (getOk (performWrite example_MAX example_lt example_isPrimary
                     88 1 env_ok M_two))
           (segment_of M_two) Replica.fresh).
  - vm_compute. reflexivity.
  - vm_compute. reflexivity.
  - intros [|[|j]] [|[|k]] rj rk Hj Hk Haj Hak _; simpl in Hj, Hk;
      try reflexivity; try discriminate.
    + injection Hk as <-. discriminate.
    + injection Hj as <-. discriminate.
  - vm_compute. intros Hin. apply list_elem_of_singleton in Hin.
    discriminate.
  - vm_compute. reflexivity.
Defined.

Lemma performTask_minds_its_own_witness :
  (forall id', id' <> 88 ->
     option_Forall2
       (fun s1 s1' => core s1' = core s1 /\ replicas s1' = replicas s1)
       (segments M_pair !! id') (segments (example_performTask M_pair) !! id'))
  /\ exists events,
       trace (example_performTask M_pair) = trace M_pair ++ events
       /\ forall e, e ∈ events -> eventSegment e = 88.
Proof.
  apply (performTask_minds_its_own example_MAX example_lt example_isPrimary
           88 env_all M_pair (example_performTask M_pair)
           (segment_at 88 M_pair)).
  - vm_compute. reflexivity.
  - vm_compute. reflexivity.
  - vm_compute. reflexivity.
Defined.

(** ** C1, C6: runs for the amended claims *)

(** *** C1: a certified write acknowledged after the close is queued *)

(** Ten more bytes are appended to segment 88 after its opening write
    is committed; [sync] picks them up; they are sent in one write that
    carries the certificate; [close()] is called while that write is in
    flight; the write is acknowledged. *)
Definition M_data4 : ReplicaManager :=
  append 88 (mkSegment 20 (mkCertificate 20 5)) M_life3.
Definition M_data5 : ReplicaManager := syncRefresh 88 M_data4.
Definition M_data6 : ReplicaManager := example_task M_data5.
Definition M_data7 : ReplicaManager := getOk (close 88 M_data6).
Definition M_data8 : ReplicaManager := example_task M_data7.

Definition dataWrite88 : WriteSegmentRpc :=
  mkWriteSegmentRpc backup2 master99 88 0 10 10 (Some (mkCertificate 20 5))
    false false true false.

Lemma M_data8_reachable : example_reachable 8 M_data8.
Proof.
  apply (reachable_step _ _ _ 7 M_data7 M_data8).
  - apply (reachable_step _ _ _ 6 M_data6 M_data7).
    + apply (reachable_step _ _ _ 5 M_data5 M_data6).
      * apply (reachable_step _ _ _ 4 M_data4 M_data5).
        -- apply (reachable_step _ _ _ 3 M_life3 M_data4 M_life3_reachable).
           apply (step_append _ _ _ M_life3 88 (segment_of M_life3)
                    (mkSegment 20 (mkCertificate 20 5))).
           ++ vm_compute. reflexivity.
           ++ vm_compute. reflexivity.
           ++ vm_compute. split; [discriminate|reflexivity].
        -- apply (step_syncRefresh _ _ _ M_data4 88).
      * apply example_task_step. vm_compute. reflexivity.
    + apply (step_close _ _ _ M_data6 M_data7 88). vm_compute. reflexivity.
  - apply example_task_step. vm_compute. reflexivity.
Qed.

(** Against the claim as specified, in both directions.  The opening
    write of a replica that replicates atomically carries no
    certificate, and its acknowledgement advances [committed] all the
    same.  The data write of the run above carries a certificate, and
    its acknowledgement does not advance [committed]: [close()] has
    changed [queued] in between, so that [acked] is neither [queued]
    nor at [openLen]. *)
Lemma C1_counterexample :
  (performWrite example_MAX example_lt example_isPrimary 88 0 env_ok
     M_atomic0 = Ok M_atomic1
   /\ trace M_atomic1 = [WriteIssued atomicOpeningWrite]
   /\ w_certificate atomicOpeningWrite = None
   /\ Replica.writeRpc (replica_of M_atomic1) = Some atomicOpeningWrite
   /\ Replica.committed (replica_of M_atomic1) = Progress.zero
   /\ performWrite example_MAX example_lt example_isPrimary 88 0 env_ok
        M_atomic1 = Ok M_atomic2
   /\ Replica.acked (replica_of M_atomic2) = Progress.mk true 10 0 false
   /\ Replica.committed (replica_of M_atomic2) = Progress.mk true 10 0 false)
  /\ (example_reachable 8 M_data8
      /\ trace M_data6 = trace M_data5 ++ [WriteIssued dataWrite88]
      /\ w_certificate dataWrite88 = Some (mkCertificate 20 5)
      /\ Replica.writeRpc (replica_of M_data7) = Some dataWrite88
      /\ Replica.committed (replica_of M_data7) = Progress.mk true 10 0 false
      /\ queued (segment_of M_data7) = Progress.mk true 20 0 true
      /\ taskQueue_performTask example_MAX example_lt example_isPrimary
           88 env_all M_data7 = Ok M_data8
      /\ Replica.writeRpc (replica_of M_data8) = None
      /\ Replica.acked (replica_of M_data8) = Progress.mk true 20 0 false
      /\ Replica.committed (replica_of M_data8)
         = Progress.mk true 10 0 false).
Proof.
  split.
  - vm_compute. repeat split; reflexivity.
  - split; [apply M_data8_reachable|].
    vm_compute. repeat split; reflexivity.
Qed.

(** The closing write of the life of segment 88 is acknowledged. *)
Lemma C1_witness :
  exists M' s' r',
    performWrite example_MAX example_lt example_isPrimary 88 0 env_ok
      M_life5 = Ok M'
    /\ segments M' !! 88 = Some s' /\ replicas s' !! 0%nat = Some r'
    /\ Replica.writeRpc r' = None
    /\ Replica.acked r' = Replica.sent (replica_of M_life5)
    /\ Replica.committed r'
       = (if ackCommits (segment_of M_life5)
               (Replica.sent (replica_of M_life5))
          then Replica.sent (replica_of M_life5)
          else Replica.committed (replica_of M_life5))
    /\ (0 < maxBytesPerWriteRpc (segment_of M_life5) ->
        ackCommits (segment_of M_life5) (Replica.sent (replica_of M_life5))
        = true ->
        is_Some (w_certificate closingWrite88)
        \/ (w_open closingWrite88 = true
            /\ Replica.replicateAtomically (replica_of M_life5) = true
            /\ w_certificate closingWrite88 = None))
    /\ (w_open closingWrite88 = true ->
        ackCommits (segment_of M_life5) (Replica.sent (replica_of M_life5))
        = true
        /\ (w_certificate closingWrite88 = None
            <-> Replica.replicateAtomically (replica_of M_life5) = true)).
Proof.
  apply (C1_ack_advances_committed example_MAX example_lt example_isPrimary
           5 88 0%nat env_ok M_life5 (segment_of M_life5)
           (replica_of M_life5) closingWrite88).
  - apply M_life5_reachable.
  - simpl. lia.
  - vm_compute. reflexivity.
  - vm_compute. reflexivity.
  - vm_compute. reflexivity.
  - vm_compute. exact I.
  - vm_compute. reflexivity.
  - vm_compute. reflexivity.
  - reflexivity.
  - reflexivity.
Defined.

(** *** C6: a segment that is linked after its close was sent *)





(** *** C6: the new head is opened before the old one is closed *)








